(** * BART: the equation-assembly core and the power iteration

    A shallow embedding of [EquationBase<dim>] (equation_base.cc) and of
    [PowerIteration<dim>::eigen_iterations] (power_iteration.cc), and the
    properties of the index maps, of the assembly routines, of the moment
    generation, of the fission-transfer scaling and of the outer
    eigenvalue loop.

    Conventions of the embedding.
    - [double] is the kernel's binary64 [float]; [+], [*], [/] and the
      comparisons are the IEEE operations of [PrimFloat].
    - [unsigned int] counters and sizes are [nat]: every one of them is a
      loop counter running below an [unsigned int] bound, or an index into
      a container, so no wrap-around is reachable.
    - [std::vector] is [list]; reading or writing past its end is
      undefined behaviour and is the outcome [Undefined].
    - [std::map] and [std::unordered_map] are [gmap]; [operator[]] on a
      missing key inserts a value-initialised entry and returns it.
    - A member function is a computation over the object:
      [Eff EquationBase A].  [AssertThrow] raises, and the mutations made
      before it stay in the object the exception leaves behind. *)

From Stdlib Require Import ZArith Lia Bool String.
From Stdlib Require Import PrimFloat FloatAxioms SpecFloat FloatOps.
From stdpp Require Import gmap strings list.

(** ** Outcomes and computations *)

Inductive Outcome (St A : Type) : Type :=
  | Done (a : A) (s : St)
  | Thrown (msg : string) (s : St)
  | Undefined.
Arguments Done {St A} a s.
Arguments Thrown {St A} msg s.
Arguments Undefined {St A}.

Definition Eff (St A : Type) : Type := St → Outcome St A.

Definition ret {St A} (a : A) : Eff St A := λ s, Done a s.

Definition bind {St A B} (c : Eff St A) (k : A → Eff St B) : Eff St B :=
  λ s, match c s with
       | Done a s' => k a s'
       | Thrown msg s' => Thrown msg s'
       | Undefined => Undefined
       end.

Declare Scope eff_scope.
Delimit Scope eff_scope with eff.
Notation "x <- c ;; k" := (bind c (λ x, k))
  (at level 100, c at next level, right associativity) : eff_scope.
Notation "c ;; k" := (bind c (λ _, k))
  (at level 100, right associativity) : eff_scope.
Local Open Scope eff_scope.

Definition gets {St A} (f : St → A) : Eff St A := λ s, Done (f s) s.
Definition modify {St} (f : St → St) : Eff St unit := λ s, Done tt (f s).
Definition undefined {St A} : Eff St A := λ _, Undefined.

(** [AssertThrow (cond, ExcMessage (msg))] *)
Definition AssertThrow {St} (cond : bool) (msg : string) : Eff St unit :=
  λ s, if cond then Done tt s else Thrown msg s.

(** A value that exists only when an index is in range. *)
Definition defined {St A} (o : option A) : Eff St A :=
  λ s, match o with Some a => Done a s | None => Undefined end.

(** The outcome [o] is the one that the optional result [r] stands for:
    the computation has returned, with a value and a state that [post]
    relates to the result, or it is undefined when there is no result. *)
Definition returns_as {St A B} (o : Outcome St A) (r : option B)
    (post : B → A → St → Prop) : Prop :=
  match r with
  | Some b => ∃ a s, o = Done a s ∧ post b a s
  | None => o = Undefined
  end.

(** [for (unsigned int i=lo; i<lo+cnt; ++i) a = body (i, a);] *)
Fixpoint for_from {St A} (lo cnt : nat) (body : nat → A → Eff St A) (a : A)
    : Eff St A :=
  match cnt with
  | O => ret a
  | S cnt' => a' <- body lo a ;; for_from (S lo) cnt' body a'
  end.

(** [for (unsigned int i=0; i<n; ++i) body (i);] *)
Definition for_range {St} (n : nat) (body : nat → Eff St unit) : Eff St unit :=
  for_from 0 n (λ i _, body i) tt.

(** The same loop over an explicit list of iterations. *)
Fixpoint for_list {St I A} (l : list I) (body : I → A → Eff St A) (a : A)
    : Eff St A :=
  match l with
  | [] => ret a
  | i :: l' => a' <- body i a ;; for_list l' body a'
  end.

(** ** Containers *)

(** [m[key]] of [std::map] / [std::unordered_map]. *)
Definition map_subscript `{Countable K} {V} (dflt : V) (m : gmap K V) (key : K)
    : V * gmap K V :=
  let v := default dflt (m !! key) in (v, <[key := v]> m).

(** [v.resize (n)] with value-initialised new elements [dflt]. *)
Definition resize {A} (n : nat) (dflt : A) (v : list A) : list A :=
  take n v ++ replicate (n - length v) dflt.

(** ** Vectors and matrices *)

(** [Vector<double>] and [PETScWrappers::MPI::Vector] (as seen from one
    address space). *)
Abbreviation Vector := (list float).

(** [FullMatrix<double>], row by row. *)
Abbreviation FullMatrix := (list (list float)).

(** [PETScWrappers::MPI::SparseMatrix]: the stored values; an entry that
    was never written reads as zero. *)
Abbreviation SparseMatrix := (gmap (nat * nat) float).

Definition full_zero (m n : nat) : FullMatrix := replicate m (replicate n 0%float).

(** [V = 0] and [V = 1.0]: every entry is set, the size is kept. *)
Definition vec_fill (x : float) (v : Vector) : Vector := replicate (length v) x.

(** [M = 0] for a full matrix. *)
Definition full_fill (x : float) (m : FullMatrix) : FullMatrix :=
  (λ row, replicate (length row) x) <$> m.

(** [V.add (a, W)]: [V += a*W]; the sizes have to agree. *)
Definition vec_add (a : float) (w v : Vector) : option Vector :=
  if decide (length v = length w)
  then Some (zip_with (λ x y, x + a * y)%float v w)
  else None.

(** [V.equ (a, W)]: [V = a*W]; the sizes have to agree. *)
Definition vec_equ (a : float) (w v : Vector) : option Vector :=
  if decide (length v = length w)
  then Some ((λ y, a * y)%float <$> w)
  else None.

(** [V.add (indices, values)]: [V(indices[i]) += values[i]]. *)
Fixpoint vec_add_at (indices : list nat) (values : Vector) (v : Vector)
    : option Vector :=
  match indices, values with
  | [], [] => Some v
  | i :: indices', x :: values' =>
      match v !! i with
      | Some y => vec_add_at indices' values' (<[i := (y + x)%float]> v)
      | None => None
      end
  | _, _ => None
  end.

Definition mat_entry (m : SparseMatrix) (r c : nat) : float :=
  default 0%float (m !! (r, c)).

(** One row of [M.add (rows, cols, full)]. *)
Fixpoint mat_add_row (r : nat) (cols : list nat) (values : list float)
    (m : SparseMatrix) : option SparseMatrix :=
  match cols, values with
  | [], [] => Some m
  | c :: cols', x :: values' =>
      mat_add_row r cols' values' (<[(r, c) := (mat_entry m r c + x)%float]> m)
  | _, _ => None
  end.

(** [M.add (rows, cols, full)]: [M(rows[i], cols[j]) += full(i,j)]; [full]
    has to be [rows.size()] by [cols.size()]. *)
Fixpoint mat_add (rows cols : list nat) (full : FullMatrix) (m : SparseMatrix)
    : option SparseMatrix :=
  match rows, full with
  | [], [] => Some m
  | r :: rows', values :: full' =>
      match mat_add_row r cols values m with
      | Some m' => mat_add rows' cols full' m'
      | None => None
      end
  | _, _ => None
  end.

(** [matrix[gin][g]] for a matrix stored as a vector of rows. *)
Definition matrix_entry (matrix : list (list float)) (gin g : nat) : option float :=
  match matrix !! gin with
  | Some row => row !! g
  | None => None
  end.

(** [table[m][gin][g]] for a table of per-material group-to-group values. *)
Definition table_entry (table : list (list (list float))) (m gin g : nat)
    : option float :=
  match table !! m with
  | Some matrix => matrix_entry matrix gin g
  | None => None
  end.

(** What [pcout << ...] has written, one token per [<<]. *)
Inductive Token : Type :=
  | Str (s : string)
  | UInt (n : nat)
  | SInt (z : Z)
  | Dbl (x : float)
  | Endl.

(** ** Observations used in the statements *)

(** What [table[key]] returns, as a function of the table. *)
Definition subscript_value `{Countable K} {V} (dflt : V) (m : gmap K V) (key : K) : V :=
  default dflt (m !! key).

(** [keeps f c]: whatever [c] does, also when it throws, the observation
    [f] of the state is afterwards what it was before. *)
Definition keeps {St A B} (f : St → B) (c : Eff St A) : Prop :=
  ∀ s, match c s with
       | Done _ s' | Thrown _ s' => f s' = f s
       | Undefined => True
       end.

(** The zeroth angular moment at entry [j]: the weights times the angular
    fluxes, summed over the directions in their order. *)
Definition weighted_sum_at (weights : list float) (fluxes : list Vector) (j : nat)
    : float :=
  fold_left (λ acc wa, acc + wa.1 * default 0 (wa.2 !! j))%float
    (zip weights fluxes) 0%float.

(** The sum of the quadrature weights, in the order of the directions. *)
Definition sum_of_weights (weights : list float) : float :=
  fold_left (λ acc w, acc + w)%float weights 0%float.

(** A vector after the cell contributions [(indices, values)] have been
    added to it one after the other. *)
Fixpoint add_contributions (contributions : list (list nat * Vector)) (v : Vector)
    : option Vector :=
  match contributions with
  | [] => Some v
  | (indices, values) :: contributions' =>
      match vec_add_at indices values v with
      | Some v' => add_contributions contributions' v'
      | None => None
      end
  end.

(** ** The collaborators

    deal.II, PETSc and the classes of the repository that
    equation_base.cc only uses are taken through their interfaces. *)

(** [dealii::ParameterHandler]: the three accessors, by entry name. *)
Record ParameterHandler : Type := {
  prm_get : string → string;
  prm_get_bool : string → bool;
  prm_get_integer : string → Z;
}.

Class Collaborators : Type := {
  (** [dealii::CellId] and its [operator<] *)
  CellId : Type;
  CellId_less : CellId → CellId → bool;
  (** [PreconditionerSolver], its constructor and the one member that the
      assembly calls *)
  PreconditionerSolver : Type;
  PreconditionerSolver_new : ParameterHandler → string → nat → PreconditionerSolver;
  initialize_preconditioners :
    list SparseMatrix → list Vector → PreconditionerSolver → PreconditionerSolver;
}.

(** One face of a cell: on the boundary, or shared with [neighbor], which
    sees it as its face number [neighbor_face_no]. *)
Inductive Face : Type :=
  | BoundaryFace
  | InteriorFace (neighbor : nat) (neighbor_face_no : nat).

(** What the code reads through a cell iterator. *)
Record Cell `{Collaborators} : Type := {
  cell_id : CellId;
  material_id : nat;
  faces : list Face;
  dof_indices : list nat;
}.

(** ** The equation object

    The data members of [EquationBase<dim>] that the member functions
    embedded below read or write.  A cell iterator is the position of its
    cell in [dof_handler]. *)
Record EquationBase `{Collaborators} : Type := {
  dim : nat;  (* the template argument [dim] *)
  equation_name : string;
  discretization : string;
  is_eigen_problem : bool;
  do_nda : bool;
  have_reflective_bc : bool;
  n_group : nat;
  n_material : nat;
  p_order : nat;
  n_total_vars : nat;
  n_dir : nat;
  pcout_active : bool;  (* the condition of the [ConditionalOStream] *)
  pcout : list Token;  (* what it has written so far *)
  component_index : gmap (nat * nat) nat;
  inverse_component_index : gmap nat (nat * nat);
  wi : list float;
  is_material_fissile : gmap nat bool;
  all_ksi_nusigf_per_ster : list (list (list float));
  scaled_fiss_transfer_per_ster : list (list (list float));
  dof_handler : list Cell;  (* the cells that the iterators below point into *)
  local_cells : list nat;
  is_cell_at_bd : list bool;
  dofs_per_cell : nat;
  n_q : nat;
  local_dof_indices : list nat;
  neigh_dof_indices : list nat;
  alg_ptr : PreconditionerSolver;
  sys_mats : list SparseMatrix;
  sys_aflxes : list Vector;
  sys_rhses : list Vector;
  sys_fixed_rhses : list Vector;
  aflxes_proc : list Vector;
  ho_sflxes_proc : list Vector;
}.

(** Assignment to one member. *)
Definition set_pcout `{Collaborators} (f : list Token → list Token) (e : EquationBase)
    : EquationBase :=
  Build_EquationBase _ (dim e) (equation_name e) (discretization e)
    (is_eigen_problem e) (do_nda e) (have_reflective_bc e) (n_group e)
    (n_material e) (p_order e) (n_total_vars e) (n_dir e) (pcout_active e)
    (f (pcout e)) (component_index e) (inverse_component_index e) (wi e)
    (is_material_fissile e) (all_ksi_nusigf_per_ster e)
    (scaled_fiss_transfer_per_ster e) (dof_handler e) (local_cells e)
    (is_cell_at_bd e) (dofs_per_cell e) (n_q e) (local_dof_indices e)
    (neigh_dof_indices e) (alg_ptr e) (sys_mats e) (sys_aflxes e)
    (sys_rhses e) (sys_fixed_rhses e) (aflxes_proc e) (ho_sflxes_proc e).

Definition set_component_index `{Collaborators} (f : gmap (nat * nat) nat → gmap (nat * nat) nat) (e : EquationBase)
    : EquationBase :=
  Build_EquationBase _ (dim e) (equation_name e) (discretization e)
    (is_eigen_problem e) (do_nda e) (have_reflective_bc e) (n_group e)
    (n_material e) (p_order e) (n_total_vars e) (n_dir e) (pcout_active e)
    (pcout e) (f (component_index e)) (inverse_component_index e) (wi e)
    (is_material_fissile e) (all_ksi_nusigf_per_ster e)
    (scaled_fiss_transfer_per_ster e) (dof_handler e) (local_cells e)
    (is_cell_at_bd e) (dofs_per_cell e) (n_q e) (local_dof_indices e)
    (neigh_dof_indices e) (alg_ptr e) (sys_mats e) (sys_aflxes e)
    (sys_rhses e) (sys_fixed_rhses e) (aflxes_proc e) (ho_sflxes_proc e).

Definition set_inverse_component_index `{Collaborators} (f : gmap nat (nat * nat) → gmap nat (nat * nat)) (e : EquationBase)
    : EquationBase :=
  Build_EquationBase _ (dim e) (equation_name e) (discretization e)
    (is_eigen_problem e) (do_nda e) (have_reflective_bc e) (n_group e)
    (n_material e) (p_order e) (n_total_vars e) (n_dir e) (pcout_active e)
    (pcout e) (component_index e) (f (inverse_component_index e)) (wi e)
    (is_material_fissile e) (all_ksi_nusigf_per_ster e)
    (scaled_fiss_transfer_per_ster e) (dof_handler e) (local_cells e)
    (is_cell_at_bd e) (dofs_per_cell e) (n_q e) (local_dof_indices e)
    (neigh_dof_indices e) (alg_ptr e) (sys_mats e) (sys_aflxes e)
    (sys_rhses e) (sys_fixed_rhses e) (aflxes_proc e) (ho_sflxes_proc e).

Definition set_is_material_fissile `{Collaborators} (f : gmap nat bool → gmap nat bool) (e : EquationBase)
    : EquationBase :=
  Build_EquationBase _ (dim e) (equation_name e) (discretization e)
    (is_eigen_problem e) (do_nda e) (have_reflective_bc e) (n_group e)
    (n_material e) (p_order e) (n_total_vars e) (n_dir e) (pcout_active e)
    (pcout e) (component_index e) (inverse_component_index e) (wi e)
    (f (is_material_fissile e)) (all_ksi_nusigf_per_ster e)
    (scaled_fiss_transfer_per_ster e) (dof_handler e) (local_cells e)
    (is_cell_at_bd e) (dofs_per_cell e) (n_q e) (local_dof_indices e)
    (neigh_dof_indices e) (alg_ptr e) (sys_mats e) (sys_aflxes e)
    (sys_rhses e) (sys_fixed_rhses e) (aflxes_proc e) (ho_sflxes_proc e).

Definition set_scaled_fiss_transfer_per_ster `{Collaborators} (f : list (list (list float)) → list (list (list float))) (e : EquationBase)
    : EquationBase :=
  Build_EquationBase _ (dim e) (equation_name e) (discretization e)
    (is_eigen_problem e) (do_nda e) (have_reflective_bc e) (n_group e)
    (n_material e) (p_order e) (n_total_vars e) (n_dir e) (pcout_active e)
    (pcout e) (component_index e) (inverse_component_index e) (wi e)
    (is_material_fissile e) (all_ksi_nusigf_per_ster e)
    (f (scaled_fiss_transfer_per_ster e)) (dof_handler e) (local_cells e)
    (is_cell_at_bd e) (dofs_per_cell e) (n_q e) (local_dof_indices e)
    (neigh_dof_indices e) (alg_ptr e) (sys_mats e) (sys_aflxes e)
    (sys_rhses e) (sys_fixed_rhses e) (aflxes_proc e) (ho_sflxes_proc e).

Definition set_local_dof_indices `{Collaborators} (f : list nat → list nat) (e : EquationBase)
    : EquationBase :=
  Build_EquationBase _ (dim e) (equation_name e) (discretization e)
    (is_eigen_problem e) (do_nda e) (have_reflective_bc e) (n_group e)
    (n_material e) (p_order e) (n_total_vars e) (n_dir e) (pcout_active e)
    (pcout e) (component_index e) (inverse_component_index e) (wi e)
    (is_material_fissile e) (all_ksi_nusigf_per_ster e)
    (scaled_fiss_transfer_per_ster e) (dof_handler e) (local_cells e)
    (is_cell_at_bd e) (dofs_per_cell e) (n_q e) (f (local_dof_indices e))
    (neigh_dof_indices e) (alg_ptr e) (sys_mats e) (sys_aflxes e)
    (sys_rhses e) (sys_fixed_rhses e) (aflxes_proc e) (ho_sflxes_proc e).

Definition set_neigh_dof_indices `{Collaborators} (f : list nat → list nat) (e : EquationBase)
    : EquationBase :=
  Build_EquationBase _ (dim e) (equation_name e) (discretization e)
    (is_eigen_problem e) (do_nda e) (have_reflective_bc e) (n_group e)
    (n_material e) (p_order e) (n_total_vars e) (n_dir e) (pcout_active e)
    (pcout e) (component_index e) (inverse_component_index e) (wi e)
    (is_material_fissile e) (all_ksi_nusigf_per_ster e)
    (scaled_fiss_transfer_per_ster e) (dof_handler e) (local_cells e)
    (is_cell_at_bd e) (dofs_per_cell e) (n_q e) (local_dof_indices e)
    (f (neigh_dof_indices e)) (alg_ptr e) (sys_mats e) (sys_aflxes e)
    (sys_rhses e) (sys_fixed_rhses e) (aflxes_proc e) (ho_sflxes_proc e).

Definition set_alg_ptr `{Collaborators} (f : PreconditionerSolver → PreconditionerSolver) (e : EquationBase)
    : EquationBase :=
  Build_EquationBase _ (dim e) (equation_name e) (discretization e)
    (is_eigen_problem e) (do_nda e) (have_reflective_bc e) (n_group e)
    (n_material e) (p_order e) (n_total_vars e) (n_dir e) (pcout_active e)
    (pcout e) (component_index e) (inverse_component_index e) (wi e)
    (is_material_fissile e) (all_ksi_nusigf_per_ster e)
    (scaled_fiss_transfer_per_ster e) (dof_handler e) (local_cells e)
    (is_cell_at_bd e) (dofs_per_cell e) (n_q e) (local_dof_indices e)
    (neigh_dof_indices e) (f (alg_ptr e)) (sys_mats e) (sys_aflxes e)
    (sys_rhses e) (sys_fixed_rhses e) (aflxes_proc e) (ho_sflxes_proc e).

Definition set_sys_mats `{Collaborators} (f : list SparseMatrix → list SparseMatrix) (e : EquationBase)
    : EquationBase :=
  Build_EquationBase _ (dim e) (equation_name e) (discretization e)
    (is_eigen_problem e) (do_nda e) (have_reflective_bc e) (n_group e)
    (n_material e) (p_order e) (n_total_vars e) (n_dir e) (pcout_active e)
    (pcout e) (component_index e) (inverse_component_index e) (wi e)
    (is_material_fissile e) (all_ksi_nusigf_per_ster e)
    (scaled_fiss_transfer_per_ster e) (dof_handler e) (local_cells e)
    (is_cell_at_bd e) (dofs_per_cell e) (n_q e) (local_dof_indices e)
    (neigh_dof_indices e) (alg_ptr e) (f (sys_mats e)) (sys_aflxes e)
    (sys_rhses e) (sys_fixed_rhses e) (aflxes_proc e) (ho_sflxes_proc e).

Definition set_sys_aflxes `{Collaborators} (f : list Vector → list Vector) (e : EquationBase)
    : EquationBase :=
  Build_EquationBase _ (dim e) (equation_name e) (discretization e)
    (is_eigen_problem e) (do_nda e) (have_reflective_bc e) (n_group e)
    (n_material e) (p_order e) (n_total_vars e) (n_dir e) (pcout_active e)
    (pcout e) (component_index e) (inverse_component_index e) (wi e)
    (is_material_fissile e) (all_ksi_nusigf_per_ster e)
    (scaled_fiss_transfer_per_ster e) (dof_handler e) (local_cells e)
    (is_cell_at_bd e) (dofs_per_cell e) (n_q e) (local_dof_indices e)
    (neigh_dof_indices e) (alg_ptr e) (sys_mats e) (f (sys_aflxes e))
    (sys_rhses e) (sys_fixed_rhses e) (aflxes_proc e) (ho_sflxes_proc e).

Definition set_sys_rhses `{Collaborators} (f : list Vector → list Vector) (e : EquationBase)
    : EquationBase :=
  Build_EquationBase _ (dim e) (equation_name e) (discretization e)
    (is_eigen_problem e) (do_nda e) (have_reflective_bc e) (n_group e)
    (n_material e) (p_order e) (n_total_vars e) (n_dir e) (pcout_active e)
    (pcout e) (component_index e) (inverse_component_index e) (wi e)
    (is_material_fissile e) (all_ksi_nusigf_per_ster e)
    (scaled_fiss_transfer_per_ster e) (dof_handler e) (local_cells e)
    (is_cell_at_bd e) (dofs_per_cell e) (n_q e) (local_dof_indices e)
    (neigh_dof_indices e) (alg_ptr e) (sys_mats e) (sys_aflxes e)
    (f (sys_rhses e)) (sys_fixed_rhses e) (aflxes_proc e) (ho_sflxes_proc e).

Definition set_sys_fixed_rhses `{Collaborators} (f : list Vector → list Vector) (e : EquationBase)
    : EquationBase :=
  Build_EquationBase _ (dim e) (equation_name e) (discretization e)
    (is_eigen_problem e) (do_nda e) (have_reflective_bc e) (n_group e)
    (n_material e) (p_order e) (n_total_vars e) (n_dir e) (pcout_active e)
    (pcout e) (component_index e) (inverse_component_index e) (wi e)
    (is_material_fissile e) (all_ksi_nusigf_per_ster e)
    (scaled_fiss_transfer_per_ster e) (dof_handler e) (local_cells e)
    (is_cell_at_bd e) (dofs_per_cell e) (n_q e) (local_dof_indices e)
    (neigh_dof_indices e) (alg_ptr e) (sys_mats e) (sys_aflxes e)
    (sys_rhses e) (f (sys_fixed_rhses e)) (aflxes_proc e) (ho_sflxes_proc e).

Definition set_aflxes_proc `{Collaborators} (f : list Vector → list Vector) (e : EquationBase)
    : EquationBase :=
  Build_EquationBase _ (dim e) (equation_name e) (discretization e)
    (is_eigen_problem e) (do_nda e) (have_reflective_bc e) (n_group e)
    (n_material e) (p_order e) (n_total_vars e) (n_dir e) (pcout_active e)
    (pcout e) (component_index e) (inverse_component_index e) (wi e)
    (is_material_fissile e) (all_ksi_nusigf_per_ster e)
    (scaled_fiss_transfer_per_ster e) (dof_handler e) (local_cells e)
    (is_cell_at_bd e) (dofs_per_cell e) (n_q e) (local_dof_indices e)
    (neigh_dof_indices e) (alg_ptr e) (sys_mats e) (sys_aflxes e)
    (sys_rhses e) (sys_fixed_rhses e) (f (aflxes_proc e)) (ho_sflxes_proc e).

Definition set_ho_sflxes_proc `{Collaborators} (f : list Vector → list Vector) (e : EquationBase)
    : EquationBase :=
  Build_EquationBase _ (dim e) (equation_name e) (discretization e)
    (is_eigen_problem e) (do_nda e) (have_reflective_bc e) (n_group e)
    (n_material e) (p_order e) (n_total_vars e) (n_dir e) (pcout_active e)
    (pcout e) (component_index e) (inverse_component_index e) (wi e)
    (is_material_fissile e) (all_ksi_nusigf_per_ster e)
    (scaled_fiss_transfer_per_ster e) (dof_handler e) (local_cells e)
    (is_cell_at_bd e) (dofs_per_cell e) (n_q e) (local_dof_indices e)
    (neigh_dof_indices e) (alg_ptr e) (sys_mats e) (sys_aflxes e)
    (sys_rhses e) (sys_fixed_rhses e) (aflxes_proc e) (f (ho_sflxes_proc e)).

(** ** The providers read by the constructor *)

(** What [process_input] takes from [AQBase<dim>]. *)
Record AQBase : Type := {
  get_n_total_ho_vars : nat;
  get_n_dir : nat;
  get_component_index_map : gmap (nat * nat) nat;
  get_inv_component_map : gmap nat (nat * nat);
  get_angular_weights : list float;
}.

(** What [process_input] takes from [MaterialProperties]. *)
Record MaterialProperties : Type := {
  get_fissile_id_map : gmap nat bool;
  get_ksi_nusigf_per_ster : list (list (list float));
}.

(** Conversion of the [long int] of [get_integer] to [unsigned int]. *)
Definition to_unsigned (z : Z) : nat := Z.to_nat (z mod 2 ^ 32).

(** Modelled from the spec: [AQBase<dim>::initialize_component_index],
    the function of aq_base.cc that fills the two index maps.  The
    spec: "given quadrature direction count n_dir and group count n_group,
    build a total ordering of n_dir x n_group components", the index map
    and its inverse being "two mappings maintained in lockstep".  Each
    (direction, group) pair of [keys] gets the next free index, and both
    maps are extended together. *)
Fixpoint add_components (keys : list (nat * nat)) (ind : nat)
    (maps : gmap (nat * nat) nat * gmap nat (nat * nat))
    : gmap (nat * nat) nat * gmap nat (nat * nat) :=
  match keys with
  | [] => maps
  | key :: keys' =>
      add_components keys' (S ind) (<[key := ind]> (fst maps), <[ind := key]> (snd maps))
  end.

(** Modelled from the spec: the total ordering of the components; the
    spec fixes no order, groups are taken as the outer loop. *)
Definition component_keys (n_dir n_group : nat) : list (nat * nat) :=
  g ← seq 0 n_group; (λ i_dir, (i_dir, g)) <$> seq 0 n_dir.

(** Modelled from the spec: the angular-quadrature provider after
    [make_aq], for [n_dir] directions with weights [weights] and
    [n_group] groups; the total component count is the one of the mock in
    tests/aqdata/aq_base_01.cc, [n_dir * n_group]. *)
Definition make_aq (n_dir n_group : nat) (weights : list float) : AQBase :=
  let maps := add_components (component_keys n_dir n_group) 0 (∅, ∅) in
  {| get_n_total_ho_vars := n_dir * n_group;
     get_n_dir := n_dir;
     get_component_index_map := fst maps;
     get_inv_component_map := snd maps;
     get_angular_weights := weights |}.

(** The constructor, with [process_input] inlined.  [this_mpi_process] is
    the rank of the process; [cells] is the mesh the object will assemble
    on.  Members that the constructor leaves to the [initialize_...]
    functions start out empty (or zero). *)
Definition EquationBase_new `{Collaborators} (dim : nat) (equation_name : string)
    (prm : ParameterHandler) (aqd_ptr : AQBase) (mat_ptr : MaterialProperties)
    (this_mpi_process : nat) (cells : list Cell) : EquationBase :=
  let is_eigen_problem := prm_get_bool prm "do eigenvalue calculations" in
  let n_group := to_unsigned (prm_get_integer prm "number of groups") in
  let n_total_vars :=
    if negb (String.eqb equation_name "nda")
    then get_n_total_ho_vars aqd_ptr else n_group in
  {| dim := dim;
     equation_name := equation_name;
     discretization := prm_get prm "spatial discretization";
     is_eigen_problem := is_eigen_problem;
     do_nda := prm_get_bool prm "do NDA";
     have_reflective_bc := prm_get_bool prm "have reflective BC";
     n_group := n_group;
     n_material := to_unsigned (prm_get_integer prm "number of materials");
     p_order := to_unsigned (prm_get_integer prm "finite element polynomial degree");
     n_total_vars := n_total_vars;
     n_dir := get_n_dir aqd_ptr;
     pcout_active := bool_decide (this_mpi_process = 0);
     pcout := [];
     component_index := get_component_index_map aqd_ptr;
     inverse_component_index := get_inv_component_map aqd_ptr;
     wi := get_angular_weights aqd_ptr;
     is_material_fissile := if is_eigen_problem then get_fissile_id_map mat_ptr else ∅;
     all_ksi_nusigf_per_ster :=
       if is_eigen_problem then get_ksi_nusigf_per_ster mat_ptr else [];
     scaled_fiss_transfer_per_ster := [];
     dof_handler := cells;
     local_cells := [];
     is_cell_at_bd := [];
     dofs_per_cell := 0;
     n_q := 0;
     local_dof_indices := [];
     neigh_dof_indices := [];
     alg_ptr := PreconditionerSolver_new prm equation_name n_total_vars;
     sys_mats := [];
     sys_aflxes := [];
     sys_rhses := [];
     sys_fixed_rhses := [];
     aflxes_proc := resize n_total_vars [] [];
     ho_sflxes_proc := resize n_group [] [] |}.

(** ** The integrators

    The virtual member functions that a transport model overrides.  An
    integrator reads the object and writes to the matrices and vectors it
    is handed by reference; it is taken as the function from what it reads
    to what it leaves in them.  ([fv], [fvf] and [fvf_nei] are always
    re-initialised on the cell and face that the integrator is called
    with, and are not kept as members here.) *)

Class Integrators `{Collaborators} : Type := {
  pre_assemble_cell_matrices :
    EquationBase → nat → list (list FullMatrix) → list FullMatrix →
    list (list FullMatrix) * list FullMatrix;
  integrate_cell_bilinear_form :
    EquationBase → nat → FullMatrix → list (list FullMatrix) → list FullMatrix →
    nat → nat → FullMatrix;
  integrate_boundary_bilinear_form :
    EquationBase → nat → nat → FullMatrix → nat → nat → FullMatrix;
  integrate_boundary_linear_form :
    EquationBase → nat → nat → Vector → nat → nat → Vector;
  integrate_interface_bilinear_form :
    EquationBase → nat → nat → nat →
    FullMatrix → FullMatrix → FullMatrix → FullMatrix → nat → nat →
    FullMatrix * FullMatrix * FullMatrix * FullMatrix;
  integrate_scattering_linear_form :
    EquationBase → nat → Vector → list Vector → nat → nat → Vector;
  integrate_cell_fixed_linear_form :
    EquationBase → nat → Vector → list Vector → nat → nat → Vector;
}.

(** The bodies of [EquationBase<dim>] itself: all of them are empty. *)
Definition EquationBase_integrators `{Collaborators} : Integrators := {|
  pre_assemble_cell_matrices := λ _ _ streaming_at_qp collision_at_qp,
    (streaming_at_qp, collision_at_qp);
  integrate_cell_bilinear_form := λ _ _ cell_matrix _ _ _ _, cell_matrix;
  integrate_boundary_bilinear_form := λ _ _ _ cell_matrix _ _, cell_matrix;
  integrate_boundary_linear_form := λ _ _ _ cell_rhses _ _, cell_rhses;
  integrate_interface_bilinear_form := λ _ _ _ _ vi_ui vi_ue ve_ui ve_ue _ _,
    (vi_ui, vi_ue, ve_ui, ve_ue);
  integrate_scattering_linear_form := λ _ _ cell_rhs _ _ _, cell_rhs;
  integrate_cell_fixed_linear_form := λ _ _ cell_rhs _ _ _, cell_rhs;
|}.

(** ** The member functions of [EquationBase<dim>] *)

Section Members.
Context `{Collaborators} `{!Integrators}.

(** [GeometryInfo<dim>::faces_per_cell] *)
Definition faces_per_cell (e : EquationBase) : nat := 2 * dim e.

(** [pcout << ...]: written only where the stream is active. *)
Definition print (tokens : list Token) : Eff EquationBase unit :=
  modify (λ e, if pcout_active e then set_pcout (λ out, out ++ tokens) e else e).

(** [v[i]] for a vector member [v]. *)
Definition element {A} (member : EquationBase → list A) (i : nat)
    : Eff EquationBase A :=
  λ e, defined (member e !! i) e.

(** [v[i] = x] for a vector member [v]. *)
Definition assign_element {A} (member : EquationBase → list A)
    (set_member : (list A → list A) → EquationBase → EquationBase)
    (i : nat) (x : A) : Eff EquationBase unit :=
  λ e, if decide (i < length (member e))
       then Done tt (set_member (λ v, <[i := x]> v) e)
       else Undefined.

(** *** Cell iterators *)

Definition dereference (cell : nat) : Eff EquationBase Cell :=
  element dof_handler cell.

Definition face (cell fn : nat) : Eff EquationBase Face :=
  c <- dereference cell ;; defined (faces c !! fn).

(** [cell->at_boundary (fn)] *)
Definition at_boundary (cell fn : nat) : Eff EquationBase bool :=
  f <- face cell fn ;;
  ret (match f with BoundaryFace => true | InteriorFace _ _ => false end).

(** [cell->neighbor (fn)]: there is none across a boundary face. *)
Definition neighbor (cell fn : nat) : Eff EquationBase nat :=
  f <- face cell fn ;;
  match f with
  | InteriorFace neigh _ => ret neigh
  | BoundaryFace => undefined
  end.

(** [cell->id ()] *)
Definition id_of (cell : nat) : Eff EquationBase CellId :=
  c <- dereference cell ;; ret (cell_id c).

(** [cell->get_dof_indices (local_dof_indices)] *)
Definition get_local_dof_indices (cell : nat) : Eff EquationBase unit :=
  c <- dereference cell ;; modify (set_local_dof_indices (λ _, dof_indices c)).

(** [neigh->get_dof_indices (neigh_dof_indices)] *)
Definition get_neigh_dof_indices (neigh : nat) : Eff EquationBase unit :=
  c <- dereference neigh ;; modify (set_neigh_dof_indices (λ _, dof_indices c)).

(** *** The index maps (equation_base.cc, 672-692) *)

Definition get_component_index (incident_angle_index g : nat)
    : Eff EquationBase nat :=
  λ e, let r := map_subscript 0 (component_index e) (incident_angle_index, g) in
       Done (fst r) (set_component_index (λ _, snd r) e).

Definition get_component_direction (comp_ind : nat) : Eff EquationBase nat :=
  λ e, let r := map_subscript (0, 0) (inverse_component_index e) comp_ind in
       Done (fst (fst r)) (set_inverse_component_index (λ _, snd r) e).

Definition get_component_group (comp_ind : nat) : Eff EquationBase nat :=
  λ e, let r := map_subscript (0, 0) (inverse_component_index e) comp_ind in
       Done (snd (fst r)) (set_inverse_component_index (λ _, snd r) e).

(** What the three functions return, as functions of the object. *)
Definition component_of (e : EquationBase) (incident_angle_index g : nat) : nat :=
  default 0 (component_index e !! (incident_angle_index, g)).

Definition direction_of (e : EquationBase) (comp_ind : nat) : nat :=
  fst (default (0, 0) (inverse_component_index e !! comp_ind)).

Definition group_of (e : EquationBase) (comp_ind : nat) : nat :=
  snd (default (0, 0) (inverse_component_index e !! comp_ind)).

(** *** [initialize_system_matrices_vectors] (109-138)

    [dsp] is the sparsity pattern, [local_dofs] the size of the index set;
    a matrix is re-initialised to the zero matrix on the pattern and a
    vector to the zero vector.  [sflxes_proc] is passed by reference and
    is returned. *)

Definition SparseMatrix_reinit (dsp : list (nat * nat)) : SparseMatrix :=
  list_to_map ((λ rc, (rc, 0%float)) <$> dsp).

Definition Vector_reinit (local_dofs : nat) : Vector := replicate local_dofs 0%float.

Definition initialize_system_matrices_vectors (dsp : list (nat * nat))
    (local_dofs : nat) (sflxes_proc : list Vector)
    : Eff EquationBase (list Vector) :=
  n <- gets n_total_vars ;;
  for_range n (λ i,
    modify (set_sys_mats (λ v, v ++ [∅])) ;;
    assign_element sys_mats set_sys_mats i (SparseMatrix_reinit dsp) ;;
    modify (set_sys_aflxes (λ v, v ++ [[]])) ;;
    assign_element sys_aflxes set_sys_aflxes i (Vector_reinit local_dofs) ;;
    modify (set_sys_rhses (λ v, v ++ [[]])) ;;
    assign_element sys_rhses set_sys_rhses i (Vector_reinit local_dofs) ;;
    modify (set_sys_fixed_rhses (λ v, v ++ [[]])) ;;
    assign_element sys_fixed_rhses set_sys_fixed_rhses i (Vector_reinit local_dofs)) ;;
  ng <- gets n_group ;;
  AssertThrow (bool_decide (length sflxes_proc = ng))
    "sflxes_proc has to be initilized in size outside" ;;
  for_from 0 ng (λ g sflxes_proc,
    aflx <- element sys_aflxes g ;;
    _ <- defined (sflxes_proc !! g) ;;
    ret (<[g := vec_fill 1 aflx]> sflxes_proc)) sflxes_proc.

(** *** [generate_moments], the three overloads (461-526) *)

(** [aflxes_proc[i] = *sys_aflxes[i]; sflx.add (wi[i_dir], aflxes_proc[i]);] *)
Definition add_direction (i i_dir : nat) (sflx : Vector) : Eff EquationBase Vector :=
  aflx <- element sys_aflxes i ;;
  assign_element aflxes_proc set_aflxes_proc i aflx ;;
  w <- element wi i_dir ;;
  a <- element aflxes_proc i ;;
  defined (vec_add w a sflx).

(** All groups at once: [generate_moments (sflxes_proc, sflxes_proc_old)]. *)
Definition generate_moments_all (sflxes_proc sflxes_proc_old : list Vector)
    : Eff EquationBase (list Vector * list Vector) :=
  name <- gets equation_name ;;
  nda <- gets do_nda ;;
  AssertThrow (negb (String.eqb name "nda") && nda)
    "only non-NDA is supposed to call this function" ;;
  ng <- gets n_group ;;
  for_from 0 ng (λ g '(sflxes_proc, sflxes_proc_old),
    sflx <- defined (sflxes_proc !! g) ;;
    _ <- defined (sflxes_proc_old !! g) ;;
    let sflxes_proc_old := <[g := sflx]> sflxes_proc_old in
    nd <- gets n_dir ;;
    sflx <- for_from 0 nd (λ i_dir sflx,
      i <- get_component_index i_dir g ;;
      add_direction i i_dir sflx) (vec_fill 0 sflx) ;;
    ret (<[g := sflx]> sflxes_proc, sflxes_proc_old))
    (sflxes_proc, sflxes_proc_old).

(** One group: [generate_moments (sflx_proc, sflx_proc_old, g)]. *)
Definition generate_moments_group (sflx_proc sflx_proc_old : Vector) (g : nat)
    : Eff EquationBase (Vector * Vector) :=
  name <- gets equation_name ;;
  AssertThrow (negb (String.eqb name "nda"))
    "NDA is not supposed to call this function" ;;
  let sflx_proc_old := sflx_proc in
  nd <- gets n_dir ;;
  sflx_proc <- for_from 0 nd (λ i_dir sflx_proc,
    i <- get_component_index i_dir g ;;
    add_direction i i_dir sflx_proc) (vec_fill 0 sflx_proc) ;;
  ret (sflx_proc, sflx_proc_old).

(** The scalar flux of the HO solver for NDA: [generate_moments ()]. *)
Definition generate_moments_ho : Eff EquationBase unit :=
  name <- gets equation_name ;;
  nda <- gets do_nda ;;
  AssertThrow (negb (String.eqb name "nda") && nda)
    "only non-NDA is supposed to call this function" ;;
  n <- gets n_total_vars ;;
  for_range n (λ i,
    aflx <- element sys_aflxes i ;;
    assign_element aflxes_proc set_aflxes_proc i aflx) ;;
  ng <- gets n_group ;;
  for_range ng (λ g,
    w <- element wi 0 ;;
    i <- get_component_index 0 g ;;
    a <- element aflxes_proc i ;;
    ho <- element ho_sflxes_proc g ;;
    ho <- defined (vec_equ w a ho) ;;
    assign_element ho_sflxes_proc set_ho_sflxes_proc g ho ;;
    nd <- gets n_dir ;;
    for_from 1 (nd - 1) (λ i_dir _,
      w <- element wi i_dir ;;
      i <- get_component_index i_dir g ;;
      a <- element aflxes_proc i ;;
      ho <- element ho_sflxes_proc g ;;
      ho <- defined (vec_add w a ho) ;;
      assign_element ho_sflxes_proc set_ho_sflxes_proc g ho) tt).

(** *** [scale_fiss_transfer_matrices] (528-543) *)

(** [is_material_fissile[m]] *)
Definition is_fissile (m : nat) : Eff EquationBase bool :=
  λ e, let r := map_subscript false (is_material_fissile e) m in
       Done (fst r) (set_is_material_fissile (λ _, snd r) e).

(** What [is_material_fissile[m]] returns, as a function of the object. *)
Definition material_is_fissile (e : EquationBase) (m : nat) : bool :=
  default false (is_material_fissile e !! m).

(** [all_ksi_nusigf_per_ster[m][gin][g]] *)
Definition ksi_nusigf_per_ster (m gin g : nat) : Eff EquationBase float :=
  λ e, defined (table_entry (all_ksi_nusigf_per_ster e) m gin g) e.

Definition scale_fiss_transfer_matrices (keff : float) : Eff EquationBase unit :=
  eigen <- gets is_eigen_problem ;;
  AssertThrow eigen "Only eigen problem calls this member" ;;
  nm <- gets n_material ;;
  modify (set_scaled_fiss_transfer_per_ster (resize nm [])) ;;
  for_range nm (λ m,
    ng <- gets n_group ;;
    let tmp := replicate ng (replicate ng 0%float) in
    fissile <- is_fissile m ;;
    tmp <- (if fissile
            then for_from 0 ng (λ gin tmp,
                   for_from 0 ng (λ g tmp,
                     x <- ksi_nusigf_per_ster m gin g ;;
                     ret (alter (<[g := (x / keff)%float]>) gin tmp)) tmp) tmp
            else ret tmp) ;;
    assign_element scaled_fiss_transfer_per_ster set_scaled_fiss_transfer_per_ster
      m tmp).

(** *** The linear forms (545-612) *)

(** The boundary faces of a cell, each handed to [integrate]:
    [if (is_cell_at_bd[ic]) for (fn...) if (cell->at_boundary (fn)) ...] *)
Definition over_boundary_faces {A} (ic cell : nat)
    (integrate : EquationBase → nat → A → A) (a : A) : Eff EquationBase A :=
  at_bd <- element is_cell_at_bd ic ;;
  if at_bd
  then nf <- gets faces_per_cell ;;
       for_from 0 nf (λ fn a,
         bd <- at_boundary cell fn ;;
         if bd then e <- gets id ;; ret (integrate e fn a) else ret a) a
  else ret a.

(** [sys_rhses[k]->add (local_dof_indices, cell_rhs)] and its like. *)
Definition add_to_vector (member : EquationBase → list Vector)
    (set_member : (list Vector → list Vector) → EquationBase → EquationBase)
    (k : nat) (cell_rhs : Vector) : Eff EquationBase unit :=
  indices <- gets local_dof_indices ;;
  v <- element member k ;;
  v <- defined (vec_add_at indices cell_rhs v) ;;
  assign_element member set_member k v.

(** The sweep right-hand side of component [k], of direction [i_dir] and
    group [g]: the body of the [if] in [assemble_linear_form]. *)
Definition assemble_linear_form_component (sflxes_proc : list Vector)
    (g k : nat) : Eff EquationBase unit :=
  i_dir <- get_component_direction k ;;
  fixed <- element sys_fixed_rhses k ;;
  assign_element sys_rhses set_sys_rhses k fixed ;;
  nc <- gets (λ e, length (local_cells e)) ;;
  for_range nc (λ ic,
    dofs <- gets dofs_per_cell ;;
    let cell_rhs := replicate dofs 0%float in
    cell <- element local_cells ic ;;
    get_local_dof_indices cell ;;
    e <- gets id ;;
    let cell_rhs :=
      integrate_scattering_linear_form e cell cell_rhs sflxes_proc g i_dir in
    cell_rhs <- over_boundary_faces ic cell
      (λ e fn cell_rhs, integrate_boundary_linear_form e cell fn cell_rhs g i_dir)
      cell_rhs ;;
    add_to_vector sys_rhses set_sys_rhses k cell_rhs).

Definition assemble_linear_form (sflxes_proc : list Vector) (g : nat)
    : Eff EquationBase unit :=
  n <- gets n_total_vars ;;
  for_range n (λ k,
    gk <- get_component_group k ;;
    if decide (gk = g)
    then assemble_linear_form_component sflxes_proc g k
    else ret tt).

Definition assemble_fixed_linear_form (sflx_prev : list Vector)
    : Eff EquationBase unit :=
  n <- gets n_total_vars ;;
  for_range n (λ k,
    g <- get_component_group k ;;
    i_dir <- get_component_direction k ;;
    fixed <- element sys_fixed_rhses k ;;
    assign_element sys_fixed_rhses set_sys_fixed_rhses k (vec_fill 0 fixed) ;;
    nc <- gets (λ e, length (local_cells e)) ;;
    for_range nc (λ ic,
      dofs <- gets dofs_per_cell ;;
      let cell_rhs := replicate dofs 0%float in
      cell <- element local_cells ic ;;
      get_local_dof_indices cell ;;
      e <- gets id ;;
      let cell_rhs :=
        integrate_cell_fixed_linear_form e cell cell_rhs sflx_prev g i_dir in
      add_to_vector sys_fixed_rhses set_sys_fixed_rhses k cell_rhs)).

(** *** The bilinear forms (193-404) *)

(** [sys_mats[k]->add (rows, cols, full)] *)
Definition add_to_sys_mat (k : nat) (rows cols : list nat) (full : FullMatrix)
    : Eff EquationBase unit :=
  m <- element sys_mats k ;;
  m <- defined (mat_add rows cols full m) ;;
  assign_element sys_mats set_sys_mats k m.

Definition assemble_volume_boundary_bilinear_form : Eff EquationBase unit :=
  nq <- gets n_q ;;
  nd <- gets n_dir ;;
  dofs <- gets dofs_per_cell ;;
  let streaming_at_qp := replicate nq (replicate nd (full_zero dofs dofs)) in
  let collision_at_qp := replicate nq (full_zero dofs dofs) in
  cell <- element local_cells 0 ;;
  e <- gets id ;;
  let pre := pre_assemble_cell_matrices e cell streaming_at_qp collision_at_qp in
  let streaming_at_qp := fst pre in
  let collision_at_qp := snd pre in
  n <- gets n_total_vars ;;
  for_range n (λ k,
    m <- element sys_mats k ;;
    assign_element sys_mats set_sys_mats k ((λ _, 0%float) <$> m) ;;
    g <- get_component_group k ;;
    i_dir <- get_component_direction k ;;
    print [Str "Assembling Component: "; UInt k; Str ", direction: "; UInt i_dir;
           Str ", group: "; UInt g; Endl] ;;
    nc <- gets (λ e, length (local_cells e)) ;;
    _ <- for_from 0 nc (λ ic local_mat,
      cell <- element local_cells ic ;;
      get_local_dof_indices cell ;;
      let local_mat := full_fill 0 local_mat in
      e <- gets id ;;
      let local_mat :=
        integrate_cell_bilinear_form e cell local_mat streaming_at_qp
          collision_at_qp g i_dir in
      local_mat <- over_boundary_faces ic cell
        (λ e fn local_mat,
           integrate_boundary_bilinear_form e cell fn local_mat g i_dir)
        local_mat ;;
      indices <- gets local_dof_indices ;;
      add_to_sys_mat k indices indices local_mat ;;
      ret local_mat) (full_zero dofs dofs) ;;
    ret tt).

(** The four coupling blocks [vi_ui], [vi_ue], [ve_ui], [ve_ue]. *)
Definition Blocks : Type := FullMatrix * FullMatrix * FullMatrix * FullMatrix.

(** [!cell->at_boundary(fn) && cell->neighbor(fn)->id()<cell->id()] *)
Definition is_target_face (cell fn : nat) : Eff EquationBase bool :=
  bd <- at_boundary cell fn ;;
  if bd then ret false
  else neigh <- neighbor cell fn ;;
       neigh_id <- id_of neigh ;;
       this_id <- id_of cell ;;
       ret (CellId_less neigh_id this_id).

(** The body of the [if] for one target face. *)
Definition assemble_interface_face (k g i_dir cell fn : nat) (blocks : Blocks)
    : Eff EquationBase Blocks :=
  neigh <- neighbor cell fn ;;
  get_neigh_dof_indices neigh ;;
  let '(vi_ui, vi_ue, ve_ui, ve_ue) := blocks in
  e <- gets id ;;
  let blocks :=
    integrate_interface_bilinear_form e cell neigh fn
      (full_fill 0 vi_ui) (full_fill 0 vi_ue) (full_fill 0 ve_ui) (full_fill 0 ve_ue)
      g i_dir in
  let '(vi_ui, vi_ue, ve_ui, ve_ue) := blocks in
  local <- gets local_dof_indices ;;
  neigh_indices <- gets neigh_dof_indices ;;
  add_to_sys_mat k local local vi_ui ;;
  add_to_sys_mat k local neigh_indices vi_ue ;;
  add_to_sys_mat k neigh_indices local ve_ui ;;
  add_to_sys_mat k neigh_indices neigh_indices ve_ue ;;
  ret blocks.

Definition assemble_interface_bilinear_form : Eff EquationBase unit :=
  dofs <- gets dofs_per_cell ;;
  let zero := full_zero dofs dofs in
  n <- gets n_total_vars ;;
  _ <- for_from 0 n (λ k blocks,
    g <- get_component_group k ;;
    i_dir <- get_component_direction k ;;
    nc <- gets (λ e, length (local_cells e)) ;;
    for_from 0 nc (λ ic blocks,
      cell <- element local_cells ic ;;
      get_local_dof_indices cell ;;
      nf <- gets faces_per_cell ;;
      for_from 0 nf (λ fn blocks,
        target <- is_target_face cell fn ;;
        if target
        then assemble_interface_face k g i_dir cell fn blocks
        else ret blocks) blocks) blocks) (zero, zero, zero, zero) ;;
  ret tt.

(** Whether the face [fn] of [cell] is assembled from the side of [cell]:
    it is an interior face and the neighbour's identifier is the lesser. *)
Definition assembled_from (cells : list Cell) (cell fn : nat) : bool :=
  match cells !! cell with
  | Some c =>
      match faces c !! fn with
      | Some (InteriorFace neigh _) =>
          match cells !! neigh with
          | Some n => CellId_less (cell_id n) (cell_id c)
          | None => false
          end
      | _ => false
      end
  | None => false
  end.

(** The faces of [cell] that are assembled from its side, in the order of
    the loop over the faces. *)
Definition target_faces (cells : list Cell) (dim cell : nat) : list nat :=
  filter (λ fn, assembled_from cells cell fn = true) (seq 0 (2 * dim)).

(** The (cell, face) pairs that one process assembles, in the order of its
    loops. *)
Definition interface_faces (e : EquationBase) : list (nat * nat) :=
  cell ← local_cells e;
  (λ fn, (cell, fn)) <$> target_faces (dof_handler e) (dim e) cell.

(** [assemble_interface_bilinear_form] with the faces of each cell given
    as a list: every listed face is assembled, no test is made. *)
Definition assemble_interface_over (targets : nat → list nat)
    : Eff EquationBase unit :=
  dofs <- gets dofs_per_cell ;;
  let zero := full_zero dofs dofs in
  n <- gets n_total_vars ;;
  _ <- for_from 0 n (λ k blocks,
    g <- get_component_group k ;;
    i_dir <- get_component_direction k ;;
    nc <- gets (λ e, length (local_cells e)) ;;
    for_from 0 nc (λ ic blocks,
      cell <- element local_cells ic ;;
      get_local_dof_indices cell ;;
      for_list (targets cell) (λ fn blocks,
        assemble_interface_face k g i_dir cell fn blocks) blocks) blocks)
    (zero, zero, zero, zero) ;;
  ret tt.

(** The cells of the process are cells of the mesh, each with its
    [faces_per_cell] faces, and a neighbour is a cell of the mesh. *)
Definition mesh_well_formed (e : EquationBase) : Prop :=
  ∀ cell, cell ∈ local_cells e →
    ∃ c, dof_handler e !! cell = Some c
      ∧ faces_per_cell e ≤ length (faces c)
      ∧ ∀ fn neigh neigh_fn, faces c !! fn = Some (InteriorFace neigh neigh_fn) →
          is_Some (dof_handler e !! neigh).

Definition assemble_bilinear_form : Eff EquationBase unit :=
  print [Str "Assemble volumetric bilinear forms"; Endl] ;;
  assemble_volume_boundary_bilinear_form ;;
  d <- gets discretization ;;
  (if String.eqb d "dfem"
   then name <- gets equation_name ;;
        AssertThrow (String.eqb name "ep") "DFEM is only implemented for even parity" ;;
        print [Str "Assemble cell interface bilinear forms for DFEM"; Endl] ;;
        assemble_interface_bilinear_form
   else ret tt) ;;
  modify (λ e,
    set_alg_ptr (initialize_preconditioners (sys_mats e) (sys_rhses e)) e).


(** *** What the statements below speak of *)

(** The members that no member function embedded here assigns. *)
Definition setup (e : EquationBase) :=
  (dim e, equation_name e, discretization e, is_eigen_problem e, do_nda e,
   n_group e, n_material e, n_total_vars e, n_dir e, pcout_active e, wi e,
   all_ksi_nusigf_per_ster e, dof_handler e, local_cells e, is_cell_at_bd e,
   dofs_per_cell e, n_q e).

(** The three parts of [assemble_bilinear_form]. *)
Definition volume_part : Eff EquationBase unit :=
  print [Str "Assemble volumetric bilinear forms"; Endl] ;;
  assemble_volume_boundary_bilinear_form.

Definition interface_part : Eff EquationBase unit :=
  print [Str "Assemble cell interface bilinear forms for DFEM"; Endl] ;;
  assemble_interface_bilinear_form.

Definition preconditioner_part : Eff EquationBase unit :=
  modify (λ e,
    set_alg_ptr (initialize_preconditioners (sys_mats e) (sys_rhses e)) e).

(** The fission table has an entry for every pair of groups of every
    fissile material. *)
Definition fission_table_complete (e : EquationBase) : Prop :=
  ∀ m gin g, m < n_material e → material_is_fissile e m = true →
    gin < n_group e → g < n_group e →
    is_Some (table_entry (all_ksi_nusigf_per_ster e) m gin g).

(** The four per-component collections, by their lengths. *)
Definition collection_sizes (e : EquationBase) : nat * nat * nat * nat :=
  (length (sys_mats e), length (sys_aflxes e), length (sys_rhses e),
   length (sys_fixed_rhses e)).

(** The first loop of [initialize_system_matrices_vectors]. *)
Definition create_components (dsp : list (nat * nat)) (local_dofs : nat)
    : Eff EquationBase unit :=
  n <- gets n_total_vars ;;
  for_range n (λ i,
    modify (set_sys_mats (λ v, v ++ [∅])) ;;
    assign_element sys_mats set_sys_mats i (SparseMatrix_reinit dsp) ;;
    modify (set_sys_aflxes (λ v, v ++ [[]])) ;;
    assign_element sys_aflxes set_sys_aflxes i (Vector_reinit local_dofs) ;;
    modify (set_sys_rhses (λ v, v ++ [[]])) ;;
    assign_element sys_rhses set_sys_rhses i (Vector_reinit local_dofs) ;;
    modify (set_sys_fixed_rhses (λ v, v ++ [[]])) ;;
    assign_element sys_fixed_rhses set_sys_fixed_rhses i (Vector_reinit local_dofs)).

(** The contributions are those of the local cells, in their order: the
    indices of each are the degrees of freedom of its cell. *)
Definition of_local_cells (e : EquationBase) (cells : list nat)
    (contributions : list (list nat * Vector)) : Prop :=
  Forall2 (λ cell contribution,
    ∃ c, dof_handler e !! cell = Some c ∧ contribution.1 = dof_indices c)
    cells contributions.

(** What [assemble_linear_form] leaves in [sys_rhses[k]] for a component
    of the group: the fixed right-hand side plus the cell contributions. *)
Definition fixed_plus_contributions (e : EquationBase) (k : nat)
    (rhs : option Vector) : Prop :=
  ∃ fixed contributions v,
    sys_fixed_rhses e !! k = Some fixed
    ∧ of_local_cells e (local_cells e) contributions
    ∧ add_contributions contributions fixed = Some v
    ∧ rhs = Some v.

(** The integrators of the linear forms fill the local vector that they
    are handed by reference; they do not resize it. *)
Definition linear_integrators_keep_size : Prop :=
  (∀ e cell cell_rhs sflxes_proc g i_dir,
     length (integrate_scattering_linear_form e cell cell_rhs sflxes_proc g i_dir)
     = length cell_rhs)
  ∧ ∀ e cell fn cell_rhses g i_dir,
      length (integrate_boundary_linear_form e cell fn cell_rhses g i_dir)
      = length cell_rhses.

(** The object is ready for [assemble_linear_form]: a sweep and a fixed
    right-hand side for every component, a boundary mark for every local
    cell, and for every local cell [dofs_per_cell] degrees of freedom
    that index the right-hand sides. *)
Definition linear_form_ready (e : EquationBase) : Prop :=
  n_total_vars e ≤ length (sys_rhses e)
  ∧ length (local_cells e) ≤ length (is_cell_at_bd e)
  ∧ mesh_well_formed e
  ∧ ∀ k, k < n_total_vars e →
      ∃ fixed, sys_fixed_rhses e !! k = Some fixed
        ∧ ∀ cell c, cell ∈ local_cells e → dof_handler e !! cell = Some c →
            length (dof_indices c) = dofs_per_cell e
            ∧ Forall (λ i, i < length fixed) (dof_indices c).

(** The mesh is conforming: a face shared with a neighbour is a face of
    the neighbour shared with this cell, and the neighbour is another
    cell. *)
Definition conforming (cells : list Cell) (d : nat) : Prop :=
  ∀ a fn b fn' ca,
    cells !! a = Some ca → fn < 2 * d →
    faces ca !! fn = Some (InteriorFace b fn') →
    a ≠ b ∧ fn' < 2 * d
    ∧ ∃ cb, cells !! b = Some cb ∧ faces cb !! fn' = Some (InteriorFace a fn).

(** Cells are told apart by their identifiers, and of two different
    identifiers exactly one is less than the other. *)
Definition identifiers_ordered (cells : list Cell) : Prop :=
  (∀ a b ca cb, cells !! a = Some ca → cells !! b = Some cb →
                cell_id ca = cell_id cb → a = b)
  ∧ ∀ x y : CellId, x ≠ y → CellId_less x y = negb (CellId_less y x).

(** The faces that the processes assemble between them, when each works
    on the cells it owns. *)
Definition all_interface_faces (procs : list EquationBase) : list (nat * nat) :=
  procs ≫= interface_faces.

(** *** The assembled collections as functions of the object

    An integrator is handed the object, so what it contributes is a
    function of the state of the object at the call.  The definitions
    below name that state and fold the contributions over the cells and
    the faces: they say what the assembly functions leave in
    [sys_rhses] and in [sys_mats]. *)

(** The object once [inverse_component_index[k]] has been evaluated:
    [operator[]] has recorded a [k] that was missing as (0, 0). *)
Definition recorded (k : nat) (e : EquationBase) : EquationBase :=
  set_inverse_component_index (λ m, <[k := default (0, 0) (m !! k)]> m) e.

(** The faces [fns] of the cell [c] in their order: [integrate] for
    those at the boundary. *)
Fixpoint integrate_boundary_faces {A} (c : Cell) (integrate : nat → A → A)
    (fns : list nat) (a : A) : option A :=
  match fns with
  | [] => Some a
  | fn :: fns' =>
      f ← faces c !! fn;
      integrate_boundary_faces c integrate fns'
        (match f with
         | BoundaryFace => integrate fn a
         | InteriorFace _ _ => a
         end)
  end.

(** The boundary faces of the [ic]-th local cell, when [is_cell_at_bd]
    marks it. *)
Definition integrate_boundary (e : EquationBase) {A} (ic : nat) (c : Cell)
    (integrate : nat → A → A) (a : A) : option A :=
  at_bd ← is_cell_at_bd e !! ic;
  if at_bd : bool
  then integrate_boundary_faces c integrate (seq 0 (faces_per_cell e)) a
  else Some a.

(** The object as the integrators of the sweep right-hand side find it
    at the cell [c]: [local_dof_indices] holds the degrees of freedom of
    the cell and the sweep right-hand sides are [rhses]. *)
Definition at_cell_of_linear_form (e : EquationBase) (rhses : list Vector)
    (c : Cell) : EquationBase :=
  set_local_dof_indices (λ _, dof_indices c) (set_sys_rhses (λ _, rhses) e).

(** What a cell contributes to the sweep right-hand side: the scattering
    source on a zero local vector, then the boundary faces. *)
Definition linear_form_of_cell (e : EquationBase) (sflxes_proc : list Vector)
    (g i_dir ic cell : nat) (c : Cell) (rhses : list Vector) : option Vector :=
  let s := at_cell_of_linear_form e rhses c in
  integrate_boundary s ic c
    (λ fn cell_rhs, integrate_boundary_linear_form s cell fn cell_rhs g i_dir)
    (integrate_scattering_linear_form s cell
       (replicate (dofs_per_cell e) 0%float) sflxes_proc g i_dir).

(** The sweep right-hand sides once the cells [cells], the first of
    which is the [ic]-th local cell, have been added to that of
    component [k]. *)
Fixpoint add_linear_form_cells (e : EquationBase) (sflxes_proc : list Vector)
    (g i_dir k ic : nat) (cells : list nat) (rhses : list Vector)
    : option (list Vector) :=
  match cells with
  | [] => Some rhses
  | cell :: cells' =>
      c ← dof_handler e !! cell;
      cell_rhs ← linear_form_of_cell e sflxes_proc g i_dir ic cell c rhses;
      v ← rhses !! k;
      v ← vec_add_at (dof_indices c) cell_rhs v;
      add_linear_form_cells e sflxes_proc g i_dir k (S ic) cells'
        (<[k := v]> rhses)
  end.

(** The sweep right-hand sides once component [k] has been assembled:
    its fixed right-hand side, with every local cell added. *)
Definition linear_form_of_component (e : EquationBase)
    (sflxes_proc : list Vector) (g k : nat) (rhses : list Vector)
    : option (list Vector) :=
  fixed ← sys_fixed_rhses e !! k;
  if decide (k < length rhses)
  then add_linear_form_cells e sflxes_proc g (direction_of e k) k 0
         (local_cells e) (<[k := fixed]> rhses)
  else None.

(** The sweep right-hand sides once the components [ks] have been gone
    through: those of the group [g] are assembled. *)
Fixpoint linear_form_of_components (ks : list nat) (e : EquationBase)
    (sflxes_proc : list Vector) (g : nat) (rhses : list Vector)
    : option (list Vector) :=
  match ks with
  | [] => Some rhses
  | k :: ks' =>
      rhses' ← (if decide (group_of e k = g)
                then linear_form_of_component (recorded k e) sflxes_proc g k rhses
                else Some rhses);
      linear_form_of_components ks' (recorded k e) sflxes_proc g rhses'
  end.

(** What [assemble_linear_form (sflxes_proc, g)] leaves in [sys_rhses]. *)
Definition sweep_right_hand_sides (sflxes_proc : list Vector) (g : nat)
    (e : EquationBase) : option (list Vector) :=
  linear_form_of_components (seq 0 (n_total_vars e)) e sflxes_proc g
    (sys_rhses e).

(** The object as the integrator of the interface terms finds it at a
    face between the cells [c] and [n]: their degrees of freedom are in
    [local_dof_indices] and [neigh_dof_indices], and the system matrices
    are [mats]. *)
Definition at_interface_face (e : EquationBase) (mats : list SparseMatrix)
    (c n : Cell) : EquationBase :=
  set_neigh_dof_indices (λ _, dof_indices n)
    (set_local_dof_indices (λ _, dof_indices c) (set_sys_mats (λ _, mats) e)).

(** The four coupling blocks of one face added to a matrix, each once:
    [vi_ui] and [vi_ue] in the rows of the cell, [ve_ui] and [ve_ue] in
    the rows of the neighbour. *)
Definition add_blocks (local neigh : list nat) (blocks : Blocks)
    (m : SparseMatrix) : option SparseMatrix :=
  let '(vi_ui, vi_ue, ve_ui, ve_ue) := blocks in
  m ← mat_add local local vi_ui m;
  m ← mat_add local neigh vi_ue m;
  m ← mat_add neigh local ve_ui m;
  mat_add neigh neigh ve_ue m.

(** The blocks that [integrate_interface_bilinear_form] makes at the
    face [fn] of [cell], from the blocks of the face before set to zero. *)
Definition blocks_of_face (e : EquationBase) (mats : list SparseMatrix)
    (g i_dir cell fn neigh : nat) (c n : Cell) (blocks : Blocks) : Blocks :=
  let '(vi_ui, vi_ue, ve_ui, ve_ue) := blocks in
  integrate_interface_bilinear_form (at_interface_face e mats c n) cell neigh fn
    (full_fill 0 vi_ui) (full_fill 0 vi_ue) (full_fill 0 ve_ui)
    (full_fill 0 ve_ue) g i_dir.

(** The system matrices, and the blocks last made, once the interface
    terms of the faces [targets] have been added to the matrix of
    component [k]: one [add_blocks] for each face of the list. *)
Fixpoint add_interface_faces (e : EquationBase) (g i_dir k : nat)
    (targets : list (nat * nat)) (blocks : Blocks) (mats : list SparseMatrix)
    : option (Blocks * list SparseMatrix) :=
  match targets with
  | [] => Some (blocks, mats)
  | (cell, fn) :: targets' =>
      c ← dof_handler e !! cell;
      f ← faces c !! fn;
      match f with
      | InteriorFace neigh _ =>
          n ← dof_handler e !! neigh;
          let blocks' := blocks_of_face e mats g i_dir cell fn neigh c n blocks in
          m ← mats !! k;
          m ← add_blocks (dof_indices c) (dof_indices n) blocks' m;
          add_interface_faces e g i_dir k targets' blocks' (<[k := m]> mats)
      | BoundaryFace => None
      end
  end.

(** The same for the components [ks], one after the other, each over
    the faces [targets]. *)
Fixpoint interface_terms_of_components (targets : list (nat * nat))
    (ks : list nat) (e : EquationBase) (blocks : Blocks)
    (mats : list SparseMatrix) : option (Blocks * list SparseMatrix) :=
  match ks with
  | [] => Some (blocks, mats)
  | k :: ks' =>
      r ← add_interface_faces (recorded k e) (group_of e k) (direction_of e k) k
            targets blocks mats;
      interface_terms_of_components targets ks' (recorded k e) r.1 r.2
  end.

(** What [assemble_interface_bilinear_form] leaves in [sys_mats]: for
    every component, the blocks of the faces that the process assembles,
    [interface_faces], each face once. *)
Definition interface_terms (e : EquationBase) : option (list SparseMatrix) :=
  let zero := full_zero (dofs_per_cell e) (dofs_per_cell e) in
  snd <$> interface_terms_of_components (interface_faces e)
            (seq 0 (n_total_vars e)) e (zero, zero, zero, zero) (sys_mats e).

End Members.

(** ** The power iteration (power_iteration.cc)

    [PowerIteration<dim>] derives from [EigenBase<dim>] and drives an
    [MGBase<dim>] and an [IGBase<dim>], which power_iteration.cc only
    uses.  Their data members are the abstract types below, and
    each member function that [eigen_iterations] calls is a computation
    over everything that the call can reach: the object, and the
    arguments handed over by reference or by pointer. *)

Record Iteration `{Collaborators} {EigenBase MGBase IGBase : Type} : Type := {
  this : EigenBase;
  sflxes_proc : list Vector;
  equ_ptrs : list EquationBase;
  ig_ptr : IGBase;
  mg_ptr : MGBase;
}.
Arguments Iteration {_} EigenBase MGBase IGBase.

Class Drivers `{Collaborators} : Type := {
  EigenBase : Type;
  MGBase : Type;
  IGBase : Type;
  (** the data members [err_k_tol], [err_phi_tol], [keff] and [pcout] of
      [EigenBase<dim>] *)
  err_k_tol : EigenBase → float;
  err_phi_tol : EigenBase → float;
  keff : EigenBase → float;
  EigenBase_print : list Token → EigenBase → EigenBase;
  (** [this->update_prev_sflxes_fiss_src_keff (sflxes_proc)] *)
  update_prev_sflxes_fiss_src_keff : Eff (Iteration EigenBase MGBase IGBase) unit;
  (** [mg_ptr->mg_iterations (sflxes_proc, equ_ptrs, ig_ptr)] *)
  mg_iterations : Eff (Iteration EigenBase MGBase IGBase) unit;
  (** [this->calculate_fiss_src_keff (sflxes_proc, equ_ptrs.front())] *)
  calculate_fiss_src_keff : Eff (Iteration EigenBase MGBase IGBase) unit;
  (** [this->estimate_phi_diff (sflxes_proc, this->sflxes_proc_prev_eigen)] *)
  estimate_phi_diff : Eff (Iteration EigenBase MGBase IGBase) float;
  (** [this->estimate_k_diff ()] *)
  estimate_k_diff : Eff (Iteration EigenBase MGBase IGBase) float;
}.

Section PowerIteration.
Context `{Collaborators} `{!Integrators} `{!Drivers}.

Abbreviation Iter := (Iteration EigenBase MGBase IGBase).

Definition set_equ_ptrs (f : list EquationBase → list EquationBase) (it : Iter)
    : Iter :=
  Build_Iteration _ _ _ _ (this it) (sflxes_proc it) (f (equ_ptrs it))
    (ig_ptr it) (mg_ptr it).

Definition set_this (f : EigenBase → EigenBase) (it : Iter) : Iter :=
  Build_Iteration _ _ _ _ (f (this it)) (sflxes_proc it) (equ_ptrs it)
    (ig_ptr it) (mg_ptr it).

(** [equ_ptrs.back()->member (...)]: the member function runs on the last
    equation object, which keeps what the call did to it, also when the
    call throws. *)
Definition on_back {A} (member : Eff EquationBase A) : Eff Iter A :=
  λ it,
    match last (equ_ptrs it) with
    | None => Undefined
    | Some e =>
        let back := length (equ_ptrs it) - 1 in
        match member e with
        | Done a e' => Done a (set_equ_ptrs (λ v, <[back := e']> v) it)
        | Thrown msg e' => Thrown msg (set_equ_ptrs (λ v, <[back := e']> v) it)
        | Undefined => Undefined
        end
    end.

(** The local variables of [eigen_iterations]. *)
Record Locals : Type := {
  err_k : float;
  err_phi : float;
  iter : Z;
}.

(** [iter++] on an [int], on a target where it wraps. *)
Definition increment_int (z : Z) : Z := (z + 1 + 2 ^ 31) mod 2 ^ 32 - 2 ^ 31.

(** The condition of the [while]:
    [err_k>this->err_k_tol || err_phi>this->err_phi_tol] *)
Definition loop_continues (tol_k tol_phi : float) (l : Locals) : bool :=
  (tol_k <? err_k l)%float || (tol_phi <? err_phi l)%float.

(** One pass through the body of the [while]. *)
Definition eigen_iteration (l : Locals) : Eff Iter Locals :=
  update_prev_sflxes_fiss_src_keff ;;
  k <- gets (λ it, keff (this it)) ;;
  on_back (scale_fiss_transfer_matrices k) ;;
  sflxes <- gets sflxes_proc ;;
  on_back (assemble_fixed_linear_form sflxes) ;;
  mg_iterations ;;
  calculate_fiss_src_keff ;;
  new_err_phi <- estimate_phi_diff ;;
  new_err_k <- estimate_k_diff ;;
  modify (set_this (EigenBase_print
    [Endl; Endl; Str "PI iter: "; SInt (iter l); Str ", err_k: "; Dbl new_err_k;
     Str ", err_phi: "; Dbl new_err_phi; Endl; Endl])) ;;
  ret {| err_k := new_err_k; err_phi := new_err_phi;
         iter := increment_int (iter l) |}.

(** The [while] loop, run for at most [fuel] passes: [Some l] when the
    loop has been left with the locals [l], [None] when it is still
    running after [fuel] passes. *)
Fixpoint eigen_loop (fuel : nat) (l : Locals) : Eff Iter (option Locals) :=
  tol_k <- gets (λ it, err_k_tol (this it)) ;;
  tol_phi <- gets (λ it, err_phi_tol (this it)) ;;
  if loop_continues tol_k tol_phi l
  then match fuel with
       | O => ret None
       | S fuel' => l' <- eigen_iteration l ;; eigen_loop fuel' l'
       end
  else ret (Some l).

Definition eigen_iterations (fuel : nat) : Eff Iter (option Locals) :=
  eigen_loop fuel {| err_k := 1; err_phi := 1; iter := 0 |}.

(** The exit test in the words of the spec: "check err_k <= tol_k AND
    err_phi <= tol_phi". *)
Definition within_tolerances (tol_k tol_phi : float) (l : Locals) : bool :=
  (err_k l <=? tol_k)%float && (err_phi l <=? tol_phi)%float.

End PowerIteration.

(** ** More of equation_base.cc *)

(** [PreconditionerSolver::linear_algebra_solve (sys_mats, sys_aflxes,
    sys_rhses, i)]: the solver is handed the three collections and may
    write to all of them, and to itself.  Its code is not part of the
    repository: a call may return, throw or be undefined, and leaves the
    collections and the solver in some state. *)
Class LinearAlgebra `{Collaborators} : Type := {
  linear_algebra_solve :
    list SparseMatrix → list Vector → list Vector → nat → PreconditionerSolver →
    Outcome
      (list SparseMatrix * list Vector * list Vector * PreconditionerSolver) unit;
}.

(** What [estimate_fiss_src] takes from [FEValues<dim>] and from MPI:
    [fv->get_function_values (phi, values)] after [fv->reinit (cell)]
    fills [values] with the values of [phi] at the quadrature points of
    the cell, [fv->JxW (qi)] is the weight of a quadrature point, and
    [Utilities::MPI::sum (x, MPI_COMM_WORLD)] adds what the other
    processes hold. *)
Class FissionSource `{Collaborators} : Type := {
  get_function_values : EquationBase → nat → Vector → list float;
  JxW : EquationBase → nat → nat → float;
  MPI_sum : float → float;
}.

Section MoreMembers.
Context `{Collaborators} `{!Integrators}.

(** [estimate_fiss_src] (637-664).  [all_nusigf] is the member that
    [process_input] takes from [mat_ptr->get_nusigf ()]; no other member
    function embedded here reads it, and it is handed over. *)
Definition estimate_fiss_src `{!FissionSource} (all_nusigf : list (list float))
    (phis_this_process : list Vector) : Eff EquationBase float :=
  nc <- gets (λ e, length (local_cells e)) ;;
  fiss_src <- for_from 0 nc (λ ic fiss_src,
    cell <- element local_cells ic ;;
    ng <- gets n_group ;;
    nq <- gets n_q ;;
    let local_phis := replicate ng (replicate nq 0%float) in
    c <- dereference cell ;;
    let material_id := material_id c in
    fissile <- is_fissile material_id ;;
    if fissile
    then local_phis <- for_from 0 ng (λ g local_phis,
           phi <- defined (phis_this_process !! g) ;;
           _ <- defined (local_phis !! g) ;;
           e <- gets id ;;
           ret (<[g := get_function_values e cell phi]> local_phis)) local_phis ;;
         for_from 0 nq (λ qi fiss_src,
           for_from 0 ng (λ g fiss_src,
             nusigf <- defined (matrix_entry all_nusigf material_id g) ;;
             phi <- defined (matrix_entry local_phis g qi) ;;
             e <- gets id ;;
             ret (fiss_src + nusigf * phi * JxW e cell qi)%float) fiss_src) fiss_src
    else ret fiss_src) 0%float ;;
  ret (MPI_sum fiss_src).

(** [assemble_closure_bilinear_form] (211-225); the body of the [if] is
    the assertion alone, and [ho_equ_ptr] is not used. *)
Definition assemble_closure_bilinear_form (ho_equ_ptr : EquationBase)
    (do_assembly : bool) : Eff EquationBase unit :=
  if do_assembly
  then name <- gets equation_name ;;
       AssertThrow (String.eqb name "nda") "only instance for NDA calls this function"
  else ret tt.

(** What the solver works on: the three collections and itself. *)
Definition linear_system (e : EquationBase)
    : list SparseMatrix * list Vector * list Vector * PreconditionerSolver :=
  (sys_mats e, sys_aflxes e, sys_rhses e, alg_ptr e).

(** The object once the solver has left [system] behind. *)
Definition set_linear_system
    (system : list SparseMatrix * list Vector * list Vector * PreconditionerSolver)
    (e : EquationBase) : EquationBase :=
  let '(mats, aflxes, rhses, alg) := system in
  set_alg_ptr (λ _, alg)
    (set_sys_rhses (λ _, rhses)
      (set_sys_aflxes (λ _, aflxes) (set_sys_mats (λ _, mats) e))).

(** One call of the solver, for component [i], on a linear system. *)
Definition solve `{!LinearAlgebra} (i : nat)
    : Eff (list SparseMatrix * list Vector * list Vector * PreconditionerSolver)
        unit :=
  λ '(mats, aflxes, rhses, alg), linear_algebra_solve mats aflxes rhses i alg.

(** A computation on the linear system of the object: what it leaves of
    the collections and of the solver is what the object holds then. *)
Definition on_linear_system {A}
    (c : Eff (list SparseMatrix * list Vector * list Vector
              * PreconditionerSolver) A)
    : Eff EquationBase A :=
  λ e, match c (linear_system e) with
       | Done a system => Done a (set_linear_system system e)
       | Thrown msg system => Thrown msg (set_linear_system system e)
       | Undefined => Undefined
       end.

(** [solve_in_group] (624-635) *)
Definition solve_in_group `{!LinearAlgebra} (g : nat) : Eff EquationBase unit :=
  n <- gets n_total_vars ;;
  for_range n (λ i,
    gi <- get_component_group i ;;
    if decide (gi = g)
    then on_linear_system (solve i)
    else ret tt).

(** The components of the group [g], in increasing order. *)
Definition components_of_group (e : EquationBase) (g : nat) : list nat :=
  filter (λ i, group_of e i = g) (seq 0 (n_total_vars e)).

(** *** Statements about the fixed linear form *)

(** The integrator of the fixed source fills the local vector that it is
    handed by reference; it does not resize it. *)
Definition fixed_integrator_keeps_size : Prop :=
  ∀ e cell cell_rhs sflx_prev g i_dir,
    length (integrate_cell_fixed_linear_form e cell cell_rhs sflx_prev g i_dir)
    = length cell_rhs.

(** The object is ready for [assemble_fixed_linear_form]: the local cells
    are cells of the mesh, there is a fixed right-hand side for every
    component, and every local cell has [dofs_per_cell] degrees of
    freedom that index it. *)
Definition fixed_form_ready (e : EquationBase) : Prop :=
  (∀ cell, cell ∈ local_cells e → is_Some (dof_handler e !! cell))
  ∧ ∀ k, k < n_total_vars e →
      ∃ fixed, sys_fixed_rhses e !! k = Some fixed
        ∧ ∀ cell c, cell ∈ local_cells e → dof_handler e !! cell = Some c →
            length (dof_indices c) = dofs_per_cell e
            ∧ Forall (λ i, i < length fixed) (dof_indices c).

(** The contributions to the fixed right-hand side of component [k], one
    per local cell and in their order: at the degrees of freedom of the
    cell, what the integrator makes of the zero vector.  The integrator
    sees the object with the members of [setup] as they were. *)
Definition fixed_contributions (e : EquationBase) (sflx_prev : list Vector)
    (k : nat) (contributions : list (list nat * Vector)) : Prop :=
  Forall2 (λ cell contribution,
    ∃ c s, dof_handler e !! cell = Some c ∧ setup s = setup e
      ∧ contribution
        = (dof_indices c,
           integrate_cell_fixed_linear_form s cell
             (replicate (dofs_per_cell e) 0%float) sflx_prev
             (group_of e k) (direction_of e k)))
    (local_cells e) contributions.

(** The object as [integrate_cell_fixed_linear_form] finds it at the
    cell [c]: [local_dof_indices] holds the degrees of freedom of the
    cell and the fixed right-hand sides are [rhses]. *)
Definition at_cell_of_fixed_form (e : EquationBase) (rhses : list Vector)
    (c : Cell) : EquationBase :=
  set_local_dof_indices (λ _, dof_indices c)
    (set_sys_fixed_rhses (λ _, rhses) e).

(** The fixed right-hand sides once the cells [cells] have been added
    to that of component [k]: for each cell, what the integrator makes
    of the zero local vector, at the degrees of freedom of the cell. *)
Fixpoint add_fixed_form_cells (e : EquationBase) (sflx_prev : list Vector)
    (g i_dir k : nat) (cells : list nat) (rhses : list Vector)
    : option (list Vector) :=
  match cells with
  | [] => Some rhses
  | cell :: cells' =>
      c ← dof_handler e !! cell;
      v ← rhses !! k;
      v ← vec_add_at (dof_indices c)
            (integrate_cell_fixed_linear_form (at_cell_of_fixed_form e rhses c)
               cell (replicate (dofs_per_cell e) 0%float) sflx_prev g i_dir) v;
      add_fixed_form_cells e sflx_prev g i_dir k cells' (<[k := v]> rhses)
  end.

(** The fixed right-hand sides once the components [ks] have been
    assembled, one after the other: each is set to zero and has every
    local cell added. *)
Fixpoint fixed_form_of_components (ks : list nat) (e : EquationBase)
    (sflx_prev : list Vector) (rhses : list Vector) : option (list Vector) :=
  match ks with
  | [] => Some rhses
  | k :: ks' =>
      old ← rhses !! k;
      rhses' ← add_fixed_form_cells (recorded k e) sflx_prev (group_of e k)
                 (direction_of e k) k (local_cells e)
                 (<[k := vec_fill 0 old]> rhses);
      fixed_form_of_components ks' (recorded k e) sflx_prev rhses'
  end.

(** What [assemble_fixed_linear_form (sflx_prev)] leaves in
    [sys_fixed_rhses]. *)
Definition fixed_right_hand_sides (sflx_prev : list Vector) (e : EquationBase)
    : option (list Vector) :=
  fixed_form_of_components (seq 0 (n_total_vars e)) e sflx_prev
    (sys_fixed_rhses e).

(** *** What the assembly writes to [pcout] *)

(** The line written for component [k]. *)
Definition component_line (e : EquationBase) (k : nat) : list Token :=
  [Str "Assembling Component: "; UInt k; Str ", direction: ";
   UInt (direction_of e k); Str ", group: "; UInt (group_of e k); Endl].

(** Everything that [assemble_bilinear_form] writes when it returns. *)
Definition assembly_log (e : EquationBase) : list Token :=
  if pcout_active e
  then [Str "Assemble volumetric bilinear forms"; Endl]
       ++ (seq 0 (n_total_vars e) ≫= component_line e)
       ++ (if String.eqb (discretization e) "dfem"
           then [Str "Assemble cell interface bilinear forms for DFEM"; Endl]
           else [])
  else [].

(** The zeroth moment at entry [j] as [generate_moments ()] computes
    it: the first direction sets the entry, the other directions are
    added to it in their order. *)
Definition first_then_sum_at (weights : list float) (fluxes : list Vector)
    (j : nat) : float :=
  match zip weights fluxes with
  | [] => 0%float
  | (w, aflx) :: others =>
      fold_left (λ acc wa, acc + wa.1 * default 0 (wa.2 !! j))%float others
        (w * default 0 (aflx !! j))%float
  end.

(** A matrix of [n] rows of [n] entries. *)
Definition square (n : nat) (matrix : list (list float)) : Prop :=
  length matrix = n ∧ Forall (λ row, length row = n) matrix.

(** *** What [initialize_system_matrices_vectors] leaves in a collection *)

(** A collection after [n] passes of the first loop: each pass pushes a
    new element, [fresh], to the back and re-initialises the element at
    the index of the pass to [reinit]. *)
Definition created {A} (n : nat) (fresh reinit : A) (v : list A) : list A :=
  replicate n reinit ++ drop n (v ++ replicate n fresh).

(** The all-groups moment generation, group by group: the body of its
    loop is the one-group overload on the entries of the group. *)
Definition generate_moments_by_group (sflxes_proc sflxes_proc_old : list Vector)
    : Eff EquationBase (list Vector * list Vector) :=
  name <- gets equation_name ;;
  nda <- gets do_nda ;;
  AssertThrow (negb (String.eqb name "nda") && nda)
    "only non-NDA is supposed to call this function" ;;
  ng <- gets n_group ;;
  for_from 0 ng (λ g '(sflxes_proc, sflxes_proc_old),
    sflx <- defined (sflxes_proc !! g) ;;
    old <- defined (sflxes_proc_old !! g) ;;
    r <- generate_moments_group sflx old g ;;
    ret (<[g := r.1]> sflxes_proc, <[g := r.2]> sflxes_proc_old))
    (sflxes_proc, sflxes_proc_old).

End MoreMembers.

(** *** The reflective boundaries (56-57, 74-75, 694-702)

    The two members of [EquationBase<dim>] that
    [get_reflective_direction_index] reads, and what [process_input]
    puts into them. *)
Record ReflectiveBC : Type := {
  is_reflective_bc : gmap nat bool;
  reflective_direction_index : gmap (nat * nat) nat;
}.

(** [if (have_reflective_bc) is_reflective_bc = msh_ptr->get_reflective_bc_map ();]
    and
    [if (have_reflective_bc) reflective_direction_index = aqd_ptr->get_reflective_direction_index_map ();]
    on the default-constructed, empty, members. *)
Definition process_input_reflective (have_reflective_bc : bool)
    (get_reflective_bc_map : gmap nat bool)
    (get_reflective_direction_index_map : gmap (nat * nat) nat) : ReflectiveBC :=
  {| is_reflective_bc :=
       if have_reflective_bc then get_reflective_bc_map else ∅;
     reflective_direction_index :=
       if have_reflective_bc then get_reflective_direction_index_map else ∅ |}.

Definition get_reflective_direction_index (boundary_id incident_angle_index : nat)
    : Eff ReflectiveBC nat :=
  λ r,
    let reflective := map_subscript false (is_reflective_bc r) boundary_id in
    let r := {| is_reflective_bc := snd reflective;
                reflective_direction_index := reflective_direction_index r |} in
    (AssertThrow (fst reflective)
       "must be reflective boundary to retrieve the reflective boundary" ;;
     λ r, let index := map_subscript 0 (reflective_direction_index r)
                         (boundary_id, incident_angle_index) in
          Done (fst index)
               {| is_reflective_bc := is_reflective_bc r;
                  reflective_direction_index := snd index |}) r.

(** ** The test helper (bart_test_helper.cc)

    The C library is taken through the calls made to it: [returns] is
    what a call returns, [calls] the calls made so far. *)

Inductive LibraryCall : Type :=
  | Remove (filename : string)
  | Rename (old new : string)
  | Mkdir (path : string) (mode : Z).

(** [S_IRWXU | S_IRWXG | S_IROTH | S_IXOTH] *)
Definition report_directory_mode : Z :=
  Z.lor (Z.lor (Z.lor 448 56) 4) 1.

Record BartTestHelper : Type := {
  report_ : bool;
  gold_files_directory_ : string;
  report_directory_ : string;
}.

(** A test process: the helper, the library, and the local time as
    [std::put_time (&tm, "%Y%m%d_%H%M")] writes it. *)
Record TestProcess : Type := {
  helper : BartTestHelper;
  returns : LibraryCall → Z;
  calls : list LibraryCall;
  local_time : string;
}.

Definition library (call : LibraryCall) : Eff TestProcess Z :=
  λ p, Done (returns p call)
            {| helper := helper p; returns := returns p;
               calls := calls p ++ [call]; local_time := local_time p |}.

Definition set_helper (f : BartTestHelper → BartTestHelper) (p : TestProcess)
    : TestProcess :=
  {| helper := f (helper p); returns := returns p; calls := calls p;
     local_time := local_time p |}.

(** [throw std::runtime_error (msg)] *)
Definition throw_runtime_error {A} (msg : string) : Eff TestProcess A :=
  λ p, Thrown msg p.

(** [BartTestHelper::MakeReportDirectory] *)
Definition MakeReportDirectory : Eff TestProcess unit :=
  time <- gets local_time ;;
  modify (set_helper (λ h,
    {| report_ := report_ h; gold_files_directory_ := gold_files_directory_ h;
       report_directory_ := gold_files_directory_ h +:+ time +:+ "_fail" |})) ;;
  dir <- gets (λ p, report_directory_ (helper p)) ;;
  dir_err <- library (Mkdir dir report_directory_mode) ;;
  if decide (-1 = dir_err)%Z
  then throw_runtime_error ("Failed to create report directory " +:+ dir)
  else ret tt.

(** The constructor. *)
Definition BartTestHelper_new (report : bool) (gold_files_directory : string)
    : Eff TestProcess unit :=
  modify (set_helper (λ _,
    {| report_ := report; gold_files_directory_ := gold_files_directory;
       report_directory_ := EmptyString |})) ;;
  if report then MakeReportDirectory else ret tt.

(** [BartTestHelper::CleanupGold] *)
Definition CleanupGold (filename : string) (result actual_good : bool)
    : Eff TestProcess unit :=
  report <- gets (λ p, report_ (helper p)) ;;
  if actual_good && (result || negb report)
  then remove_err <- library (Remove filename) ;;
       if decide (remove_err ≠ 0%Z)
       then throw_runtime_error ("Failed to delete actual test file: " +:+ filename)
       else ret tt
  else dir <- gets (λ p, report_directory_ (helper p)) ;;
       rename_err <- library (Rename filename (dir +:+ "/" +:+ filename)) ;;
       if decide (rename_err ≠ 0%Z)
       then throw_runtime_error
              ("Failed to move actual test file: " +:+ filename +:+ " to "
               +:+ dir +:+ filename)
       else ret tt.

(** [BartTestHelper::GoldTest]: [RunGoldTest] and [ActualGood] are what
    the [GoldStreamEvaluator] of the two files answers.  The function is
    declared to return [bool] and has no [return] statement: when
    [CleanupGold] returns, control flows off its end. *)
Definition GoldTest (filename : string) (RunGoldTest ActualGood : bool)
    : Eff TestProcess bool :=
  let result := RunGoldTest in
  CleanupGold filename result ActualGood ;;
  undefined.

(** The call that [CleanupGold] makes. *)
Definition cleanup_call (h : BartTestHelper) (filename : string)
    (result actual_good : bool) : LibraryCall :=
  if actual_good && (result || negb (report_ h))
  then Remove filename
  else Rename filename (report_directory_ h +:+ "/" +:+ filename).

(** What the exception says when that call fails. *)
Definition cleanup_diagnostic (h : BartTestHelper) (filename : string)
    (result actual_good : bool) : string :=
  if actual_good && (result || negb (report_ h))
  then "Failed to delete actual test file: " +:+ filename
  else "Failed to move actual test file: " +:+ filename +:+ " to "
       +:+ report_directory_ h +:+ filename.

(** ** A worked instance

    A slab of three cells with two degrees of freedom each, two
    directions, two groups and two materials of which the first is
    fissile; cell identifiers are numbers, the solver counts the matrices
    it was initialised with, and the integrators add constants. *)

Module Example.

Definition collaborators : Collaborators := {|
  CellId := nat;
  CellId_less := Nat.ltb;
  PreconditionerSolver := nat;
  PreconditionerSolver_new := λ _ _ _, 0;
  initialize_preconditioners := λ mats _ _, length mats;
|}.
#[local] Existing Instance collaborators.

Definition add_to_entries (x : float) (v : Vector) : Vector :=
  (λ y, y + x)%float <$> v.

Definition add_to_blocks (x : float) (m : FullMatrix) : FullMatrix :=
  add_to_entries x <$> m.

Definition integrators : Integrators := {|
  pre_assemble_cell_matrices := λ _ _ streaming_at_qp collision_at_qp,
    (streaming_at_qp, collision_at_qp);
  integrate_cell_bilinear_form := λ _ _ cell_matrix _ _ _ _,
    add_to_blocks 2 cell_matrix;
  integrate_boundary_bilinear_form := λ _ _ _ cell_matrix _ _,
    add_to_blocks 0.5 cell_matrix;
  integrate_boundary_linear_form := λ _ _ _ cell_rhses _ _,
    add_to_entries 0.25 cell_rhses;
  integrate_interface_bilinear_form := λ _ _ _ _ vi_ui vi_ue ve_ui ve_ue _ _,
    (add_to_blocks 1 vi_ui, add_to_blocks (-1) vi_ue,
     add_to_blocks (-1) ve_ui, add_to_blocks 1 ve_ue);
  integrate_scattering_linear_form := λ _ _ cell_rhs sflx_proc g _,
    add_to_entries (default 0%float (sflx_proc !! g ≫= head)) cell_rhs;
  integrate_cell_fixed_linear_form := λ _ _ cell_rhs _ _ _,
    add_to_entries 1 cell_rhs;
|}.
#[local] Existing Instance integrators.

Definition prm : ParameterHandler := {|
  prm_get := λ entry,
    if String.eqb entry "spatial discretization" then "dfem" else "";
  prm_get_bool := λ entry, String.eqb entry "do eigenvalue calculations";
  prm_get_integer := λ entry,
    if String.eqb entry "finite element polynomial degree" then 1%Z else 2%Z;
|}.

Definition weights : list float := [0.5; 1.5]%float.

Definition materials : MaterialProperties := {|
  get_fissile_id_map := {[ 0 := true ]};
  get_ksi_nusigf_per_ster := [[[1; 2]; [3; 4]]; [[0; 0]; [0; 0]]]%float;
|}.

Definition slab : list Cell := [
  {| cell_id := 0; material_id := 0;
     faces := [BoundaryFace; InteriorFace 1 0]; dof_indices := [0; 1] |};
  {| cell_id := 1; material_id := 1;
     faces := [InteriorFace 0 1; InteriorFace 2 0]; dof_indices := [2; 3] |};
  {| cell_id := 2; material_id := 0;
     faces := [InteriorFace 1 1; BoundaryFace]; dof_indices := [4; 5] |} ].

(** The object as the constructor leaves it. *)
Definition fresh : EquationBase :=
  EquationBase_new 1 "ep" prm (make_aq 2 2 weights) materials 0 slab.

(** The object after the [initialize_...] functions, on a process that
    owns the cells [cells]; the angular fluxes are uniformly [flux] and
    the fixed right-hand sides uniformly [source]. *)
Definition initialized (cells : list nat) (at_bd : list bool) (flux source : float)
    : EquationBase := {|
  dim := 1;
  equation_name := "ep";
  discretization := "dfem";
  is_eigen_problem := true;
  do_nda := false;
  have_reflective_bc := false;
  n_group := 2;
  n_material := 2;
  p_order := 1;
  n_total_vars := 4;
  n_dir := 2;
  pcout_active := true;
  pcout := [];
  component_index := get_component_index_map (make_aq 2 2 weights);
  inverse_component_index := get_inv_component_map (make_aq 2 2 weights);
  wi := weights;
  is_material_fissile := get_fissile_id_map materials;
  all_ksi_nusigf_per_ster := get_ksi_nusigf_per_ster materials;
  scaled_fiss_transfer_per_ster := [];
  dof_handler := slab;
  local_cells := cells;
  is_cell_at_bd := at_bd;
  dofs_per_cell := 2;
  n_q := 2;
  local_dof_indices := [0; 0];
  neigh_dof_indices := [0; 0];
  alg_ptr := 0;
  sys_mats := replicate 4 ∅;
  sys_aflxes := replicate 4 (replicate 6 flux);
  sys_rhses := replicate 4 (replicate 6 0%float);
  sys_fixed_rhses := replicate 4 (replicate 6 source);
  aflxes_proc := replicate 4 [];
  ho_sflxes_proc := replicate 2 [];
|}.

(** One process that owns the whole slab. *)
Definition equation : EquationBase :=
  initialized [0; 1; 2] [true; false; true] 1 3.

(** Two processes that share the slab. *)
Definition processes : list EquationBase :=
  [initialized [0; 1] [true; false] 1 3; initialized [2] [true] 1 3].

(** Drivers of the power iteration: the eigenvalue estimate is the
    fission source, which is [production] times the previous estimate;
    the flux error is always zero and the eigenvalue error is the
    relative change of the estimate. *)
Record Eigen : Type := {
  tol_k : float;
  tol_phi : float;
  k_eff : float;
  k_eff_prev : float;
  production : float;
  out : list Token;
}.

Definition on_eigen {MG IG} (f : Eigen → Eigen) (it : Iteration Eigen MG IG)
    : Iteration Eigen MG IG :=
  Build_Iteration _ _ _ _ (f (this it)) (sflxes_proc it) (equ_ptrs it)
    (ig_ptr it) (mg_ptr it).

Definition drivers : Drivers := {|
  EigenBase := Eigen;
  MGBase := unit;
  IGBase := unit;
  err_k_tol := tol_k;
  err_phi_tol := tol_phi;
  keff := k_eff;
  EigenBase_print := λ tokens eigen,
    {| tol_k := tol_k eigen; tol_phi := tol_phi eigen; k_eff := k_eff eigen;
       k_eff_prev := k_eff_prev eigen; production := production eigen;
       out := out eigen ++ tokens |};
  update_prev_sflxes_fiss_src_keff := modify (on_eigen (λ eigen,
    {| tol_k := tol_k eigen; tol_phi := tol_phi eigen; k_eff := k_eff eigen;
       k_eff_prev := k_eff eigen; production := production eigen;
       out := out eigen |}));
  mg_iterations := ret tt;
  calculate_fiss_src_keff := modify (on_eigen (λ eigen,
    {| tol_k := tol_k eigen; tol_phi := tol_phi eigen;
       k_eff := (production eigen * k_eff eigen)%float;
       k_eff_prev := k_eff_prev eigen; production := production eigen;
       out := out eigen |}));
  estimate_phi_diff := ret 0%float;
  estimate_k_diff := gets (λ it,
    (abs (k_eff (this it) - k_eff_prev (this it)) / abs (k_eff (this it)))%float);
|}.
#[local] Existing Instance drivers.

(** The state of the loop when the estimate is [k], the previous one
    [k_prev], the equation object [e] and the output so far [written]. *)
Definition at_pass (production k k_prev : float) (e : EquationBase)
    (written : list Token) : Iteration Eigen unit unit := {|
  this := {| tol_k := 0.0009765625; tol_phi := 0.0009765625; k_eff := k;
             k_eff_prev := k_prev; production := production; out := written |};
  sflxes_proc := replicate 2 (replicate 6 1%float);
  equ_ptrs := [e];
  ig_ptr := tt;
  mg_ptr := tt;
|}.

(** A problem whose fission source is [production] times the previous
    eigenvalue estimate, before the first pass. *)
Definition iteration (production : float) : Iteration Eigen unit unit :=
  at_pass production 1 1 equation [].

(** The equation object after a pass that scaled by [k]. *)
Definition equation_after (k : float) : EquationBase :=
  match (scale_fiss_transfer_matrices k ;;
         assemble_fixed_linear_form (replicate 2 (replicate 6 1%float))) equation with
  | Done _ e => e
  | _ => equation
  end.

(** What one pass writes. *)
Definition written_by (l : Locals) (new_err_k : float) : list Token :=
  [Endl; Endl; Str "PI iter: "; SInt (iter l); Str ", err_k: "; Dbl new_err_k;
   Str ", err_phi: "; Dbl 0; Endl; Endl].

(** With [production = -1] the estimate flips between 1 and -1: the
    states at the head of the loop. *)
Inductive Flipping : Locals → Iteration Eigen unit unit → Prop :=
  | flipping_start l written :
      err_k l = 1%float →
      Flipping l (at_pass (-1) 1 1 equation written)
  | flipping_down l written :
      err_k l = 2%float →
      Flipping l (at_pass (-1) (-1) 1 (equation_after 1) written)
  | flipping_up l written :
      err_k l = 2%float →
      Flipping l (at_pass (-1) 1 (-1) (equation_after (-1)) written).

(** *** Further objects of the worked instance *)

(** The input of a fixed-source problem: every switch is off. *)
Definition fixed_source_prm : ParameterHandler := {|
  prm_get := prm_get prm;
  prm_get_bool := λ _, false;
  prm_get_integer := prm_get_integer prm;
|}.

Definition fixed_source_equation : EquationBase :=
  EquationBase_new 1 "ep" fixed_source_prm (make_aq 2 2 weights) materials 0 slab.

(** The power iteration started on the fixed-source problem. *)
Definition fixed_source_iteration : Iteration Eigen unit unit :=
  at_pass 1 1 1 fixed_source_equation [].

(** A quadrature without directions: no component, for two groups. *)
Definition starved : EquationBase :=
  EquationBase_new 1 "ep" prm (make_aq 0 2 []) materials 0 slab.

(** The high-order equation of an NDA calculation, with its scalar
    fluxes sized. *)
Definition ho_equation : EquationBase := {|
  dim := 1;
  equation_name := "ep";
  discretization := "dfem";
  is_eigen_problem := true;
  do_nda := true;
  have_reflective_bc := false;
  n_group := 2;
  n_material := 2;
  p_order := 1;
  n_total_vars := 4;
  n_dir := 2;
  pcout_active := true;
  pcout := [];
  component_index := get_component_index_map (make_aq 2 2 weights);
  inverse_component_index := get_inv_component_map (make_aq 2 2 weights);
  wi := weights;
  is_material_fissile := get_fissile_id_map materials;
  all_ksi_nusigf_per_ster := get_ksi_nusigf_per_ster materials;
  scaled_fiss_transfer_per_ster := [];
  dof_handler := slab;
  local_cells := [0; 1; 2];
  is_cell_at_bd := [true; false; true];
  dofs_per_cell := 2;
  n_q := 2;
  local_dof_indices := [0; 0];
  neigh_dof_indices := [0; 0];
  alg_ptr := 0;
  sys_mats := replicate 4 ∅;
  sys_aflxes := replicate 4 (replicate 6 1%float);
  sys_rhses := replicate 4 (replicate 6 0%float);
  sys_fixed_rhses := replicate 4 (replicate 6 3%float);
  aflxes_proc := replicate 4 [];
  ho_sflxes_proc := replicate 2 (replicate 6 0%float);
|}.

(** A process that owns the cell of the material that is not fissile. *)
Definition reflector : EquationBase := initialized [1] [false] 1 3.

Definition fission_source : FissionSource := {|
  get_function_values := λ _ _ phi, take 2 phi;
  JxW := λ _ _ _, 0.5%float;
  MPI_sum := λ x, (x + 1)%float;
|}.

(** An iteration whose tolerances are not below the first errors. *)
Definition loose_iteration : Iteration Eigen unit unit := {|
  this := {| tol_k := 1; tol_phi := 2; k_eff := 1; k_eff_prev := 1;
             production := 1; out := [] |};
  sflxes_proc := replicate 2 (replicate 6 1%float);
  equ_ptrs := [equation];
  ig_ptr := tt;
  mg_ptr := tt;
|}.

(** A test process with reporting on, in which every call to the library
    returns [status]. *)
Definition test_process (status : Z) : TestProcess := {|
  helper := {| report_ := true; gold_files_directory_ := "gold/";
               report_directory_ := "gold/20180101_1200_fail" |};
  returns := λ _, status;
  calls := [];
  local_time := "20180101_1200";
|}.

End Example.

(** * Properties *)

(** ** Binary64 arithmetic *)

Lemma shift_out_52 (m : positive) :
  SpecFloat.iter_pos shr_1 52
    {| shr_m := Z.pos (4503599627370496 * m); shr_r := false; shr_s := false |}
  = {| shr_m := Z.pos m; shr_r := false; shr_s := false |}.
Proof. reflexivity. Qed.

Lemma Zpos_iter_succ (n : nat) (d : positive) :
  Z.pos (Nat.iter n Pos.succ d) = (Z.pos d + Z.of_nat n)%Z.
Proof.
  induction n as [|n IH].
  - cbn [Nat.iter nat_rect]. lia.
  - rewrite Nat.iter_succ, Pos2Z.inj_succ, IH. lia.
Qed.

Lemma digits_shift_52 (m : positive) :
  Z.pos (digits2_pos (4503599627370496 * m)) = (Z.pos (digits2_pos m) + 52)%Z.
Proof.
  change (digits2_pos (4503599627370496 * m))
    with (Nat.iter 52 Pos.succ (digits2_pos m)).
  apply (Zpos_iter_succ 52).
Qed.

Lemma SF64mul_one_r (s : spec_float) :
  FloatAxioms.valid_binary s = true ->
  SF64mul s (S754_finite false 4503599627370496 (-52)) = s.
Proof.
  destruct s as [sx|sx| |sx m e]; intros Hvalid.
  - unfold SF64mul, SFmul. now rewrite xorb_false_r.
  - unfold SF64mul, SFmul. now rewrite xorb_false_r.
  - reflexivity.
  - unfold SF64mul, SFmul. rewrite xorb_false_r.
    unfold FloatAxioms.valid_binary, valid_binary, bounded, canonical_mantissa in Hvalid.
    apply andb_prop in Hvalid as [Hcanon Hmax].
    apply Z.eqb_eq in Hcanon.
    unfold binary_round_aux, shr_fexp.
    rewrite (Pos.mul_comm m). unfold Zdigits2.
    rewrite digits_shift_52.
    replace (Z.pos (digits2_pos m) + 52 + (e + -52))%Z
      with (Z.pos (digits2_pos m) + e)%Z by lia.
    rewrite Hcanon.
    replace (e - (e + -52))%Z with 52%Z by lia.
    change (shr (shr_record_of_loc (Z.pos (4503599627370496 * m)) loc_Exact)
              (e + -52) 52)
      with (SpecFloat.iter_pos shr_1 52
              {| shr_m := Z.pos (4503599627370496 * m); shr_r := false;
                 shr_s := false |}, (e + -52 + 52)%Z).
    rewrite shift_out_52.
    cbv beta iota zeta delta [shr_m shr_r shr_s loc_of_shr_record round_nearest_even].
    replace (e + -52 + 52)%Z with e by lia. rewrite Hcanon, Z.sub_diag.
    cbv beta iota zeta delta [shr shr_record_of_loc shr_m].
    now rewrite Hmax.
Qed.

Lemma float_mul_1_r (x : float) : (x * 1)%float = x.
Proof.
  apply FloatAxioms.Prim2SF_inj. rewrite FloatAxioms.mul_spec. apply SF64mul_one_r, FloatAxioms.Prim2SF_valid.
Qed.

Lemma SFcompare_antisym (x y : spec_float) :
  SFcompare y x = option_map CompOpp (SFcompare x y).
Proof.
  destruct x as [sx|sx| |sx mx ex], y as [sy|sy| |sy my ey]; simpl;
    try (destruct sx, sy; reflexivity); try (destruct sx; reflexivity);
    try (destruct sy; reflexivity); try reflexivity.
  change (PosDef.Pos.compare_cont Eq my mx) with (my ?= mx)%positive.
  change (PosDef.Pos.compare_cont Eq mx my) with (mx ?= my)%positive.
  rewrite (Z.compare_antisym ey ex), (Pos.compare_antisym my mx).
  destruct sx, sy, (ey ?= ex)%Z, (my ?= mx)%positive; reflexivity.
Qed.

Lemma SFcompare_is_Some (x y : spec_float) :
  x <> S754_nan -> y <> S754_nan -> exists c, SFcompare x y = Some c.
Proof.
  destruct x as [sx|sx| |sx mx ex], y as [sy|sy| |sy my ey]; simpl; intros Hx Hy;
    try congruence; eauto.
Qed.

Lemma is_nan_false (x : float) : is_nan x = false -> Prim2SF x <> S754_nan.
Proof.
  unfold is_nan. rewrite FloatAxioms.eqb_spec. intros Hx Hnan. rewrite Hnan in Hx. discriminate.
Qed.

(** For numbers, [not (a > b)] is [a <= b]. *)
Lemma not_gt_is_le (a b : float) :
  is_nan a = false -> is_nan b = false -> negb (b <? a)%float = (a <=? b)%float.
Proof.
  intros Ha%is_nan_false Hb%is_nan_false.
  rewrite FloatAxioms.ltb_spec, FloatAxioms.leb_spec. unfold SFltb, SFleb.
  rewrite (SFcompare_antisym (Prim2SF a) (Prim2SF b)).
  destruct (SFcompare_is_Some _ _ Ha Hb) as [c ->]. now destruct c.
Qed.

(** ** Computations *)

Lemma bind_Done {St A B} (c : Eff St A) (k : A → Eff St B) s a s' :
  c s = Done a s' → bind c k s = k a s'.
Proof. unfold bind. by intros ->. Qed.

Lemma bind_Done_inv {St A B} (c : Eff St A) (k : A → Eff St B) s b s'' :
  bind c k s = Done b s'' → ∃ a s', c s = Done a s' ∧ k a s' = Done b s''.
Proof. unfold bind. destruct (c s) as [a s'| |]; [eauto|done..]. Qed.

Lemma bind_Thrown {St A B} (c : Eff St A) (k : A → Eff St B) s msg s' :
  c s = Thrown msg s' → bind c k s = Thrown msg s'.
Proof. unfold bind. by intros ->. Qed.

Lemma bind_Undefined {St A B} (c : Eff St A) (k : A → Eff St B) s :
  c s = Undefined → bind c k s = Undefined.
Proof. unfold bind. by intros ->. Qed.

Lemma bind_ext {St A B} (c : Eff St A) (k1 k2 : A → Eff St B) s :
  (∀ a s', c s = Done a s' → k1 a s' = k2 a s') → bind c k1 s = bind c k2 s.
Proof. unfold bind. destruct (c s); eauto. Qed.

Lemma bind_cong_l {St A B} (c1 c2 : Eff St A) (k : A → Eff St B) s :
  c1 s = c2 s → bind c1 k s = bind c2 k s.
Proof. unfold bind. by intros ->. Qed.

Lemma bind_ret {St A B} (a : A) (k : A → Eff St B) s : bind (ret a) k s = k a s.
Proof. reflexivity. Qed.

Lemma bind_gets {St A B} (f : St → A) (k : A → Eff St B) s :
  bind (gets f) k s = k (f s) s.
Proof. reflexivity. Qed.

Lemma bind_modify {St B} (f : St → St) (k : unit → Eff St B) s :
  bind (modify f) k s = k tt (f s).
Proof. reflexivity. Qed.

Lemma bind_AssertThrow_true {St B} msg (k : unit → Eff St B) s :
  bind (AssertThrow true msg) k s = k tt s.
Proof. reflexivity. Qed.

Lemma bind_AssertThrow_false {St B} msg (k : unit → Eff St B) s :
  bind (AssertThrow false msg) k s = Thrown msg s.
Proof. reflexivity. Qed.

Lemma bind_defined {St A B} (a : A) (k : A → Eff St B) s :
  bind (defined (Some a)) k s = k a s.
Proof. reflexivity. Qed.

Lemma bind_bind {St A B C} (c : Eff St A) (k1 : A → Eff St B) (k2 : B → Eff St C) s :
  bind (bind c k1) k2 s = bind c (λ a, bind (k1 a) k2) s.
Proof. unfold bind. by destruct (c s). Qed.

Create Rewrite HintDb eff.
#[export] Hint Rewrite @bind_ret @bind_gets @bind_modify @bind_AssertThrow_true
  @bind_AssertThrow_false @bind_defined @bind_bind : eff.

(** Runs the leading reads, writes and assertions of a computation. *)
Ltac eff_run := repeat (autorewrite with eff; cbv beta).

(** A counting loop is the loop over the list of its indices. *)
Lemma for_from_for_list {St A} cnt :
  ∀ lo (body : nat → A → Eff St A) a s,
  for_from lo cnt body a s = for_list (seq lo cnt) body a s.
Proof.
  induction cnt as [|cnt IH]; intros lo body a s; simpl; [done|].
  unfold bind. destruct (body lo a s); [apply IH|done..].
Qed.

(** A loop that keeps an invariant and whose every pass returns, returns. *)
Lemma for_from_total {St A} (I : nat → A → St → Prop) cnt :
  ∀ lo (body : nat → A → Eff St A) a s,
  I lo a s →
  (∀ i a s, lo ≤ i < lo + cnt → I i a s →
            ∃ a' s', body i a s = Done a' s' ∧ I (S i) a' s') →
  ∃ a' s', for_from lo cnt body a s = Done a' s' ∧ I (lo + cnt) a' s'.
Proof.
  induction cnt as [|cnt IH]; intros lo body a s HI Hbody; simpl.
  - exists a, s. by rewrite Nat.add_0_r.
  - destruct (Hbody lo a s ltac:(lia) HI) as (a1 & s1 & Hrun & HI1).
    destruct (IH (S lo) body a1 s1 HI1) as (a2 & s2 & Hrest & HI2).
    { intros i a' s' Hi. apply Hbody. lia. }
    exists a2, s2. rewrite (bind_Done _ _ _ _ _ Hrun).
    split; [done|]. by replace (lo + S cnt) with (S lo + cnt) by lia.
Qed.

(** What an invariant says of a loop that has returned. *)
Lemma for_from_partial {St A} (I : nat → A → St → Prop) cnt :
  ∀ lo (body : nat → A → Eff St A) a s a' s',
  I lo a s →
  (∀ i a s a' s', lo ≤ i < lo + cnt → I i a s →
                  body i a s = Done a' s' → I (S i) a' s') →
  for_from lo cnt body a s = Done a' s' → I (lo + cnt) a' s'.
Proof.
  induction cnt as [|cnt IH]; intros lo body a s a' s' HI Hbody; simpl.
  - intros [= <- <-]. by rewrite Nat.add_0_r.
  - intros (a1 & s1 & Hrun & Hrest)%bind_Done_inv.
    replace (lo + S cnt) with (S lo + cnt) by lia.
    eapply IH; [|intros i ???? Hi; apply Hbody; lia|exact Hrest].
    eapply Hbody; [lia|exact HI|exact Hrun].
Qed.

Section Properties.
Context `{Collaborators} `{!Integrators}.

(** ** Reading the hash tables *)

Lemma map_subscript_value `{Countable K} {V} (dflt : V) (m : gmap K V) key key' :
  subscript_value dflt (snd (map_subscript dflt m key)) key'
  = subscript_value dflt m key'.
Proof.
  unfold map_subscript, subscript_value; simpl.
  destruct (decide (key = key')) as [->|Hne].
  - by rewrite lookup_insert_eq.
  - by rewrite lookup_insert_ne.
Qed.

Lemma map_subscript_present `{Countable K} {V} (dflt : V) (m : gmap K V) key v :
  m !! key = Some v → map_subscript dflt m key = (v, m).
Proof.
  intros Hv. unfold map_subscript. rewrite Hv. simpl. by rewrite insert_id.
Qed.

End Properties.

(** ** The fission-transfer scaling *)

Section Properties.
Context `{Collaborators} `{!Integrators}.

Lemma matrix_entry_alter_insert (tmp : list (list float)) gin g x gin' g' :
  matrix_entry (alter (<[g := x]>) gin tmp) gin' g'
  = if decide (gin = gin' ∧ g = g' ∧ is_Some (matrix_entry tmp gin g))
    then Some x else matrix_entry tmp gin' g'.
Proof.
  unfold matrix_entry.
  destruct (decide (gin = gin')) as [<-|Hne].
  - rewrite list_lookup_alter_eq. destruct (tmp !! gin) as [row|] eqn:Hrow; simpl.
    + destruct (decide (g = g')) as [<-|Hg].
      * destruct (row !! g) eqn:Hg.
        -- rewrite list_lookup_insert_eq by (eapply lookup_lt_Some, Hg).
           rewrite decide_True; [done|]. split_and!; eauto.
        -- rewrite list_insert_ge by (apply lookup_ge_None, Hg).
           rewrite Hg. rewrite decide_False; [done|]. intros (_ & _ & Hs). by destruct Hs.
      * rewrite list_lookup_insert_ne by done.
        rewrite decide_False; [done|]. by intros (_ & ? & _).
    + rewrite decide_False; [done|]. intros (_ & _ & Hs). by destruct Hs.
  - rewrite list_lookup_alter_ne by done.
    rewrite decide_False; [done|]. by intros (? & _).
Qed.

Lemma matrix_entry_zero ng gin g :
  gin < ng → g < ng →
  matrix_entry (replicate ng (replicate ng 0%float)) gin g = Some 0%float.
Proof.
  intros Hgin Hg. unfold matrix_entry.
  rewrite lookup_replicate_2 by done. by rewrite lookup_replicate_2.
Qed.

(** The two inner loops of [scale_fiss_transfer_matrices] for a fissile
    material whose table is complete. *)
Lemma scale_fissile_material (e : EquationBase) keff m ng :
  (∀ gin g, gin < ng → g < ng →
            is_Some (table_entry (all_ksi_nusigf_per_ster e) m gin g)) →
  ∃ tmp,
    for_from 0 ng (λ gin tmp,
      for_from 0 ng (λ g tmp,
        x <- ksi_nusigf_per_ster m gin g ;;
        ret (alter (<[g := (x / keff)%float]>) gin tmp)) tmp)
      (replicate ng (replicate ng 0%float)) e = Done tmp e
    ∧ ∀ gin g raw, gin < ng → g < ng →
        table_entry (all_ksi_nusigf_per_ster e) m gin g = Some raw →
        matrix_entry tmp gin g = Some (raw / keff)%float.
Proof.
  intros Htable.
  pose (entry_ok := λ (tmp : list (list float)) gin g,
    ∀ raw, table_entry (all_ksi_nusigf_per_ster e) m gin g = Some raw →
           matrix_entry tmp gin g = Some (raw / keff)%float).
  pose (inner := λ (gin g : nat) (tmp : list (list float)),
    (x <- ksi_nusigf_per_ster m gin g ;;
     ret (alter (<[g := (x / keff)%float]>) gin tmp)) : Eff EquationBase _).
  destruct (for_from_total (λ gin tmp s,
      s = e
      ∧ (∀ gin' g', gin' < ng → g' < ng → is_Some (matrix_entry tmp gin' g'))
      ∧ ∀ gin' g', gin' < gin → g' < ng → entry_ok tmp gin' g') ng 0
      (λ gin tmp, for_from 0 ng (inner gin) tmp)
      (replicate ng (replicate ng 0%float)) e)
    as (tmp & s & Hrun & -> & _ & Hdone).
  - split_and!; [done| |intros; lia].
    intros. rewrite matrix_entry_zero by done. eauto.
  - intros gin tmp s Hgin (-> & Hsome & Hrows).
    destruct (for_from_total (λ g tmp s,
        s = e
        ∧ (∀ gin' g', gin' < ng → g' < ng → is_Some (matrix_entry tmp gin' g'))
        ∧ (∀ gin' g', gin' < gin → g' < ng → entry_ok tmp gin' g')
        ∧ ∀ g', g' < g → entry_ok tmp gin g') ng 0 (inner gin) tmp e)
      as (tmp' & s' & Hrun & -> & Hsome' & Hrows' & Hrow).
    + split_and!; [done..|intros; lia].
    + intros g tmp1 s1 Hg (-> & Hsome1 & Hrows1 & Hrow1).
      destruct (Htable gin g) as [raw Hraw]; [lia..|].
      eexists _, e. split.
      { unfold inner, bind, ksi_nusigf_per_ster. cbv beta. rewrite Hraw. done. }
      split_and!; [done|..].
      * intros gin' g' ??. rewrite matrix_entry_alter_insert.
        case_decide; eauto.
      * intros gin' g' ?? raw' Hraw'. rewrite matrix_entry_alter_insert.
        rewrite decide_False by lia. by apply Hrows1.
      * intros g' ? raw' Hraw'. rewrite matrix_entry_alter_insert.
        case_decide as Hd.
        -- destruct Hd as (_ & <- & _). congruence.
        -- apply Hrow1; [|done]. destruct (decide (g = g')) as [<-|]; [|lia].
           exfalso. apply Hd. split_and!; [done..|]. apply Hsome1; lia.
    + exists tmp', e. split; [exact Hrun|]. split_and!; [done..|].
      intros gin' g' ??. destruct (decide (gin' = gin)) as [->|].
      * apply Hrow. lia.
      * apply Hrows'; lia.
  - exists tmp. split; [exact Hrun|].
    intros gin g raw ???. by apply Hdone.
Qed.

End Properties.

Section Scaling.
Context `{Collaborators} `{!Integrators}.

Lemma length_resize {A} n (dflt : A) v : length (resize n dflt v) = n.
Proof. unfold resize. rewrite length_app, length_take, length_replicate. lia. Qed.

Lemma is_fissile_run (e : EquationBase) m :
  ∃ e', is_fissile m e = Done (material_is_fissile e m) e'
    ∧ (∀ m', material_is_fissile e' m' = material_is_fissile e m')
    ∧ n_group e' = n_group e
    ∧ all_ksi_nusigf_per_ster e' = all_ksi_nusigf_per_ster e
    ∧ scaled_fiss_transfer_per_ster e' = scaled_fiss_transfer_per_ster e.
Proof.
  eexists. split; [reflexivity|]. split_and!; [|done..].
  intros m'. unfold material_is_fissile. simpl.
  apply (map_subscript_value false).
Qed.

Lemma scale_fiss_transfer_spec (e : EquationBase) keff :
  is_eigen_problem e = true →
  (∀ m gin g, m < n_material e → material_is_fissile e m = true →
              gin < n_group e → g < n_group e →
              is_Some (table_entry (all_ksi_nusigf_per_ster e) m gin g)) →
  ∃ e', scale_fiss_transfer_matrices keff e = Done tt e'
    ∧ length (scaled_fiss_transfer_per_ster e') = n_material e
    ∧ (∀ m gin g raw,
         m < n_material e → material_is_fissile e m = true →
         gin < n_group e → g < n_group e →
         table_entry (all_ksi_nusigf_per_ster e) m gin g = Some raw →
         table_entry (scaled_fiss_transfer_per_ster e') m gin g
         = Some (raw / keff)%float)
    ∧ (∀ m, m < n_material e → material_is_fissile e m = false →
            scaled_fiss_transfer_per_ster e' !! m
            = Some (replicate (n_group e) (replicate (n_group e) 0%float))).
Proof.
  intros Heigen Htable. unfold scale_fiss_transfer_matrices.
  eff_run. rewrite Heigen. eff_run.
  set (nm := n_material e). set (ng := n_group e).
  pose (done_for := λ (s : EquationBase) (m : nat),
    ∃ matrix, scaled_fiss_transfer_per_ster s !! m = Some matrix
      ∧ (material_is_fissile e m = true →
         ∀ gin g raw, gin < ng → g < ng →
           table_entry (all_ksi_nusigf_per_ster e) m gin g = Some raw →
           matrix_entry matrix gin g = Some (raw / keff)%float)
      ∧ (material_is_fissile e m = false →
         matrix = replicate ng (replicate ng 0%float))).
  unfold for_range.
  match goal with |- ∃ _, for_from 0 _ ?b _ ?s0 = _ ∧ _ =>
    destruct (for_from_total (λ m (_ : unit) s,
        n_group s = ng
        ∧ all_ksi_nusigf_per_ster s = all_ksi_nusigf_per_ster e
        ∧ (∀ m', material_is_fissile s m' = material_is_fissile e m')
        ∧ length (scaled_fiss_transfer_per_ster s) = nm
        ∧ ∀ m', m' < m → done_for s m') nm 0 b tt s0)
      as ([] & e' & Hrun & _ & _ & _ & Hlen & Hdone)
  end.
  - split_and!; [done..| |intros; lia]. simpl. apply length_resize.
  - intros m [] s Hm (Hng & Hksi & Hfis & Hlen & Hdone). eff_run.
    destruct (is_fissile_run s m) as (s1 & Hrun1 & Hfis1 & Hng1 & Hksi1 & Hsc1).
    rewrite (bind_Done _ _ _ _ _ Hrun1). rewrite Hng, Hfis.
    assert (∃ tmp,
      (if material_is_fissile e m
       then for_from 0 ng (λ gin tmp,
              for_from 0 ng (λ g tmp,
                x <- ksi_nusigf_per_ster m gin g ;;
                ret (alter (<[g := (x / keff)%float]>) gin tmp)) tmp)
              (replicate ng (replicate ng 0%float))
       else ret (replicate ng (replicate ng 0%float))) s1 = Done tmp s1
      ∧ (material_is_fissile e m = true →
         ∀ gin g raw, gin < ng → g < ng →
           table_entry (all_ksi_nusigf_per_ster e) m gin g = Some raw →
           matrix_entry tmp gin g = Some (raw / keff)%float)
      ∧ (material_is_fissile e m = false →
         tmp = replicate ng (replicate ng 0%float))) as (tmp & Hrun2 & Hfissile & Hzero).
    { destruct (material_is_fissile e m) eqn:Hm_fissile.
      - destruct (scale_fissile_material s1 keff m ng) as (tmp & Hrun2 & Htmp).
        { intros gin g ??. rewrite Hksi1, Hksi. apply Htable; [lia|done..]. }
        exists tmp. split_and!; [done| |done].
        intros _ gin g raw ?? Hraw. apply Htmp; [done..|]. by rewrite Hksi1, Hksi.
      - eexists. split_and!; [reflexivity|done|done]. }
    rewrite (bind_Done _ _ _ _ _ Hrun2).
    unfold assign_element. rewrite Hsc1, decide_True by lia.
    eexists tt, _. split; [reflexivity|]. simpl.
    split_and!; [by rewrite Hng1|by rewrite Hksi1|..].
    + intros m'. rewrite <- Hfis, <- Hfis1. done.
    + by rewrite length_insert, Hsc1.
    + intros m' Hm'. unfold done_for. simpl. rewrite Hsc1.
      destruct (decide (m' = m)) as [->|Hne].
      * exists tmp. rewrite list_lookup_insert_eq by lia. done.
      * rewrite list_lookup_insert_ne by done. apply Hdone. lia.
  - exists e'. split; [exact Hrun|]. split; [done|]. split.
    + intros m gin g raw Hm Hfissile Hgin Hg Hraw.
      destruct (Hdone m Hm) as (matrix & Hmatrix & Hentries & _).
      unfold table_entry at 1. rewrite Hmatrix. by eapply Hentries.
    + intros m Hm Hfissile.
      destruct (Hdone m Hm) as (matrix & Hmatrix & _ & Hzero).
      by rewrite Hmatrix, Hzero.
Qed.

(** C3.  Scaling for a fissile material.  In an eigenvalue problem whose
    fission table is complete, for a fissile material [m] and an
    eigenvalue estimate [keff != 0], [scale_fiss_transfer_matrices (keff)]
    returns, and [scaled_fiss_transfer_per_ster[m][gin][g]] is then
    [all_ksi_nusigf_per_ster[m][gin][g] / keff] for every pair of
    groups. *)
Theorem scaled_transfer_of_fissile (e : EquationBase) keff m gin g raw :
  is_eigen_problem e = true → fission_table_complete e →
  (keff =? 0)%float = false →
  m < n_material e → material_is_fissile e m = true →
  gin < n_group e → g < n_group e →
  table_entry (all_ksi_nusigf_per_ster e) m gin g = Some raw →
  ∃ e', scale_fiss_transfer_matrices keff e = Done tt e'
    ∧ table_entry (scaled_fiss_transfer_per_ster e') m gin g
      = Some (raw / keff)%float.
Proof.
  intros Heigen Htable _ Hm Hfissile Hgin Hg Hraw.
  destruct (scale_fiss_transfer_spec e keff Heigen Htable)
    as (e' & Hrun & _ & Hscaled & _).
  exists e'. split; [done|]. by apply Hscaled.
Qed.

(** C4.  Scaling for a material that is not fissile.  In an eigenvalue
    problem whose fission table is complete, for a material [m] with
    [is_material_fissile[m]] false and any [keff],
    [scale_fiss_transfer_matrices (keff)] returns, and
    [scaled_fiss_transfer_per_ster[m]] is then the [n_group] by [n_group]
    zero matrix. *)
Theorem scaled_transfer_of_non_fissile (e : EquationBase) keff m :
  is_eigen_problem e = true → fission_table_complete e →
  m < n_material e → material_is_fissile e m = false →
  ∃ e', scale_fiss_transfer_matrices keff e = Done tt e'
    ∧ scaled_fiss_transfer_per_ster e' !! m
      = Some (replicate (n_group e) (replicate (n_group e) 0%float)).
Proof.
  intros Heigen Htable Hm Hfissile.
  destruct (scale_fiss_transfer_spec e keff Heigen Htable)
    as (e' & Hrun & _ & _ & Hzero).
  exists e'. split; [done|]. by apply Hzero.
Qed.

End Scaling.

(** ** Frames: what a computation leaves as it was *)

Lemma keeps_Done {St A B} (f : St → B) (c : Eff St A) s a s' :
  keeps f c → c s = Done a s' → f s' = f s.
Proof. intros Hc Hrun. specialize (Hc s). by rewrite Hrun in Hc. Qed.

Lemma keeps_Thrown {St A B} (f : St → B) (c : Eff St A) s msg s' :
  keeps f c → c s = Thrown msg s' → f s' = f s.
Proof. intros Hc Hrun. specialize (Hc s). by rewrite Hrun in Hc. Qed.

Lemma keeps_ret {St A B} (f : St → B) (a : A) : keeps f (ret a).
Proof. by intros s. Qed.

Lemma keeps_gets {St A B} (f : St → B) (g : St → A) : keeps f (gets g).
Proof. by intros s. Qed.

Lemma keeps_undefined {St A B} (f : St → B) : keeps f (@undefined St A).
Proof. by intros s. Qed.

Lemma keeps_defined {St A B} (f : St → B) (o : option A) : keeps f (defined o).
Proof. intros s. by destruct o. Qed.

Lemma keeps_AssertThrow {St B} (f : St → B) cond msg :
  keeps f (AssertThrow cond msg).
Proof. intros s. by destruct cond. Qed.

Lemma keeps_modify {St B} (f : St → B) (g : St → St) :
  (∀ s, f (g s) = f s) → keeps f (modify g).
Proof. intros Hg s. apply Hg. Qed.

Lemma keeps_bind {St A A' B} (f : St → B) (c : Eff St A) (k : A → Eff St A') :
  keeps f c → (∀ a, keeps f (k a)) → keeps f (bind c k).
Proof.
  intros Hc Hk s. unfold bind. specialize (Hc s).
  destruct (c s) as [a s'| |]; [|done..].
  specialize (Hk a s'). destruct (k a s'); [congruence..|done].
Qed.

Lemma keeps_for_from {St A B} (f : St → B) cnt :
  ∀ lo (body : nat → A → Eff St A) a,
  (∀ i a, keeps f (body i a)) → keeps f (for_from lo cnt body a).
Proof.
  induction cnt as [|cnt IH]; intros lo body a Hbody; simpl.
  - apply keeps_ret.
  - apply keeps_bind; [apply Hbody|]. intros a'. by apply IH.
Qed.

Lemma keeps_for_list {St I A B} (f : St → B) (l : list I) :
  ∀ (body : I → A → Eff St A) a,
  (∀ i a, keeps f (body i a)) → keeps f (for_list l body a).
Proof.
  induction l as [|i l IH]; intros body a Hbody; simpl.
  - apply keeps_ret.
  - apply keeps_bind; [apply Hbody|]. intros a'. by apply IH.
Qed.

Lemma keeps_for_range {St B} (f : St → B) n (body : nat → Eff St unit) :
  (∀ i, keeps f (body i)) → keeps f (for_range n body).
Proof. intros Hbody. apply keeps_for_from. intros i _. apply Hbody. Qed.

(** Reading an index map or the fissile map leaves what it returns for
    every key as it was. *)
Section Observations.
Context `{Collaborators}.

Lemma component_of_subscript (e : EquationBase) key d g :
  component_of
    (set_component_index (λ _, snd (map_subscript 0 (component_index e) key)) e) d g
  = component_of e d g.
Proof. unfold component_of. simpl. apply (map_subscript_value 0). Qed.

Lemma group_of_subscript (e : EquationBase) key k :
  group_of
    (set_inverse_component_index
       (λ _, snd (map_subscript (0, 0) (inverse_component_index e) key)) e) k
  = group_of e k.
Proof.
  unfold group_of. simpl. f_equal. apply (map_subscript_value (0, 0)).
Qed.

Lemma direction_of_subscript (e : EquationBase) key k :
  direction_of
    (set_inverse_component_index
       (λ _, snd (map_subscript (0, 0) (inverse_component_index e) key)) e) k
  = direction_of e k.
Proof.
  unfold direction_of. simpl. f_equal. apply (map_subscript_value (0, 0)).
Qed.

Lemma material_is_fissile_subscript (e : EquationBase) key m :
  material_is_fissile
    (set_is_material_fissile
       (λ _, snd (map_subscript false (is_material_fissile e) key)) e) m
  = material_is_fissile e m.
Proof. unfold material_is_fissile. simpl. apply (map_subscript_value false). Qed.

End Observations.

(** The leaves: a member is read, or one member is assigned while [f]
    looks at others. *)
Ltac keeps_leaf :=
  let s := fresh "s" in
  unfold keeps; intros s;
  cbv beta delta [assign_element element defined get_component_index
                  get_component_direction get_component_group is_fissile
                  ksi_nusigf_per_ster];
  first
    [ cbv beta iota zeta;
      solve [ apply component_of_subscript | apply group_of_subscript
            | apply direction_of_subscript | apply material_is_fissile_subscript ]
    | simpl; repeat case_decide; repeat case_match; simplify_eq; try done;
      try reflexivity ].

Ltac keeps_step :=
  lazymatch goal with
  | |- keeps _ (bind _ _) => apply keeps_bind; [|intros ?]
  | |- keeps _ (ret _) => apply keeps_ret
  | |- keeps _ (gets _) => apply keeps_gets
  | |- keeps _ undefined => apply keeps_undefined
  | |- keeps _ (defined _) => apply keeps_defined
  | |- keeps _ (AssertThrow _ _) => apply keeps_AssertThrow
  | |- keeps _ (modify _) =>
      apply keeps_modify; intros ?; repeat case_match; reflexivity
  | |- keeps _ (for_from _ _ _ _) => apply keeps_for_from; intros ? ?
  | |- keeps _ (for_list _ _ _) => apply keeps_for_list; intros ? ?
  | |- keeps _ (for_range _ _) => apply keeps_for_range; intros ?
  | |- keeps _ (if ?b then _ else _) => destruct b
  | |- keeps _ (match ?x with _ => _ end) => destruct x
  | |- keeps _ (let _ := _ in _) => cbv zeta
  end.

Create HintDb members discriminated.
#[export] Hint Unfold print dereference face at_boundary neighbor id_of
  get_local_dof_indices get_neigh_dof_indices add_direction
  over_boundary_faces add_to_vector add_to_sys_mat is_target_face
  assemble_interface_face assemble_linear_form_component
  assemble_volume_boundary_bilinear_form assemble_interface_bilinear_form
  assemble_linear_form assemble_fixed_linear_form assemble_interface_over
  : members.

(** Proves [keeps f c] for a member function [c] and an observation [f]
    of members that [c] never assigns. *)
Ltac solve_keeps :=
  repeat first [ keeps_step | progress autounfold with members | solve [keeps_leaf] ].

Section Frames.
Context `{Collaborators} `{!Integrators}.

Lemma assemble_volume_boundary_keeps_setup :
  keeps setup assemble_volume_boundary_bilinear_form.
Proof. solve_keeps. Qed.

Lemma assemble_interface_keeps_setup :
  keeps setup assemble_interface_bilinear_form.
Proof. solve_keeps. Qed.

End Frames.

(** ** Assertions and sizes *)

Section Claims.
Context `{Collaborators} `{!Integrators}.

(** C10.  The guard of the two [generate_moments] overloads.  On an
    object with [do_nda == false], whatever its equation name, both
    [generate_moments (sflxes_proc, sflxes_proc_old)] and
    [generate_moments ()] throw "only non-NDA is supposed to call this
    function" and leave the object as it was. *)
Theorem generate_moments_requires_do_nda (e : EquationBase)
    (sflxes_proc sflxes_proc_old : list Vector) :
  do_nda e = false →
  generate_moments_all sflxes_proc sflxes_proc_old e
  = Thrown "only non-NDA is supposed to call this function" e
  ∧ generate_moments_ho e
    = Thrown "only non-NDA is supposed to call this function" e.
Proof.
  intros Hnda. unfold generate_moments_all, generate_moments_ho.
  eff_run. rewrite Hnda, andb_false_r. by eff_run.
Qed.

Lemma volume_part_keeps_setup : keeps setup volume_part.
Proof. unfold volume_part. solve_keeps. Qed.

Lemma assemble_bilinear_form_unfold (e : EquationBase) :
  assemble_bilinear_form e
  = (volume_part ;;
     d <- gets discretization ;;
     (if String.eqb d "dfem"
      then name <- gets equation_name ;;
           AssertThrow (String.eqb name "ep")
             "DFEM is only implemented for even parity" ;;
           interface_part
      else ret tt) ;;
     preconditioner_part) e.
Proof.
  unfold assemble_bilinear_form, volume_part, interface_part, preconditioner_part.
  rewrite !bind_bind. unfold bind.
  destruct (print _ e) as [[] e0| |]; [|done..].
  destruct (assemble_volume_boundary_bilinear_form e0) as [[] e1| |]; [|done..].
  unfold gets. destruct (String.eqb (discretization e1) "dfem"); [|done].
  unfold AssertThrow. destruct (String.eqb (equation_name e1) "ep"); [|done].
  by destruct (print _ e1) as [[] e2| |].
Qed.

(** C5.  The interface assembly and its precondition.  When the
    discretization is not "dfem", [assemble_bilinear_form] is the
    volumetric and boundary assembly followed by the initialisation of
    the preconditioners, with no interface assembly.  When it is "dfem"
    and the equation is "ep", the interface assembly runs between the
    two.  When it is "dfem" and the equation is not "ep", the call throws
    "DFEM is only implemented for even parity" once the volumetric
    assembly has returned, and in no case returns normally. *)
Theorem assemble_bilinear_form_interface (e : EquationBase) :
  (discretization e ≠ "dfem" →
     assemble_bilinear_form e = (volume_part ;; preconditioner_part) e)
  ∧ (discretization e = "dfem" → equation_name e = "ep" →
     assemble_bilinear_form e
     = (volume_part ;; interface_part ;; preconditioner_part) e)
  ∧ (discretization e = "dfem" → equation_name e ≠ "ep" →
     (∀ e', volume_part e = Done tt e' →
        assemble_bilinear_form e
        = Thrown "DFEM is only implemented for even parity" e')
     ∧ ∀ e', assemble_bilinear_form e ≠ Done tt e').
Proof.
  rewrite assemble_bilinear_form_unfold.
  assert (∀ e', volume_part e = Done tt e' →
                discretization e' = discretization e
                ∧ equation_name e' = equation_name e) as Hkeeps.
  { intros e' Hrun.
    pose proof (keeps_Done _ _ _ _ _ volume_part_keeps_setup Hrun) as Heq.
    unfold setup in Heq. by simplify_eq. }
  split_and!.
  - intros Hd. destruct (volume_part e) as [[] e'|msg e'|] eqn:Hrun.
    + rewrite !(bind_Done _ _ _ _ _ Hrun).
      destruct (Hkeeps e' eq_refl) as [Hd' _]. eff_run. rewrite Hd'.
      apply String.eqb_neq in Hd. rewrite Hd. by eff_run.
    + by rewrite !(bind_Thrown _ _ _ _ _ Hrun).
    + by rewrite !(bind_Undefined _ _ _ Hrun).
  - intros Hd Hname. destruct (volume_part e) as [[] e'|msg e'|] eqn:Hrun.
    + rewrite !(bind_Done _ _ _ _ _ Hrun).
      destruct (Hkeeps e' eq_refl) as [Hd' Hname']. eff_run.
      rewrite Hd', Hd. simpl. eff_run. rewrite Hname', Hname. simpl. by eff_run.
    + by rewrite !(bind_Thrown _ _ _ _ _ Hrun).
    + by rewrite !(bind_Undefined _ _ _ Hrun).
  - intros Hd Hname. split.
    + intros e' Hrun. rewrite (bind_Done _ _ _ _ _ Hrun).
      destruct (Hkeeps e' Hrun) as [Hd' Hname']. eff_run. rewrite Hd', Hd. simpl.
      eff_run. rewrite Hname'. apply String.eqb_neq in Hname. rewrite Hname.
      by eff_run.
    + intros e'' (a & e' & Hrun & Hrest)%bind_Done_inv. destruct a.
      destruct (Hkeeps e' Hrun) as [Hd' Hname']. revert Hrest. eff_run.
      rewrite Hd', Hd. simpl. eff_run. rewrite Hname'.
      apply String.eqb_neq in Hname. rewrite Hname. by eff_run.
Qed.


Lemma assign_element_run {A} (member : EquationBase → list A) set_member i x e :
  i < length (member e) →
  assign_element member set_member i x e
  = Done tt (set_member (λ v, <[i := x]> v) e).
Proof. intros Hi. unfold assign_element. by rewrite decide_True. Qed.

Lemma create_components_run (e : EquationBase) dsp local_dofs :
  ∃ e', create_components dsp local_dofs e = Done tt e'
    ∧ setup e' = setup e
    ∧ length (sys_mats e') = length (sys_mats e) + n_total_vars e
    ∧ length (sys_aflxes e') = length (sys_aflxes e) + n_total_vars e
    ∧ length (sys_rhses e') = length (sys_rhses e) + n_total_vars e
    ∧ length (sys_fixed_rhses e') = length (sys_fixed_rhses e) + n_total_vars e.
Proof.
  unfold create_components. eff_run. unfold for_range.
  match goal with |- ∃ _, for_from 0 ?n ?b _ _ = _ ∧ _ =>
    destruct (for_from_total (λ i (_ : unit) s,
        setup s = setup e
        ∧ length (sys_mats s) = length (sys_mats e) + i
        ∧ length (sys_aflxes s) = length (sys_aflxes e) + i
        ∧ length (sys_rhses s) = length (sys_rhses e) + i
        ∧ length (sys_fixed_rhses s) = length (sys_fixed_rhses e) + i)
      n 0 b tt e) as ([] & e' & Hrun & Hinv)
  end.
  - split_and!; [done|lia..].
  - intros i [] s _ (Hsetup & Hmats & Haflxes & Hrhses & Hfixed).
    eff_run.
    do 3 (erewrite bind_Done;
          [|apply assign_element_run; simpl; rewrite length_app; simpl; lia];
          eff_run).
    rewrite assign_element_run by (simpl; rewrite length_app; simpl; lia).
    eexists tt, _. split; [reflexivity|]. simpl.
    rewrite !length_insert, !length_app. simpl. split_and!; [done|lia..].
  - exists e'. split; [exact Hrun|]. simpl in Hinv. exact Hinv.
Qed.

Lemma initialize_system_matrices_vectors_unfold (e : EquationBase) dsp local_dofs
    (sflxes_proc : list Vector) :
  initialize_system_matrices_vectors dsp local_dofs sflxes_proc e
  = (create_components dsp local_dofs ;;
     ng <- gets n_group ;;
     AssertThrow (bool_decide (length sflxes_proc = ng))
       "sflxes_proc has to be initilized in size outside" ;;
     for_from 0 ng (λ g sflxes_proc,
       aflx <- element sys_aflxes g ;;
       _ <- defined (sflxes_proc !! g) ;;
       ret (<[g := vec_fill 1 aflx]> sflxes_proc)) sflxes_proc) e.
Proof.
  unfold initialize_system_matrices_vectors, create_components.
  by rewrite !bind_bind.
Qed.

(** C9.  The size precondition of [initialize_system_matrices_vectors].
    When [sflxes_proc] does not have [n_group] elements the call throws
    "sflxes_proc has to be initilized in size outside".  When it has, on
    an object whose four per-component collections are still empty and
    that has at least as many components as groups, the call returns and
    the system matrices, the solution vectors, the right-hand sides and
    the fixed right-hand sides are [n_total_vars] each. *)
Theorem initialize_system_matrices_vectors_sizes (e : EquationBase) dsp local_dofs
    (sflxes_proc : list Vector) :
  (length sflxes_proc ≠ n_group e →
     ∃ e', initialize_system_matrices_vectors dsp local_dofs sflxes_proc e
           = Thrown "sflxes_proc has to be initilized in size outside" e')
  ∧ (length sflxes_proc = n_group e →
     collection_sizes e = (0, 0, 0, 0) →
     n_group e ≤ n_total_vars e →
     ∃ sflxes_proc' e',
       initialize_system_matrices_vectors dsp local_dofs sflxes_proc e
       = Done sflxes_proc' e'
       ∧ collection_sizes e'
         = (n_total_vars e, n_total_vars e, n_total_vars e, n_total_vars e)).
Proof.
  rewrite initialize_system_matrices_vectors_unfold.
  destruct (create_components_run e dsp local_dofs)
    as (e1 & Hrun & Hsetup & Hmats & Haflxes & Hrhses & Hfixed).
  rewrite (bind_Done _ _ _ _ _ Hrun). eff_run.
  assert (n_group e1 = n_group e) as -> by (unfold setup in Hsetup; by simplify_eq).
  split.
  - intros Hsize. exists e1. rewrite bool_decide_eq_false_2 by done. by eff_run.
  - intros Hsize Hempty Hle. unfold collection_sizes in Hempty.
    rewrite bool_decide_eq_true_2 by done. eff_run.
    match goal with |- ∃ _ _, for_from 0 ?n ?b ?a _ = _ ∧ _ =>
      destruct (for_from_total (λ (g : nat) (sflxes : list Vector) s,
          s = e1 ∧ length sflxes = n_group e) n 0 b a e1)
        as (sflxes' & e' & Hloop & -> & _)
    end.
    + done.
    + intros g sflxes s Hg (-> & Hlen).
      destruct (lookup_lt_is_Some_2 (sys_aflxes e1) g) as [aflx Haflx]; [lia|].
      destruct (lookup_lt_is_Some_2 sflxes g) as [sflx Hsflx]; [lia|].
      eexists _, e1. unfold bind, element. rewrite Haflx. simpl. rewrite Hsflx.
      simpl. split; [reflexivity|]. by rewrite length_insert.
    + exists sflxes', e1. split; [exact Hloop|]. unfold collection_sizes.
      simplify_eq. repeat f_equal; lia.
Qed.

End Claims.

(** ** The index maps *)

Lemma add_components_keeps keys :
  ∀ ind maps key j,
  key ∉ keys → j < ind →
  fst (add_components keys ind maps) !! key = fst maps !! key
  ∧ snd (add_components keys ind maps) !! j = snd maps !! j.
Proof.
  induction keys as [|key' keys IH]; intros ind maps key j Hkey Hj; simpl; [done|].
  apply not_elem_of_cons in Hkey as [Hne Hkey].
  destruct (IH (S ind) (<[key' := ind]> (fst maps), <[ind := key']> (snd maps))
              key j Hkey ltac:(lia)) as [-> ->]. simpl.
  rewrite !lookup_insert_ne by (done || lia). done.
Qed.

(** Both maps are extended in lockstep: the pair at position [i] of the
    ordering gets the index [ind + i], and that index gets the pair. *)
Lemma add_components_lookup keys :
  ∀ ind maps i key,
  NoDup keys → keys !! i = Some key →
  fst (add_components keys ind maps) !! key = Some (ind + i)
  ∧ snd (add_components keys ind maps) !! (ind + i) = Some key.
Proof.
  induction keys as [|key' keys IH]; intros ind maps i key Hnodup Hi; [done|].
  apply NoDup_cons in Hnodup as [Hfresh Hnodup]. simpl.
  destruct i as [|i]; simpl in Hi.
  - injection Hi as ->. rewrite Nat.add_0_r.
    destruct (add_components_keeps keys (S ind)
                (<[key := ind]> (fst maps), <[ind := key]> (snd maps))
                key ind Hfresh ltac:(lia)) as [-> ->].
    simpl. by rewrite !lookup_insert_eq.
  - replace (ind + S i) with (S ind + i) by lia. by apply IH.
Qed.

Lemma component_keys_NoDup n_dir n_group : NoDup (component_keys n_dir n_group).
Proof.
  unfold component_keys. apply NoDup_bind; [| |apply NoDup_seq].
  - intros g1 g2 key _ _ (d1 & -> & _)%list_elem_of_fmap (d2 & [= _ ->] & _)%list_elem_of_fmap.
    done.
  - intros g _. apply NoDup_fmap_2; [|apply NoDup_seq]. by intros d1 d2 [= ->].
Qed.

Lemma elem_of_component_keys n_dir n_group i_dir g :
  (i_dir, g) ∈ component_keys n_dir n_group ↔ i_dir < n_dir ∧ g < n_group.
Proof.
  unfold component_keys. rewrite list_elem_of_bind. split.
  - intros (g' & (d & [= -> ->] & Hd%elem_of_seq)%list_elem_of_fmap & Hg%elem_of_seq).
    lia.
  - intros [Hd Hg]. exists g. split; [|apply elem_of_seq; lia].
    apply list_elem_of_fmap. exists i_dir. split; [done|]. apply elem_of_seq. lia.
Qed.

Lemma length_component_keys n_dir n_group :
  length (component_keys n_dir n_group) = n_dir * n_group.
Proof.
  unfold component_keys.
  assert (∀ l : list nat,
    length (l ≫= λ g, (λ i_dir, (i_dir, g)) <$> seq 0 n_dir) = n_dir * length l)
    as Hlen.
  { induction l as [|g l IH]; csimpl; [lia|].
    rewrite length_app, length_fmap, length_seq, IH. lia. }
  by rewrite Hlen, length_seq.
Qed.

(** The maps of the angular quadrature are inverse to each other on the
    valid pairs. *)
Lemma make_aq_maps n_dir n_group weights i_dir g :
  i_dir < n_dir → g < n_group →
  ∃ k, k < n_dir * n_group
    ∧ get_component_index_map (make_aq n_dir n_group weights) !! (i_dir, g) = Some k
    ∧ get_inv_component_map (make_aq n_dir n_group weights) !! k = Some (i_dir, g).
Proof.
  intros Hd Hg.
  assert ((i_dir, g) ∈ component_keys n_dir n_group) as [i Hi]%list_elem_of_lookup_1
    by by apply elem_of_component_keys.
  destruct (add_components_lookup _ 0 (∅, ∅) i (i_dir, g)
              (component_keys_NoDup n_dir n_group) Hi) as [Hindex Hinverse].
  exists i. split; [|done].
  apply lookup_lt_Some in Hi. by rewrite length_component_keys in Hi.
Qed.

Section IndexMaps.
Context `{Collaborators} `{!Integrators}.

(** C1.  The index maps are exact inverses on the valid pairs.  On an
    equation object as its constructor leaves it, for every direction
    below [n_dir] and every group below [n_group],
    [get_component_index (direction, group)] returns a component index
    [k] below [n_dir * n_group] for which [get_component_direction (k)]
    returns the direction and [get_component_group (k)] the group; none
    of the three calls changes the object. *)
Theorem component_index_inverse dim name prm n_dir n_group weights mat_ptr
    this_mpi_process cells i_dir g :
  i_dir < n_dir → g < n_group →
  let e := EquationBase_new dim name prm (make_aq n_dir n_group weights) mat_ptr
             this_mpi_process cells in
  ∃ k, k < n_dir * n_group
    ∧ get_component_index i_dir g e = Done k e
    ∧ get_component_direction k e = Done i_dir e
    ∧ get_component_group k e = Done g e.
Proof.
  intros Hd Hg e.
  destruct (make_aq_maps n_dir n_group weights i_dir g Hd Hg)
    as (k & Hk & Hindex & Hinverse).
  exists k. split; [done|].
  unfold get_component_index, get_component_direction, get_component_group.
  assert (component_index e = get_component_index_map (make_aq n_dir n_group weights))
    as -> by done.
  assert (inverse_component_index e
          = get_inv_component_map (make_aq n_dir n_group weights)) as -> by done.
  rewrite (map_subscript_present _ _ _ _ Hindex),
    (map_subscript_present _ _ _ _ Hinverse).
  done.
Qed.

End IndexMaps.

(** ** Moment generation *)

Lemma weighted_sum_at_ones weights fluxes n j :
  j < n → Forall (λ aflx, aflx = replicate n 1%float) fluxes →
  length fluxes ≤ length weights →
  weighted_sum_at weights fluxes j = sum_of_weights (take (length fluxes) weights).
Proof.
  intros Hj Hones. unfold weighted_sum_at, sum_of_weights.
  revert weights. assert (∀ weights acc, length fluxes ≤ length weights →
    fold_left (λ acc wa, acc + wa.1 * default 0 (wa.2 !! j))%float
      (zip weights fluxes) acc
    = fold_left (λ acc w, acc + w)%float (take (length fluxes) weights) acc)
    as Hfold; [|intros; by apply Hfold].
  induction Hones as [|aflx fluxes -> _ IH]; intros weights acc Hlen.
  - by destruct weights.
  - destruct weights as [|w weights]; simpl in *; [lia|].
    rewrite lookup_replicate_2 by done. simpl. rewrite float_mul_1_r.
    apply IH. lia.
Qed.

Section Moments.
Context `{Collaborators} `{!Integrators}.

Lemma get_component_index_run (e : EquationBase) i_dir g :
  ∃ e', get_component_index i_dir g e = Done (component_of e i_dir g) e'
    ∧ (∀ d g', component_of e' d g' = component_of e d g')
    ∧ sys_aflxes e' = sys_aflxes e ∧ wi e' = wi e
    ∧ aflxes_proc e' = aflxes_proc e.
Proof.
  eexists. split; [reflexivity|]. split_and!; [|done..].
  intros d g'. unfold component_of. simpl. apply (map_subscript_value 0).
Qed.

Lemma add_direction_run (e : EquationBase) i i_dir (sflx aflx : Vector) w :
  sys_aflxes e !! i = Some aflx → i < length (aflxes_proc e) →
  wi e !! i_dir = Some w → length sflx = length aflx →
  add_direction i i_dir sflx e
  = Done (zip_with (λ x y, x + w * y)%float sflx aflx)
         (set_aflxes_proc (λ v, <[i := aflx]> v) e).
Proof.
  intros Haflx Hi Hw Hlen. unfold add_direction, element.
  unfold bind at 1. rewrite Haflx. simpl.
  erewrite bind_Done; [|by apply assign_element_run].
  unfold bind at 1. simpl. rewrite Hw. simpl.
  unfold bind. simpl. rewrite list_lookup_insert_eq by done. simpl.
  unfold vec_add. by rewrite decide_True.
Qed.

(** C7.  Moment generation for one group.  For an equation that is not
    "nda", whose angular fluxes of the group [g] are [fluxes], one per
    direction, each of the size of [sflx_proc],
    [generate_moments (sflx_proc, sflx_proc_old, g)] returns with the old
    scalar flux in [sflx_proc_old] and, in every entry of [sflx_proc],
    the sum over the directions of [wi[i_dir]] times the angular flux of
    component [get_component_index (i_dir, g)]; when every angular flux
    is uniformly 1.0, the scalar flux is uniformly the sum of the
    weights. *)
Theorem generate_moments_weighted_sum (e : EquationBase)
    (sflx_proc sflx_proc_old : Vector) (g : nat) (fluxes : list Vector) :
  equation_name e ≠ "nda" →
  length fluxes = n_dir e →
  n_dir e ≤ length (wi e) →
  (∀ i_dir aflx, fluxes !! i_dir = Some aflx →
     sys_aflxes e !! component_of e i_dir g = Some aflx
     ∧ component_of e i_dir g < length (aflxes_proc e)
     ∧ length aflx = length sflx_proc) →
  ∃ sflx e',
    generate_moments_group sflx_proc sflx_proc_old g e = Done (sflx, sflx_proc) e'
    ∧ length sflx = length sflx_proc
    ∧ (∀ j, j < length sflx_proc →
         sflx !! j = Some (weighted_sum_at (wi e) fluxes j))
    ∧ (Forall (λ aflx, aflx = replicate (length sflx_proc) 1%float) fluxes →
       sflx = replicate (length sflx_proc)
                (sum_of_weights (take (n_dir e) (wi e)))).
Proof.
  intros Hname Hfluxes Hweights Hcomponents.
  unfold generate_moments_group. eff_run.
  apply String.eqb_neq in Hname. rewrite Hname. simpl. eff_run.
  set (n := length sflx_proc). set (pairs := zip (wi e) fluxes).
  assert (length pairs = n_dir e) as Hpairs
    by (unfold pairs; rewrite length_zip; lia).
  match goal with |- ∃ _ _, bind (for_from 0 ?nd ?b ?a) _ _ = _ ∧ _ =>
    destruct (for_from_total (λ i (sflx : Vector) s,
        sys_aflxes s = sys_aflxes e ∧ wi s = wi e
        ∧ (∀ d g', component_of s d g' = component_of e d g')
        ∧ length (aflxes_proc s) = length (aflxes_proc e)
        ∧ length sflx = n
        ∧ ∀ j, j < n →
            sflx !! j
            = Some (fold_left (λ acc wa, acc + wa.1 * default 0 (wa.2 !! j))%float
                      (take i pairs) 0%float)) nd 0 b a e)
      as (sflx & e' & Hrun & _ & _ & _ & _ & Hlen & Hsum)
  end.
  - split_and!; [done..|apply length_replicate|].
    intros j Hj. rewrite take_0. simpl. unfold vec_fill. by apply lookup_replicate_2.
  - intros i sflx s Hi (Haflxes & Hwi & Hcomp & Hproc & Hlen & Hsum).
    destruct (lookup_lt_is_Some_2 pairs i) as [[w aflx] Hpair]; [lia|].
    apply lookup_zip_with_Some in Hpair as (w' & aflx' & [= <- <-] & Hw & Haflx).
    destruct (Hcomponents i aflx Haflx) as (Hsys & Hrange & Hsize).
    destruct (get_component_index_run s i g) as (s1 & Hrun1 & Hcomp1 & Haflxes1 & Hwi1 & Hproc1).
    rewrite (bind_Done _ _ _ _ _ Hrun1). rewrite Hcomp.
    rewrite (add_direction_run s1 _ i sflx aflx w);
      [|by rewrite Haflxes1, Haflxes|by rewrite Hproc1, Hproc
       |by rewrite Hwi1, Hwi|by rewrite Hlen, Hsize].
    eexists _, _. split; [reflexivity|]. simpl.
    split_and!; [by rewrite Haflxes1, Haflxes|by rewrite Hwi1, Hwi| | | |].
    + intros d g'. transitivity (component_of s1 d g'); [done|].
      by rewrite Hcomp1.
    + by rewrite length_insert, Hproc1.
    + rewrite length_zip_with. lia.
    + intros j Hj.
      assert (take (S i) pairs = take i pairs ++ [(w, aflx)]) as ->.
      { apply take_S_r. unfold pairs. apply lookup_zip_with_Some. eauto. }
      rewrite fold_left_app. simpl. rewrite lookup_zip_with, (Hsum j Hj). simpl.
      destruct (lookup_lt_is_Some_2 aflx j) as [y Hy]; [lia|]. by rewrite Hy.
  - exists sflx, e'. rewrite (bind_Done _ _ _ _ _ Hrun). split; [done|].
    assert (∀ j, j < n → sflx !! j = Some (weighted_sum_at (wi e) fluxes j)) as Hentries.
    { intros j Hj. rewrite (Hsum j Hj). unfold weighted_sum_at. fold pairs.
      by rewrite take_ge by lia. }
    split_and!; [done|done|].
    intros Hones. apply list_eq. intros j.
    destruct (decide (j < n)) as [Hj|Hj].
    + rewrite (Hentries j Hj), lookup_replicate_2 by done.
      rewrite (weighted_sum_at_ones _ _ n) by (done || lia). by rewrite Hfluxes.
    + rewrite !lookup_ge_None_2; [done|rewrite length_replicate; lia|lia].
Qed.

End Moments.

(** ** The state of the object during an assembly *)

Lemma drop_lookup_cons {A} (l : list A) i x l' :
  drop i l = x :: l' → l !! i = Some x ∧ drop (S i) l = l'.
Proof.
  intros Hdrop. split.
  - rewrite <- (Nat.add_0_r i), <- lookup_drop. by rewrite Hdrop.
  - replace (S i) with (i + 1) by lia. rewrite <- drop_drop. by rewrite Hdrop.
Qed.

Lemma returns_as_bind {St A A' B B'} (c : Eff St A) (k : A → Eff St A') s
    (r : option B) (f : B → option B') post post' :
  returns_as (c s) r post →
  (∀ b a s', post b a s' → returns_as (k a s') (f b) post') →
  returns_as (bind c k s) (r ≫= f) post'.
Proof.
  destruct r as [b|]; simpl.
  - intros (a & s' & Hrun & Hpost) Hnext. rewrite (bind_Done _ _ _ _ _ Hrun).
    by apply Hnext.
  - intros Hrun _. by apply bind_Undefined.
Qed.

Lemma returns_as_mono {St A B} (o : Outcome St A) (r : option B)
    (post post' : B → A → St → Prop) :
  returns_as o r post → (∀ b a s, post b a s → post' b a s) →
  returns_as o r post'.
Proof.
  destruct r as [b|]; simpl; [|done].
  intros (a & s & Hrun & Hpost) Himp. exists a, s. split; [done|]. by apply Himp.
Qed.

Lemma returns_as_Done {St A B} (o : Outcome St A) (r : option B) post a s :
  returns_as o r post → o = Done a s → ∃ b, r = Some b ∧ post b a s.
Proof.
  destruct r as [b|]; simpl.
  - intros (a' & s' & -> & Hpost) [= <- <-]. eauto.
  - by intros ->.
Qed.

Section Runs.
Context `{Collaborators} `{!Integrators}.

Lemma element_run {A} (member : EquationBase → list A) i (s : EquationBase) :
  element member i s
  = match member s !! i with Some a => Done a s | None => Undefined end.
Proof. reflexivity. Qed.

Lemma get_local_dof_indices_run cell (s : EquationBase) :
  get_local_dof_indices cell s
  = match dof_handler s !! cell with
    | Some c => Done tt (set_local_dof_indices (λ _, dof_indices c) s)
    | None => Undefined
    end.
Proof.
  unfold get_local_dof_indices, dereference, bind. rewrite element_run.
  by destruct (dof_handler s !! cell).
Qed.

Lemma get_neigh_dof_indices_run neigh (s : EquationBase) :
  get_neigh_dof_indices neigh s
  = match dof_handler s !! neigh with
    | Some n => Done tt (set_neigh_dof_indices (λ _, dof_indices n) s)
    | None => Undefined
    end.
Proof.
  unfold get_neigh_dof_indices, dereference, bind. rewrite element_run.
  by destruct (dof_handler s !! neigh).
Qed.

Lemma at_boundary_of cell fn (s : EquationBase) c :
  dof_handler s !! cell = Some c →
  at_boundary cell fn s
  = match faces c !! fn with
    | Some BoundaryFace => Done true s
    | Some (InteriorFace _ _) => Done false s
    | None => Undefined
    end.
Proof.
  intros Hc. unfold at_boundary, face, dereference, bind. rewrite element_run, Hc.
  unfold defined. by destruct (faces c !! fn) as [[]|].
Qed.

(** The loop over the faces of a cell at the boundary. *)
Lemma boundary_faces_run {A} cell c (integrate : EquationBase → nat → A → A)
    (s : EquationBase) :
  dof_handler s !! cell = Some c →
  ∀ fns a,
  for_list fns (λ fn a,
    bd <- at_boundary cell fn ;;
    if bd then e <- gets id ;; ret (integrate e fn a) else ret a) a s
  = match integrate_boundary_faces c (integrate s) fns a with
    | Some a' => Done a' s
    | None => Undefined
    end.
Proof.
  intros Hc. induction fns as [|fn fns IH]; intros a; simpl; [done|].
  unfold bind at 1. unfold bind at 1. rewrite (at_boundary_of cell fn s c Hc).
  destruct (faces c !! fn) as [[|neigh neigh_fn]|]; simpl; [apply IH..|done].
Qed.

Lemma over_boundary_faces_run {A} ic cell c
    (integrate : EquationBase → nat → A → A) a (s : EquationBase) :
  dof_handler s !! cell = Some c →
  over_boundary_faces ic cell integrate a s
  = match integrate_boundary s ic c (integrate s) a with
    | Some a' => Done a' s
    | None => Undefined
    end.
Proof.
  intros Hc. unfold over_boundary_faces, integrate_boundary, bind at 1.
  rewrite element_run. destruct (is_cell_at_bd s !! ic) as [[]|]; simpl; [|done..].
  eff_run. rewrite for_from_for_list. by apply boundary_faces_run.
Qed.

Lemma add_to_vector_run (member : EquationBase → list Vector) set_member k
    cell_rhs (s : EquationBase) :
  add_to_vector member set_member k cell_rhs s
  = match member s !! k ≫= vec_add_at (local_dof_indices s) cell_rhs with
    | Some v => Done tt (set_member (λ vs, <[k := v]> vs) s)
    | None => Undefined
    end.
Proof.
  unfold add_to_vector. eff_run. unfold bind at 1. rewrite element_run.
  destruct (member s !! k) as [v|] eqn:Hv; simpl; [|done].
  unfold bind, defined.
  destruct (vec_add_at (local_dof_indices s) cell_rhs v) as [v'|]; [|done].
  unfold assign_element. rewrite decide_True; [done|]. by eapply lookup_lt_Some.
Qed.

Lemma set_local_dof_indices_twice local local' (s : EquationBase) :
  set_local_dof_indices (λ _, local') (set_local_dof_indices (λ _, local) s)
  = set_local_dof_indices (λ _, local') s.
Proof. reflexivity. Qed.

Lemma set_sys_rhses_at_cell f local rhses (e : EquationBase) :
  set_sys_rhses f
    (set_local_dof_indices (λ _, local) (set_sys_rhses (λ _, rhses) e))
  = set_local_dof_indices (λ _, local) (set_sys_rhses (λ _, f rhses) e).
Proof. reflexivity. Qed.

(** Reading the group or the direction of a component records it. *)
Lemma get_component_group_run k (s : EquationBase) :
  get_component_group k s = Done (group_of s k) (recorded k s).
Proof. reflexivity. Qed.

Lemma get_component_direction_run k (s : EquationBase) :
  get_component_direction k s = Done (direction_of s k) (recorded k s).
Proof. reflexivity. Qed.

Lemma recorded_twice k (s : EquationBase) : recorded k (recorded k s) = recorded k s.
Proof.
  unfold recorded, set_inverse_component_index. simpl.
  by rewrite lookup_insert_eq, insert_insert_eq.
Qed.

Lemma group_of_recorded k k' (s : EquationBase) :
  group_of (recorded k s) k' = group_of s k'.
Proof. apply group_of_subscript. Qed.

Lemma direction_of_recorded k k' (s : EquationBase) :
  direction_of (recorded k s) k' = direction_of s k'.
Proof. apply direction_of_subscript. Qed.

(** *** The sweep right-hand side *)

(** The loop over the local cells in [assemble_linear_form], from the
    [ic]-th cell on. *)
Lemma linear_form_cells_run (e : EquationBase) sflxes_proc g i_dir k :
  ∀ cells ic rhses local,
  drop ic (local_cells e) = cells →
  returns_as
    (for_from ic (length cells) (λ ic (_ : unit),
       dofs <- gets dofs_per_cell ;;
       cell <- element local_cells ic ;;
       get_local_dof_indices cell ;;
       e <- gets id ;;
       cell_rhs <- over_boundary_faces ic cell
         (λ e fn cell_rhs,
            integrate_boundary_linear_form e cell fn cell_rhs g i_dir)
         (integrate_scattering_linear_form e cell (replicate dofs 0%float)
            sflxes_proc g i_dir) ;;
       add_to_vector sys_rhses set_sys_rhses k cell_rhs) tt
       (set_local_dof_indices (λ _, local) (set_sys_rhses (λ _, rhses) e)))
    (add_linear_form_cells e sflxes_proc g i_dir k ic cells rhses)
    (λ rhses' _ s',
       ∃ local',
         s' = set_local_dof_indices (λ _, local')
                (set_sys_rhses (λ _, rhses') e)).
Proof.
  induction cells as [|cell cells IH]; intros ic rhses local Hdrop; simpl.
  { eexists tt, _. split; [reflexivity|]. by exists local. }
  apply drop_lookup_cons in Hdrop as [Hcell Hdrop].
  eff_run. unfold bind at 1. rewrite element_run. simpl. rewrite Hcell.
  rewrite bind_bind. unfold bind at 1. rewrite get_local_dof_indices_run. simpl.
  destruct (dof_handler e !! cell) as [c|] eqn:Hc; simpl; [|done].
  eff_run. unfold bind at 1.
  rewrite (over_boundary_faces_run ic cell c) by exact Hc.
  unfold linear_form_of_cell, at_cell_of_linear_form, id. cbv beta zeta.
  rewrite !set_local_dof_indices_twice.
  match goal with |- context [integrate_boundary ?s ic c ?f ?a] =>
    destruct (integrate_boundary s ic c f a) as [cell_rhs|]; simpl; [|done]
  end.
  unfold bind at 1. rewrite add_to_vector_run. simpl.
  destruct (rhses !! k) as [v|]; simpl; [|done].
  destruct (vec_add_at (dof_indices c) cell_rhs v) as [v'|]; simpl; [|done].
  rewrite set_sys_rhses_at_cell. apply IH, Hdrop.
Qed.

Lemma recorded_at_cell k local rhses (e : EquationBase) :
  recorded k
    (set_local_dof_indices (λ _, local) (set_sys_rhses (λ _, rhses) e))
  = set_local_dof_indices (λ _, local) (set_sys_rhses (λ _, rhses) (recorded k e)).
Proof. reflexivity. Qed.

(** The body of the [if] in [assemble_linear_form], for component [k]. *)
Lemma assemble_linear_form_component_run (e : EquationBase) sflxes_proc g k
    rhses local :
  returns_as
    (assemble_linear_form_component sflxes_proc g k
       (set_local_dof_indices (λ _, local) (set_sys_rhses (λ _, rhses) e)))
    (linear_form_of_component (recorded k e) sflxes_proc g k rhses)
    (λ rhses' _ s',
       ∃ local',
         s' = set_local_dof_indices (λ _, local')
                (set_sys_rhses (λ _, rhses') (recorded k e))).
Proof.
  unfold assemble_linear_form_component, linear_form_of_component.
  rewrite (bind_Done _ _ _ _ _ (get_component_direction_run k _)).
  rewrite recorded_at_cell. unfold bind at 1. rewrite element_run. simpl.
  destruct (sys_fixed_rhses e !! k) as [fixed|]; simpl; [|done].
  unfold bind at 1, assign_element at 1. simpl.
  case_decide as Hk; [|done]. simpl. eff_run. rewrite set_sys_rhses_at_cell.
  unfold for_range. simpl. rewrite direction_of_recorded.
  change (direction_of _ k) with (direction_of e k).
  apply (linear_form_cells_run (recorded k e) sflxes_proc g (direction_of e k) k
           (local_cells e) 0). apply drop_0.
Qed.

(** The loop over the components in [assemble_linear_form]. *)
Lemma assemble_linear_form_loop_run sflxes_proc g :
  ∀ cnt lo (e : EquationBase) rhses local,
  returns_as
    (for_from lo cnt (λ k (_ : unit),
       gk <- get_component_group k ;;
       if decide (gk = g)
       then assemble_linear_form_component sflxes_proc g k
       else ret tt) tt
       (set_local_dof_indices (λ _, local) (set_sys_rhses (λ _, rhses) e)))
    (linear_form_of_components (seq lo cnt) e sflxes_proc g rhses)
    (λ rhses' _ s', sys_rhses s' = rhses').
Proof.
  induction cnt as [|cnt IH]; intros lo e rhses local; simpl.
  { by eexists tt, _. }
  apply returns_as_bind
    with (post := λ rhses' (_ : unit) s',
            ∃ local',
              s' = set_local_dof_indices (λ _, local')
                     (set_sys_rhses (λ _, rhses') (recorded lo e))).
  - rewrite (bind_Done _ _ _ _ _ (get_component_group_run lo _)).
    rewrite recorded_at_cell.
    change (group_of _ lo) with (group_of e lo).
    case_decide as Hg.
    + pose proof (assemble_linear_form_component_run (recorded lo e)
                    sflxes_proc g lo rhses local) as Hrun.
      by rewrite !recorded_twice in Hrun.
    + eexists tt, _. split; [reflexivity|]. by exists local.
  - intros rhses' [] s' [local' ->]. apply IH.
Qed.

Lemma as_at_cell_of_linear_form (e : EquationBase) :
  e = set_local_dof_indices (λ _, local_dof_indices e)
        (set_sys_rhses (λ _, sys_rhses e) e).
Proof. by destruct e. Qed.

(** [assemble_linear_form] returns exactly when the sweep right-hand
    sides are defined, and leaves them in [sys_rhses]. *)
Lemma assemble_linear_form_run (e : EquationBase) sflxes_proc g :
  returns_as (assemble_linear_form sflxes_proc g e)
    (sweep_right_hand_sides sflxes_proc g e)
    (λ rhses' _ e', sys_rhses e' = rhses').
Proof.
  unfold assemble_linear_form, sweep_right_hand_sides, for_range. eff_run.
  rewrite (as_at_cell_of_linear_form e) at 2.
  apply assemble_linear_form_loop_run.
Qed.

End Runs.

(** ** The sweep right-hand side *)

Lemma add_contributions_snoc contributions indices values v v' v'' :
  add_contributions contributions v = Some v' →
  vec_add_at indices values v' = Some v'' →
  add_contributions (contributions ++ [(indices, values)]) v = Some v''.
Proof.
  revert v. induction contributions as [|[i x] cs IH]; intros v; simpl.
  - intros [= ->] ->. done.
  - destruct (vec_add_at i x v) as [v1|]; [|done]. apply IH.
Qed.

Section LinearForm.
Context `{Collaborators} `{!Integrators}.

Lemma element_Done {A} (member : EquationBase → list A) i (e e' : EquationBase) a :
  element member i e = Done a e' → e' = e ∧ member e !! i = Some a.
Proof. unfold element, defined. destruct (member e !! i); naive_solver. Qed.

Lemma assign_element_Done {A} (member : EquationBase → list A) set_member i x
    (e e' : EquationBase) :
  assign_element member set_member i x e = Done tt e' →
  i < length (member e) ∧ e' = set_member (λ v, <[i := x]> v) e.
Proof. unfold assign_element. case_decide; naive_solver. Qed.

Lemma get_local_dof_indices_Done cell (e e' : EquationBase) :
  get_local_dof_indices cell e = Done tt e' →
  ∃ c, dof_handler e !! cell = Some c
    ∧ e' = set_local_dof_indices (λ _, dof_indices c) e.
Proof.
  unfold get_local_dof_indices, dereference.
  intros (c & e1 & [-> Hc]%element_Done & Hrest)%bind_Done_inv.
  exists c. split; [done|]. by injection Hrest.
Qed.

Lemma over_boundary_faces_keeps_state {A} ic cell
    (integrate : EquationBase → nat → A → A) a :
  keeps (λ e : EquationBase, e) (over_boundary_faces ic cell integrate a).
Proof. solve_keeps. Qed.

Lemma add_to_vector_Done member set_member k cell_rhs (e e' : EquationBase) :
  add_to_vector member set_member k cell_rhs e = Done tt e' →
  ∃ v v', member e !! k = Some v
    ∧ vec_add_at (local_dof_indices e) cell_rhs v = Some v'
    ∧ e' = set_member (λ l, <[k := v']> l) e.
Proof.
  unfold add_to_vector. eff_run.
  intros (v & e1 & [-> Hv]%element_Done & Hrest)%bind_Done_inv.
  apply bind_Done_inv in Hrest as (v' & e1 & Hadd & Hrest).
  unfold defined in Hadd. destruct (vec_add_at _ _ _) as [v''|] eqn:Hv'; [|done].
  injection Hadd as -> ->.
  apply assign_element_Done in Hrest as [_ ->]. eauto.
Qed.

Lemma assemble_linear_form_component_keeps_setup sflxes_proc g k :
  keeps setup (assemble_linear_form_component sflxes_proc g k).
Proof. solve_keeps. Qed.

Lemma assemble_linear_form_component_keeps_fixed sflxes_proc g k :
  keeps sys_fixed_rhses (assemble_linear_form_component sflxes_proc g k).
Proof. solve_keeps. Qed.

Lemma assemble_linear_form_component_keeps_group sflxes_proc g k k' :
  keeps (λ e, group_of e k') (assemble_linear_form_component sflxes_proc g k).
Proof. solve_keeps. Qed.

Lemma assemble_linear_form_keeps_mats sflxes_proc g :
  keeps sys_mats (assemble_linear_form sflxes_proc g).
Proof. solve_keeps. Qed.

Lemma assemble_linear_form_keeps_fixed sflxes_proc g :
  keeps sys_fixed_rhses (assemble_linear_form sflxes_proc g).
Proof. solve_keeps. Qed.

Lemma get_component_group_Done k (e e' : EquationBase) gk :
  get_component_group k e = Done gk e' →
  gk = group_of e k
  ∧ e' = set_inverse_component_index
           (λ _, snd (map_subscript (0, 0) (inverse_component_index e) k)) e.
Proof. by intros [= <- <-]. Qed.

Lemma setup_mesh (e e' : EquationBase) :
  setup e' = setup e →
  dof_handler e' = dof_handler e ∧ local_cells e' = local_cells e
  ∧ n_total_vars e' = n_total_vars e.
Proof. unfold setup. intros Heq. by simplify_eq. Qed.

(** One component of the group: its sweep right-hand side becomes the
    fixed one plus the cell contributions, the others are not touched. *)
Lemma assemble_linear_form_component_rhs sflxes_proc g k (e e' : EquationBase) :
  assemble_linear_form_component sflxes_proc g k e = Done tt e' →
  (∀ k', k' ≠ k → sys_rhses e' !! k' = sys_rhses e !! k')
  ∧ fixed_plus_contributions e k (sys_rhses e' !! k).
Proof.
  unfold assemble_linear_form_component.
  intros (i_dir & e0 & Hdir & Hrun)%bind_Done_inv.
  unfold get_component_direction in Hdir. simpl in Hdir. injection Hdir as <- <-.
  apply bind_Done_inv in Hrun as (fixed & e0 & [-> Hfixed]%element_Done & Hrun).
  apply bind_Done_inv in Hrun as ([] & e1 & [Hk ->]%assign_element_Done & Hrun).
  revert Hrun. eff_run. simpl. unfold for_range.
  set (e0 := set_inverse_component_index _ e).
  set (e1 := set_sys_rhses _ e0).
  intros Hloop.
  eapply (for_from_partial (λ ic (_ : unit) s,
      setup s = setup e
      ∧ (∀ k', k' ≠ k → sys_rhses s !! k' = sys_rhses e !! k')
      ∧ ∃ contributions v,
          of_local_cells e (take ic (local_cells e)) contributions
          ∧ add_contributions contributions fixed = Some v
          ∧ sys_rhses s !! k = Some v)) in Hloop.
  - simpl in Hloop. destruct Hloop as (_ & Hothers & contributions & v & Hcells & Hsum & Hrhs).
    split; [done|]. exists fixed, contributions, v. split_and!; [done| |done..].
    by rewrite take_ge in Hcells by done.
  - split_and!; [done| |].
    + intros k' Hne. unfold e1. simpl. by rewrite list_lookup_insert_ne.
    + exists [], fixed. split_and!; [constructor|done|].
      unfold e1. simpl. by rewrite list_lookup_insert_eq.
  - intros ic [] s [] s' Hic (Hsetup & Hothers & contributions & v & Hcells & Hsum & Hrhs).
    destruct (setup_mesh _ _ Hsetup) as (Hmesh & Hlocal & _).
    eff_run.
    intros (cell & s0 & [-> Hcell]%element_Done & Hrun)%bind_Done_inv.
    apply bind_Done_inv in Hrun
      as ([] & s1 & (c & Hc & ->)%get_local_dof_indices_Done & Hrun).
    revert Hrun. eff_run.
    intros (cell_rhs & s2 & Hfaces & Hrun)%bind_Done_inv.
    pose proof (keeps_Done _ _ _ _ _ (over_boundary_faces_keeps_state _ _ _ _) Hfaces)
      as Hs2.
    simpl in Hs2. subst s2.
    apply add_to_vector_Done in Hrun as (v0 & v' & Hv0 & Hadd & ->).
    simpl in *. rewrite Hrhs in Hv0. injection Hv0 as <-.
    split_and!; [done| |].
    + intros k' Hne. rewrite list_lookup_insert_ne by done. by apply Hothers.
    + exists (contributions ++ [(dof_indices c, cell_rhs)]), v'. split_and!.
      * rewrite Hlocal in Hcell. rewrite (take_S_r _ _ _ Hcell).
        apply Forall2_app; [done|]. constructor; [|constructor].
        exists c. by rewrite <- Hmesh.
      * by eapply add_contributions_snoc.
      * apply list_lookup_insert_eq. by eapply lookup_lt_Some.
Qed.

(** What [assemble_linear_form] leaves alone, and the shape of what it
    assembles. *)
Lemma assemble_linear_form_parts sflxes_proc g (e e' : EquationBase) :
  assemble_linear_form sflxes_proc g e = Done tt e' →
  sys_mats e' = sys_mats e
  ∧ sys_fixed_rhses e' = sys_fixed_rhses e
  ∧ (∀ k, group_of e k ≠ g → sys_rhses e' !! k = sys_rhses e !! k)
  ∧ (∀ k, k < n_total_vars e → group_of e k = g →
       fixed_plus_contributions e k (sys_rhses e' !! k)).
Proof.
  intros Hrun.
  split; [exact (keeps_Done _ _ _ _ _ (assemble_linear_form_keeps_mats _ _) Hrun)|].
  split; [exact (keeps_Done _ _ _ _ _ (assemble_linear_form_keeps_fixed _ _) Hrun)|].
  revert Hrun. unfold assemble_linear_form. eff_run. unfold for_range. intros Hloop.
  eapply (for_from_partial (λ k (_ : unit) s,
      setup s = setup e
      ∧ sys_fixed_rhses s = sys_fixed_rhses e
      ∧ (∀ k', group_of s k' = group_of e k')
      ∧ (∀ k', ¬ (k' < k ∧ group_of e k' = g) →
               sys_rhses s !! k' = sys_rhses e !! k')
      ∧ ∀ k', k' < k → group_of e k' = g →
              fixed_plus_contributions e k' (sys_rhses s !! k'))) in Hloop.
  - simpl in Hloop. destruct Hloop as (_ & _ & _ & Hothers & Hgroup). split; [|done].
    intros k Hk. apply Hothers. by intros [_ ?].
  - split_and!; [done..|intros; lia].
  - intros k [] s [] s' Hk (Hsetup & Hfixed & Hgroups & Hothers & Hgroup).
    intros (gk & s0 & [-> Hs0]%get_component_group_Done & Hrun)%bind_Done_inv.
    rewrite Hgroups in Hrun.
    assert (∀ k', group_of s0 k' = group_of e k') as Hgroups0.
    { intros k'. rewrite Hs0. by rewrite group_of_subscript. }
    assert (setup s0 = setup e ∧ sys_fixed_rhses s0 = sys_fixed_rhses e
            ∧ sys_rhses s0 = sys_rhses s) as (Hsetup0 & Hfixed0 & Hrhses0)
      by by rewrite Hs0.
    clear Hs0.
    case_decide as Hg.
    + pose proof (keeps_Done _ _ _ _ _
        (assemble_linear_form_component_keeps_setup _ _ _) Hrun) as Hsetup'.
      pose proof (keeps_Done _ _ _ _ _
        (assemble_linear_form_component_keeps_fixed _ _ _) Hrun) as Hfixed'.
      apply assemble_linear_form_component_rhs in Hrun as Hrhs.
      destruct Hrhs as [Hothers' (fixed & contributions & v & Hf & Hcells & Hsum & Hv)].
      destruct (setup_mesh _ _ Hsetup0) as (Hmesh & Hlocal & _).
      split_and!.
      * by rewrite Hsetup'.
      * by rewrite Hfixed'.
      * intros k'. rewrite <- Hgroups0.
        exact (keeps_Done _ _ _ _ _
          (assemble_linear_form_component_keeps_group _ _ _ k') Hrun).
      * intros k' Hk'. rewrite Hothers' by (intros ->; apply Hk'; split; [lia|done]).
        rewrite Hrhses0. apply Hothers. intros [??]. apply Hk'. split; [lia|done].
      * intros k' Hk' Hg'. destruct (decide (k' = k)) as [->|Hne].
        -- exists fixed, contributions, v. split_and!; [by rewrite <- Hfixed0| |done..].
           unfold of_local_cells in *. simpl in Hcells. rewrite <- Hlocal, <- Hmesh.
           exact Hcells.
        -- rewrite Hothers', Hrhses0 by done. apply Hgroup; [lia|done].
    + injection Hrun as <-. split_and!; [done..| |].
      * intros k' Hk'. rewrite Hrhses0. apply Hothers. intros [??]. apply Hk'.
        split; [lia|done].
      * intros k' Hk' Hg'. rewrite Hrhses0. apply Hgroup; [|done].
        destruct (decide (k' = k)) as [->|]; [done|lia].
Qed.

(** C8.  The frame of [assemble_linear_form (sflxes_proc, g)].  When the
    call returns, the system matrices and the fixed right-hand sides are
    what they were; [sys_rhses[k]] is what it was for every component
    [k] whose group is not [g]; and [sys_rhses] is
    [sweep_right_hand_sides]: the components of the group [g] in turn
    are set to [sys_fixed_rhses[k]] and have, for every local cell in
    turn, a local vector added at the degrees of freedom of the cell,
    which is what [integrate_scattering_linear_form] makes of the zero
    vector and [integrate_boundary_linear_form] then adds for each
    boundary face of a cell marked as at the boundary, both on the
    object as it is at that cell. *)
Theorem assemble_linear_form_frame sflxes_proc g (e e' : EquationBase) :
  assemble_linear_form sflxes_proc g e = Done tt e' →
  sys_mats e' = sys_mats e
  ∧ sys_fixed_rhses e' = sys_fixed_rhses e
  ∧ (∀ k, group_of e k ≠ g → sys_rhses e' !! k = sys_rhses e !! k)
  ∧ sweep_right_hand_sides sflxes_proc g e = Some (sys_rhses e').
Proof.
  intros Hrun.
  destruct (assemble_linear_form_parts _ _ _ _ Hrun) as (Hmats & Hfixed & Hothers & _).
  split_and!; [done..|].
  destruct (returns_as_Done _ _ _ _ _ (assemble_linear_form_run e sflxes_proc g) Hrun)
    as (rhses & -> & Hrhses).
  by rewrite Hrhses.
Qed.

Lemma vec_add_at_returns indices values v :
  length indices = length values →
  Forall (λ i, i < length v) indices →
  ∃ v', vec_add_at indices values v = Some v' ∧ length v' = length v.
Proof.
  revert values v.
  induction indices as [|i indices IH]; intros [|x values] v Hlen Hin;
    simplify_eq/=; [by eauto|].
  apply Forall_cons in Hin as [Hi Hin].
  destruct (lookup_lt_is_Some_2 v i Hi) as [y Hy]. rewrite Hy.
  destruct (IH values (<[i := (y + x)%float]> v)) as (v' & Hv' & Hlen').
  - done.
  - by rewrite length_insert.
  - exists v'. by rewrite Hv', Hlen', length_insert.
Qed.

Lemma element_returns {A} (member : EquationBase → list A) i (e : EquationBase) a :
  member e !! i = Some a → element member i e = Done a e.
Proof. unfold element. by intros ->. Qed.

Lemma setup_cells (e e' : EquationBase) :
  setup e' = setup e →
  dof_handler e' = dof_handler e ∧ local_cells e' = local_cells e
  ∧ is_cell_at_bd e' = is_cell_at_bd e ∧ dofs_per_cell e' = dofs_per_cell e
  ∧ faces_per_cell e' = faces_per_cell e ∧ n_total_vars e' = n_total_vars e.
Proof.
  unfold setup, faces_per_cell. intros Heq. simplify_eq.
  repeat split; congruence.
Qed.

(** The loop over the faces of a cell at the boundary returns, on the
    object as it was, with what the integrator keeps of the vector. *)
Lemma over_boundary_faces_returns {A} (P : A → Prop) ic cell c
    (integrate : EquationBase → nat → A → A) a (e : EquationBase) :
  ic < length (is_cell_at_bd e) →
  dof_handler e !! cell = Some c →
  faces_per_cell e ≤ length (faces c) →
  P a → (∀ e fn a, P a → P (integrate e fn a)) →
  ∃ a', over_boundary_faces ic cell integrate a e = Done a' e ∧ P a'.
Proof.
  intros Hic Hc Hfaces Ha Hint. unfold over_boundary_faces.
  destruct (lookup_lt_is_Some_2 _ _ Hic) as [at_bd Hbd].
  rewrite (bind_Done _ _ _ _ _ (element_returns _ _ _ _ Hbd)).
  destruct at_bd; [|by eauto]. eff_run.
  destruct (for_from_total (λ _ a s, s = e ∧ P a) (faces_per_cell e) 0
    (λ fn a, bd <- at_boundary cell fn ;;
             if bd then e <- gets id ;; ret (integrate e fn a) else ret a) a e)
    as (a' & s' & Hrun & -> & Ha'); [done| |by eauto].
  intros fn a0 s Hfn [-> Ha0].
  destruct (lookup_lt_is_Some_2 (faces c) fn ltac:(lia)) as [f Hf].
  cbv beta. unfold at_boundary, face, dereference.
  rewrite !bind_bind.
  rewrite (bind_Done _ _ _ _ _ (element_returns _ _ _ _ Hc)).
  unfold bind at 1, defined at 1. rewrite Hf. eff_run.
  destruct f; eexists _, e; (split_and!; [reflexivity|done|by auto]).
Qed.

(** One component of the group: the call returns when the object is
    ready and the integrators keep the size of the local vector. *)
Lemma assemble_linear_form_component_returns sflxes_proc g k
    (e : EquationBase) fixed :
  linear_integrators_keep_size →
  k < length (sys_rhses e) →
  sys_fixed_rhses e !! k = Some fixed →
  length (local_cells e) ≤ length (is_cell_at_bd e) →
  mesh_well_formed e →
  (∀ cell c, cell ∈ local_cells e → dof_handler e !! cell = Some c →
     length (dof_indices c) = dofs_per_cell e
     ∧ Forall (λ i, i < length fixed) (dof_indices c)) →
  ∃ e', assemble_linear_form_component sflxes_proc g k e = Done tt e'
    ∧ length (sys_rhses e') = length (sys_rhses e).
Proof.
  intros [Hscatter Hboundary] Hk Hfixed Hbd Hmesh Hdofs.
  unfold assemble_linear_form_component.
  unfold get_component_direction at 1. unfold bind at 1.
  set (e0 := set_inverse_component_index _ e).
  set (i_dir := (map_subscript _ _ _).1.1).
  rewrite (bind_Done _ _ _ _ _ (element_returns sys_fixed_rhses k e0 fixed Hfixed)).
  rewrite (bind_Done _ _ _ _ _
    (assign_element_run sys_rhses set_sys_rhses k fixed e0 Hk)).
  set (e1 := set_sys_rhses _ e0). eff_run. unfold for_range.
  match goal with |- context [for_from 0 ?n ?body tt e1] =>
    destruct (for_from_total (λ _ (_ : unit) s,
        setup s = setup e
        ∧ length (sys_rhses s) = length (sys_rhses e)
        ∧ ∃ v, sys_rhses s !! k = Some v ∧ length v = length fixed)
      n 0 body tt e1) as ([] & e' & Hrun & _ & Hlen & _)
  end.
  - unfold e1, e0. simpl. split_and!; [done|by rewrite length_insert|].
    exists fixed. split; [|done]. by apply list_lookup_insert_eq.
  - intros ic [] s Hic (Hsetup & Hlen & v & Hv & Hvlen).
    destruct (setup_cells _ _ Hsetup) as (Hcells & Hlocal & Hat_bd & Hper & Hfaces & _).
    simpl in Hic. eff_run.
    destruct (lookup_lt_is_Some_2 (local_cells e) ic ltac:(lia)) as [cell Hcell].
    assert (cell ∈ local_cells e) as Hin by by eapply list_elem_of_lookup_2.
    destruct (Hmesh cell Hin) as (c & Hc & Hnf & _).
    destruct (Hdofs cell c Hin Hc) as [Hnd Hrange].
    rewrite <- Hlocal in Hcell.
    rewrite (bind_Done _ _ _ _ _ (element_returns local_cells ic s cell Hcell)).
    unfold get_local_dof_indices, dereference.
    rewrite <- Hcells in Hc.
    rewrite bind_bind, (bind_Done _ _ _ _ _ (element_returns dof_handler cell s c Hc)).
    eff_run.
    set (s1 := set_local_dof_indices _ s).
    match goal with |- context [over_boundary_faces ic cell ?integrate ?a] =>
      destruct (over_boundary_faces_returns (λ v, length v = dofs_per_cell e)
        ic cell c integrate a s1) as (cell_rhs & Hfacesrun & Hsize)
    end.
    + simpl. rewrite Hat_bd. lia.
    + done.
    + change (faces_per_cell s1) with (faces_per_cell s). by rewrite Hfaces.
    + by rewrite Hscatter, length_replicate.
    + intros ???. by rewrite Hboundary.
    + rewrite (bind_Done _ _ _ _ _ Hfacesrun).
      destruct (vec_add_at_returns (dof_indices c) cell_rhs v) as (v' & Hadd & Hlen').
      { by rewrite Hsize. }
      { by rewrite Hvlen. }
      unfold add_to_vector. eff_run.
      rewrite (bind_Done _ _ _ _ _ (element_returns sys_rhses k s1 v Hv)).
      simpl. unfold bind at 1, defined at 1. rewrite Hadd.
      rewrite assign_element_run by (simpl; by eapply lookup_lt_Some).
      eexists tt, _. split; [done|]. simpl.
      split_and!; [done|by rewrite length_insert|].
      exists v'. split; [|congruence].
      apply list_lookup_insert_eq. by eapply lookup_lt_Some.
  - by exists e'.
Qed.

(** X1.  [assemble_linear_form (sflxes_proc, g)] returns.  On an object
    that is ready for it (a sweep and a fixed right-hand side for every
    component, a boundary mark for every local cell, local cells that are
    cells of the mesh with all their faces, and degrees of freedom that
    index the right-hand sides), and with integrators that keep the size
    of the local vector, the call reads no vector past its end and
    returns. *)
Theorem assemble_linear_form_returns sflxes_proc g (e : EquationBase) :
  linear_integrators_keep_size → linear_form_ready e →
  ∃ e', assemble_linear_form sflxes_proc g e = Done tt e'.
Proof.
  intros Hkeep (Hn & Hbd & Hmesh & Hfixed).
  unfold assemble_linear_form. eff_run. unfold for_range.
  match goal with |- context [for_from 0 ?n ?body tt e] =>
    destruct (for_from_total (λ _ (_ : unit) s,
        setup s = setup e
        ∧ sys_fixed_rhses s = sys_fixed_rhses e
        ∧ length (sys_rhses s) = length (sys_rhses e))
      n 0 body tt e) as ([] & e' & Hrun & _); [done| |by eauto]
  end.
  intros k [] s Hk (Hsetup & Hfix & Hlen). simpl in Hk.
  unfold get_component_group at 1. unfold bind at 1.
  set (s0 := set_inverse_component_index _ s).
  case_decide as Hg; [|by eexists tt, _].
  destruct (Hfixed k ltac:(lia)) as (fixed & Hf & Hdofs).
  destruct (setup_cells _ _ Hsetup) as (Hcells & Hlocal & Hat_bd & Hper & Hfaces & _).
  destruct (assemble_linear_form_component_returns sflxes_proc g k s0 fixed)
    as (s' & Hrun & Hlen'); try done.
  - simpl. lia.
  - simpl. by rewrite Hfix.
  - simpl. rewrite Hlocal, Hat_bd. done.
  - intros cell Hin. simpl in Hin. rewrite Hlocal in Hin.
    destruct (Hmesh cell Hin) as (c & Hc & Hnf & Hneigh).
    exists c. simpl. rewrite Hcells.
    change (faces_per_cell s0) with (faces_per_cell s). by rewrite Hfaces.
  - intros cell c Hin Hc. simpl in *. rewrite Hlocal in Hin. rewrite Hcells in Hc.
    rewrite Hper. by apply (Hdofs cell).
  - exists tt, s'. split; [done|].
    rewrite (keeps_Done _ _ _ _ _
      (assemble_linear_form_component_keeps_setup _ _ _) Hrun).
    rewrite (keeps_Done _ _ _ _ _
      (assemble_linear_form_component_keeps_fixed _ _ _) Hrun).
    by rewrite Hlen'.
Qed.

End LinearForm.

(** ** The interface terms *)

(** ** Loops with a test *)

(** Two loops whose bodies agree wherever an invariant of the second
    holds are the same loop. *)
Lemma for_from_ext {St A} (P : St → Prop) cnt :
  ∀ lo (body1 body2 : nat → A → Eff St A) a s,
  P s →
  (∀ i a s, lo ≤ i < lo + cnt → P s → body1 i a s = body2 i a s) →
  (∀ i a s a' s', P s → body2 i a s = Done a' s' → P s') →
  for_from lo cnt body1 a s = for_from lo cnt body2 a s.
Proof.
  induction cnt as [|cnt IH]; intros lo body1 body2 a s HP Hbody Hkeep; simpl; [done|].
  unfold bind. rewrite Hbody by (lia || done).
  destruct (body2 lo a s) as [a' s'| |] eqn:Hrun; [|done..].
  apply IH; [by eapply Hkeep| |done]. intros i ?? Hi. apply Hbody. lia.
Qed.

(** A loop that tests each iteration and skips those that fail the test
    is the loop over the iterations that pass it. *)
Lemma for_list_filter {St I A} (P : St → Prop) (p : I → bool)
    (test : I → Eff St bool) (body : I → A → Eff St A) (l : list I) :
  ∀ a s,
  P s →
  (∀ i s, i ∈ l → P s → test i s = Done (p i) s) →
  (∀ i a s a' s', P s → body i a s = Done a' s' → P s') →
  for_list l (λ i a, b <- test i ;; if b then body i a else ret a) a s
  = for_list (filter (λ i, p i = true) l) body a s.
Proof.
  induction l as [|i l IH]; intros a s HP Htest Hkeep; simpl; [done|].
  rewrite bind_bind. rewrite (bind_Done _ _ _ _ _ (Htest i s ltac:(left) HP)).
  destruct (p i) eqn:Hp.
  - rewrite filter_cons_True by done. simpl. unfold bind.
    destruct (body i a s) as [a' s'| |] eqn:Hrun; [|done..].
    apply IH; [by eapply Hkeep| |done]. intros ????. apply Htest; [by right|done].
  - rewrite filter_cons_False by (by rewrite Hp). rewrite bind_ret.
    apply IH; [done| |done]. intros ????. apply Htest; [by right|done].
Qed.

Lemma filter_none {A} (P : A → Prop) `{∀ x, Decision (P x)} (l : list A) :
  (∀ v, v ∈ l → ¬ P v) → filter P l = [].
Proof.
  induction l as [|v l IH]; intros Hnone; [done|].
  rewrite filter_cons_False by (apply Hnone; left).
  apply IH. intros v' ?. apply Hnone. by right.
Qed.

(** In a list without repetition that holds [x] and does not hold [y],
    the two together occur exactly once. *)
Lemma occurs_once {A} `{EqDecision A} (l : list A) (x y : A) :
  NoDup l → x ∈ l → y ∉ l →
  length (filter (λ v, v = x ∨ v = y) l) = 1.
Proof.
  induction 1 as [|v l Hv Hnodup IH]; intros Hx Hy; [by apply elem_of_nil in Hx|].
  apply not_elem_of_cons in Hy as [Hne Hy].
  apply elem_of_cons in Hx as [->|Hx].
  - rewrite filter_cons_True by (by left). simpl. f_equal.
    rewrite filter_none; [done|]. intros v' Hv' [->| ->]; done.
  - rewrite filter_cons_False; [by apply IH|].
    intros [->| ->]; done.
Qed.

Section Interface.
Context `{Collaborators} `{!Integrators}.

Lemma setup_dim (e e' : EquationBase) :
  setup e' = setup e → dim e' = dim e.
Proof. unfold setup. intros Heq. by simplify_eq. Qed.

Lemma face_run (s : EquationBase) cell fn c f :
  dof_handler s !! cell = Some c → faces c !! fn = Some f →
  face cell fn s = Done f s.
Proof.
  intros Hc Hf. unfold face, dereference, element, bind. rewrite Hc. simpl.
  by rewrite Hf.
Qed.

Lemma id_of_run (s : EquationBase) cell c :
  dof_handler s !! cell = Some c → id_of cell s = Done (cell_id c) s.
Proof. intros Hc. unfold id_of, dereference, element, bind. by rewrite Hc. Qed.

Lemma at_boundary_run (s : EquationBase) cell fn c f :
  dof_handler s !! cell = Some c → faces c !! fn = Some f →
  at_boundary cell fn s
  = Done (match f with BoundaryFace => true | InteriorFace _ _ => false end) s.
Proof.
  intros Hc Hf. unfold at_boundary.
  by rewrite (bind_Done _ _ _ _ _ (face_run s cell fn c f Hc Hf)).
Qed.

Lemma neighbor_run (s : EquationBase) cell fn c neigh neigh_fn :
  dof_handler s !! cell = Some c →
  faces c !! fn = Some (InteriorFace neigh neigh_fn) →
  neighbor cell fn s = Done neigh s.
Proof.
  intros Hc Hf. unfold neighbor.
  by rewrite (bind_Done _ _ _ _ _ (face_run s cell fn c _ Hc Hf)).
Qed.

(** On a well-formed mesh the test of the face loop is defined and is
    [assembled_from]. *)
Lemma is_target_face_run (e s : EquationBase) cell fn :
  setup s = setup e → mesh_well_formed e →
  cell ∈ local_cells e → fn < faces_per_cell e →
  is_target_face cell fn s = Done (assembled_from (dof_handler e) cell fn) s.
Proof.
  intros Hsetup Hmesh Hcell Hfn.
  destruct (setup_mesh _ _ Hsetup) as (Hcells & _ & _).
  destruct (Hmesh cell Hcell) as (c & Hc & Hfaces & Hneighbors).
  destruct (lookup_lt_is_Some_2 (faces c) fn) as [f Hf]; [lia|].
  unfold assembled_from. rewrite Hc, Hf. rewrite <- Hcells in *.
  unfold is_target_face.
  rewrite (bind_Done _ _ _ _ _ (at_boundary_run s cell fn c f Hc Hf)).
  destruct f as [|neigh neigh_fn]; [done|].
  rewrite (bind_Done _ _ _ _ _ (neighbor_run s cell fn c _ _ Hc Hf)).
  destruct (Hneighbors fn neigh neigh_fn Hf) as [n Hn]. rewrite Hn.
  rewrite (bind_Done _ _ _ _ _ (id_of_run s neigh n Hn)).
  by rewrite (bind_Done _ _ _ _ _ (id_of_run s cell c Hc)).
Qed.

Lemma assemble_interface_face_keeps_setup k g i_dir cell fn blocks :
  keeps setup (assemble_interface_face k g i_dir cell fn blocks).
Proof. solve_keeps. Qed.

(** The face loop of one cell assembles exactly the target faces. *)
Lemma face_loop_is_target_faces (e s : EquationBase) k g i_dir cell blocks :
  setup s = setup e → mesh_well_formed e → cell ∈ local_cells e →
  for_from 0 (faces_per_cell s) (λ fn blocks,
    target <- is_target_face cell fn ;;
    if target
    then assemble_interface_face k g i_dir cell fn blocks
    else ret blocks) blocks s
  = for_list (target_faces (dof_handler e) (dim e) cell) (λ fn blocks,
      assemble_interface_face k g i_dir cell fn blocks) blocks s.
Proof.
  intros Hsetup Hmesh Hcell. rewrite for_from_for_list.
  unfold faces_per_cell, target_faces. rewrite (setup_dim _ _ Hsetup).
  apply (for_list_filter (λ s, setup s = setup e)
           (assembled_from (dof_handler e) cell)); [done| |].
  - intros fn s' [_ Hfn]%elem_of_seq Hs'. by apply is_target_face_run.
  - intros fn blocks' s1 blocks'' s2 Hs1 Hrun.
    rewrite <- Hs1.
    exact (keeps_Done _ _ _ _ _ (assemble_interface_face_keeps_setup _ _ _ _ _ _) Hrun).
Qed.

(** The assembly loops are the loops over the target faces. *)
Lemma assemble_interface_refines (e : EquationBase) :
  mesh_well_formed e →
  assemble_interface_bilinear_form e
  = assemble_interface_over (target_faces (dof_handler e) (dim e)) e.
Proof.
  intros Hmesh. unfold assemble_interface_bilinear_form, assemble_interface_over.
  eff_run. apply bind_cong_l.
  apply (for_from_ext (λ s, setup s = setup e)); [done| |].
  - intros k blocks s _ Hs.
    apply bind_ext. intros g s1 Hrun1.
    assert (_ = _) as Hs1 by (refine (keeps_Done setup _ _ _ _ _ Hrun1); solve_keeps).
    apply bind_ext. intros i_dir s2 Hrun2.
    assert (_ = _) as Hs2 by (refine (keeps_Done setup _ _ _ _ _ Hrun2); solve_keeps).
    eff_run.
    apply (for_from_ext (λ s, setup s = setup e)); [congruence| |].
    + intros ic blocks' s3 _ Hs3.
      apply bind_ext. intros cell s4 [-> Hcell]%element_Done.
      apply bind_ext. intros [] s5 Hrun5.
      assert (_ = _) as Hs5 by (refine (keeps_Done setup _ _ _ _ _ Hrun5); solve_keeps).
      eff_run. apply face_loop_is_target_faces; [congruence|done|].
      destruct (setup_mesh _ _ Hs3) as (_ & <- & _).
      by eapply list_elem_of_lookup_2.
    + intros ic blocks' s3 blocks'' s4 Hs3 Hrun. rewrite <- Hs3.
      refine (keeps_Done setup _ _ _ _ _ Hrun). solve_keeps.
  - intros k blocks s blocks' s' Hs Hrun. rewrite <- Hs.
    refine (keeps_Done setup _ _ _ _ _ Hrun). solve_keeps.
Qed.

Lemma all_interface_faces_owned (procs : list EquationBase) cells d :
  (∀ e, e ∈ procs → dof_handler e = cells ∧ dim e = d) →
  all_interface_faces procs
  = (procs ≫= local_cells) ≫=
      (λ cell, (λ fn, (cell, fn)) <$> target_faces cells d cell).
Proof.
  unfold all_interface_faces.
  induction procs as [|e procs IH]; intros Hsame; csimpl; [done|].
  rewrite bind_app, IH by (intros; apply Hsame; by right).
  unfold interface_faces at 1.
  by destruct (Hsame e ltac:(left)) as [-> ->].
Qed.

Lemma elem_of_faces_of cells d (owned : list nat) cell fn :
  (cell, fn) ∈ owned ≫= (λ cell, (λ fn, (cell, fn)) <$> target_faces cells d cell)
  ↔ cell ∈ owned ∧ fn < 2 * d ∧ assembled_from cells cell fn = true.
Proof.
  rewrite list_elem_of_bind. unfold target_faces. split.
  - intros (cell' & (fn' & [= -> ->] & Hfn)%list_elem_of_fmap & Hcell).
    apply list_elem_of_filter in Hfn as [Htarget Hfn%elem_of_seq].
    split_and!; [done|lia|done].
  - intros (Hcell & Hfn & Htarget). exists cell. split; [|done].
    apply list_elem_of_fmap. exists fn. split; [done|].
    apply list_elem_of_filter. split; [done|]. apply elem_of_seq. lia.
Qed.

Lemma NoDup_faces_of cells d (owned : list nat) :
  NoDup owned →
  NoDup (owned ≫= (λ cell, (λ fn, (cell, fn)) <$> target_faces cells d cell)).
Proof.
  intros Hnodup. apply NoDup_bind; [| |done].
  - intros c1 c2 v _ _ (f1 & -> & _)%list_elem_of_fmap (f2 & [= -> _] & _)%list_elem_of_fmap.
    done.
  - intros cell _. apply NoDup_fmap_2; [by intros f1 f2 [= ->]|].
    unfold target_faces. apply NoDup_filter, NoDup_seq.
Qed.

(** Of the two sides of a shared face exactly one is assembled, and by
    exactly one process. *)
Lemma shared_face_once (procs : list EquationBase) cells d a fn b fn' ca :
  (∀ e, e ∈ procs → dof_handler e = cells ∧ dim e = d) →
  NoDup (procs ≫= local_cells) →
  (∀ cell, cell < length cells → cell ∈ procs ≫= local_cells) →
  conforming cells d → identifiers_ordered cells →
  cells !! a = Some ca → fn < 2 * d →
  faces ca !! fn = Some (InteriorFace b fn') →
  length (filter (λ v, v = (a, fn) ∨ v = (b, fn')) (all_interface_faces procs)) = 1.
Proof.
  intros Hsame Hnodup Howned Hconf [Hinj Hless] Ha Hfn Hface.
  destruct (Hconf a fn b fn' ca Ha Hfn Hface) as (Hne & Hfn' & cb & Hb & Hface').
  rewrite (all_interface_faces_owned procs cells d Hsame).
  set (owned := procs ≫= local_cells) in *.
  assert (assembled_from cells a fn = CellId_less (cell_id cb) (cell_id ca)) as Hside
    by (unfold assembled_from; by rewrite Ha, Hface, Hb).
  assert (assembled_from cells b fn' = CellId_less (cell_id ca) (cell_id cb)) as Hside'
    by (unfold assembled_from; by rewrite Hb, Hface', Ha).
  assert (cell_id cb ≠ cell_id ca) as Hids
    by (intros Heq; apply Hne; symmetry; by eapply Hinj).
  rewrite (Hless _ _ Hids) in Hside.
  assert (a ∈ owned) as Hin by (apply Howned; by eapply lookup_lt_Some).
  assert (b ∈ owned) as Hin' by (apply Howned; by eapply lookup_lt_Some).
  destruct (CellId_less (cell_id ca) (cell_id cb)) eqn:Hcmp; simpl in Hside.
  - rewrite (list_filter_iff _ (λ v, v = (b, fn') ∨ v = (a, fn)))
      by (intros; tauto).
    apply occurs_once; [by apply NoDup_faces_of| |].
    + by apply elem_of_faces_of.
    + rewrite elem_of_faces_of, Hside. by intros (_ & _ & ?).
  - apply occurs_once; [by apply NoDup_faces_of| |].
    + by apply elem_of_faces_of.
    + rewrite elem_of_faces_of, Hside'. by intros (_ & _ & ?).
Qed.

(** *** What the interface terms leave in the matrices *)

Lemma add_to_sys_mat_run k rows cols full (s : EquationBase) :
  add_to_sys_mat k rows cols full s
  = match sys_mats s !! k ≫= mat_add rows cols full with
    | Some m => Done tt (set_sys_mats (λ mats, <[k := m]> mats) s)
    | None => Undefined
    end.
Proof.
  unfold add_to_sys_mat, bind at 1. rewrite element_run.
  destruct (sys_mats s !! k) as [m|] eqn:Hm; simpl; [|done].
  unfold bind, defined. destruct (mat_add rows cols full m) as [m'|]; [|done].
  unfold assign_element. rewrite decide_True; [done|]. by eapply lookup_lt_Some.
Qed.

Lemma set_sys_mats_at_face f local neigh mats (e : EquationBase) :
  set_sys_mats f
    (set_neigh_dof_indices (λ _, neigh)
       (set_local_dof_indices (λ _, local) (set_sys_mats (λ _, mats) e)))
  = set_neigh_dof_indices (λ _, neigh)
      (set_local_dof_indices (λ _, local) (set_sys_mats (λ _, f mats) e)).
Proof. reflexivity. Qed.

Lemma set_neigh_dof_indices_twice neigh neigh' (s : EquationBase) :
  set_neigh_dof_indices (λ _, neigh') (set_neigh_dof_indices (λ _, neigh) s)
  = set_neigh_dof_indices (λ _, neigh') s.
Proof. reflexivity. Qed.

Lemma set_local_dof_indices_at_face local' local neigh mats (e : EquationBase) :
  set_local_dof_indices (λ _, local')
    (set_neigh_dof_indices (λ _, neigh)
       (set_local_dof_indices (λ _, local) (set_sys_mats (λ _, mats) e)))
  = set_neigh_dof_indices (λ _, neigh)
      (set_local_dof_indices (λ _, local') (set_sys_mats (λ _, mats) e)).
Proof. reflexivity. Qed.

Lemma recorded_at_face k local neigh mats (e : EquationBase) :
  recorded k
    (set_neigh_dof_indices (λ _, neigh)
       (set_local_dof_indices (λ _, local) (set_sys_mats (λ _, mats) e)))
  = set_neigh_dof_indices (λ _, neigh)
      (set_local_dof_indices (λ _, local)
         (set_sys_mats (λ _, mats) (recorded k e))).
Proof. reflexivity. Qed.

Lemma index_at_face f h j (e : EquationBase) k :
  group_of
    (set_neigh_dof_indices f (set_local_dof_indices h (set_sys_mats j e))) k
  = group_of e k
  ∧ direction_of
      (set_neigh_dof_indices f (set_local_dof_indices h (set_sys_mats j e))) k
    = direction_of e k.
Proof. done. Qed.

Lemma as_at_interface_face (e : EquationBase) :
  e = set_neigh_dof_indices (λ _, neigh_dof_indices e)
        (set_local_dof_indices (λ _, local_dof_indices e)
           (set_sys_mats (λ _, sys_mats e) e)).
Proof. by destruct e. Qed.

(** The four [add]s of one face. *)
Lemma add_blocks_run k local neigh mats (e : EquationBase) (blocks : Blocks) :
  returns_as
    ((let '(vi_ui, vi_ue, ve_ui, ve_ue) := blocks in
      add_to_sys_mat k local local vi_ui ;;
      add_to_sys_mat k local neigh vi_ue ;;
      add_to_sys_mat k neigh local ve_ui ;;
      add_to_sys_mat k neigh neigh ve_ue ;;
      ret blocks)
       (set_neigh_dof_indices (λ _, neigh)
          (set_local_dof_indices (λ _, local) (set_sys_mats (λ _, mats) e))))
    (m ← mats !! k;
     m ← add_blocks local neigh blocks m;
     Some (blocks, <[k := m]> mats))
    (λ r blocks' s',
       blocks' = r.1
       ∧ s' = set_neigh_dof_indices (λ _, neigh)
                (set_local_dof_indices (λ _, local)
                   (set_sys_mats (λ _, r.2) e))).
Proof.
  destruct blocks as [[[vi_ui vi_ue] ve_ui] ve_ue].
  destruct (mats !! k) as [m|] eqn:Hm; simpl.
  2: { unfold bind at 1. rewrite add_to_sys_mat_run. simpl. by rewrite Hm. }
  assert (k < length mats) as Hk by by eapply lookup_lt_Some.
  unfold bind at 1. rewrite add_to_sys_mat_run. simpl. rewrite Hm. simpl.
  destruct (mat_add local local vi_ui m) as [m1|]; simpl; [|done].
  unfold bind at 1. rewrite add_to_sys_mat_run. simpl.
  rewrite list_lookup_insert_eq by done. simpl.
  destruct (mat_add local neigh vi_ue m1) as [m2|]; simpl; [|done].
  unfold bind at 1. rewrite add_to_sys_mat_run. simpl.
  rewrite list_lookup_insert_eq by (by rewrite length_insert). simpl.
  destruct (mat_add neigh local ve_ui m2) as [m3|]; simpl; [|done].
  unfold bind at 1. rewrite add_to_sys_mat_run. simpl.
  rewrite list_lookup_insert_eq by (by rewrite !length_insert). simpl.
  destruct (mat_add neigh neigh ve_ue m3) as [m4|]; simpl; [|done].
  eexists _, _. split; [reflexivity|]. split; [done|].
  rewrite !set_sys_mats_at_face. cbv beta. by rewrite !list_insert_insert_eq.
Qed.

(** One face that is assembled. *)
Lemma assemble_interface_face_run (e : EquationBase) g i_dir k cell c fn blocks
    mats neigh :
  dof_handler e !! cell = Some c →
  returns_as
    (assemble_interface_face k g i_dir cell fn blocks
       (set_neigh_dof_indices (λ _, neigh)
          (set_local_dof_indices (λ _, dof_indices c)
             (set_sys_mats (λ _, mats) e))))
    (add_interface_faces e g i_dir k [(cell, fn)] blocks mats)
    (λ r blocks' s',
       blocks' = r.1
       ∧ ∃ neigh',
           s' = set_neigh_dof_indices (λ _, neigh')
                  (set_local_dof_indices (λ _, dof_indices c)
                     (set_sys_mats (λ _, r.2) e))).
Proof.
  intros Hc. simpl. rewrite Hc. simpl.
  unfold assemble_interface_face.
  unfold bind at 1, neighbor at 1, bind at 1, face at 1, bind at 1, dereference.
  rewrite element_run. simpl. rewrite Hc. unfold defined.
  destruct (faces c !! fn) as [[|neigh_cell neigh_fn]|]; simpl; [done| |done].
  unfold bind at 1. rewrite get_neigh_dof_indices_run. simpl.
  destruct (dof_handler e !! neigh_cell) as [n|]; simpl; [|done].
  rewrite set_neigh_dof_indices_twice.
  destruct blocks as [[[vi_ui vi_ue] ve_ui] ve_ue]. eff_run.
  unfold blocks_of_face, at_interface_face, id. simpl.
  match goal with |- context [integrate_interface_bilinear_form ?s ?a ?b ?c' ?d ?x ?y ?z ?u ?v] =>
    set (made := integrate_interface_bilinear_form s a b c' d x y z u v)
  end.
  pose proof (add_blocks_run k (dof_indices c) (dof_indices n) mats e made) as Hadd.
  clearbody made. destruct made as [[[vi_ui' vi_ue'] ve_ui'] ve_ue'].
  cbv iota in Hadd |- *. eff_run. simpl local_dof_indices. simpl neigh_dof_indices.
  eapply returns_as_mono; [exact Hadd|].
  intros r blocks' s' [-> ->]. split; [done|]. by eexists.
Qed.

Lemma add_interface_faces_app (e : EquationBase) g i_dir k targets targets' :
  ∀ blocks mats,
  add_interface_faces e g i_dir k (targets ++ targets') blocks mats
  = r ← add_interface_faces e g i_dir k targets blocks mats;
    add_interface_faces e g i_dir k targets' r.1 r.2.
Proof.
  induction targets as [|[cell fn] targets IH]; intros blocks mats; simpl; [done|].
  destruct (dof_handler e !! cell) as [c|]; simpl; [|done].
  destruct (faces c !! fn) as [[|neigh neigh_fn]|]; simpl; [done| |done].
  destruct (dof_handler e !! neigh) as [n|]; simpl; [|done].
  destruct (mats !! k) as [m|]; simpl; [|done].
  match goal with |- context [add_blocks ?l ?l' ?b m] =>
    destruct (add_blocks l l' b m) as [m'|]; simpl; [|done]
  end.
  apply IH.
Qed.

(** The faces of one cell that are assembled, in their order. *)
Lemma interface_faces_of_cell_run (e : EquationBase) g i_dir k cell c :
  dof_handler e !! cell = Some c →
  ∀ fns blocks mats neigh,
  returns_as
    (for_list fns (λ fn blocks,
       assemble_interface_face k g i_dir cell fn blocks) blocks
       (set_neigh_dof_indices (λ _, neigh)
          (set_local_dof_indices (λ _, dof_indices c)
             (set_sys_mats (λ _, mats) e))))
    (add_interface_faces e g i_dir k ((λ fn, (cell, fn)) <$> fns) blocks mats)
    (λ r blocks' s',
       blocks' = r.1
       ∧ ∃ neigh',
           s' = set_neigh_dof_indices (λ _, neigh')
                  (set_local_dof_indices (λ _, dof_indices c)
                     (set_sys_mats (λ _, r.2) e))).
Proof.
  intros Hc. induction fns as [|fn fns IH]; intros blocks mats neigh.
  { eexists _, _. split; [reflexivity|]. split; [done|]. by exists neigh. }
  rewrite fmap_cons.
  change ((cell, fn) :: ?l) with ([(cell, fn)] ++ l).
  rewrite (add_interface_faces_app e g i_dir k [(cell, fn)]). simpl for_list.
  eapply returns_as_bind.
  - by apply assemble_interface_face_run.
  - intros r blocks' s' [-> [neigh' ->]]. apply IH.
Qed.

(** The loop over the local cells, from the [ic]-th cell on. *)
Lemma interface_cells_run (e : EquationBase) g i_dir k (targets : nat → list nat) :
  ∀ cells ic blocks mats local neigh,
  drop ic (local_cells e) = cells →
  (∀ cell, cell ∈ cells → is_Some (dof_handler e !! cell)) →
  returns_as
    (for_from ic (length cells) (λ ic blocks,
       cell <- element local_cells ic ;;
       get_local_dof_indices cell ;;
       for_list (targets cell) (λ fn blocks,
         assemble_interface_face k g i_dir cell fn blocks) blocks) blocks
       (set_neigh_dof_indices (λ _, neigh)
          (set_local_dof_indices (λ _, local) (set_sys_mats (λ _, mats) e))))
    (add_interface_faces e g i_dir k
       (cell ← cells; (λ fn, (cell, fn)) <$> targets cell) blocks mats)
    (λ r blocks' s',
       blocks' = r.1
       ∧ ∃ local' neigh',
           s' = set_neigh_dof_indices (λ _, neigh')
                  (set_local_dof_indices (λ _, local')
                     (set_sys_mats (λ _, r.2) e))).
Proof.
  induction cells as [|cell cells IH]; intros ic blocks mats local neigh Hdrop Hmesh.
  { eexists _, _. split; [reflexivity|]. split; [done|]. by exists local, neigh. }
  apply drop_lookup_cons in Hdrop as [Hcell Hdrop].
  destruct (Hmesh cell ltac:(left)) as [c Hc].
  rewrite bind_cons, add_interface_faces_app. simpl for_from. simpl length.
  eapply returns_as_bind.
  - unfold bind at 1. rewrite element_run. simpl. rewrite Hcell.
    unfold bind at 1. rewrite get_local_dof_indices_run. simpl. rewrite Hc.
    rewrite set_local_dof_indices_at_face.
    by apply interface_faces_of_cell_run.
  - intros r blocks' s' [-> [neigh' ->]].
    apply IH; [done|]. intros cell' Hcell'. apply Hmesh. by right.
Qed.

(** The loop over the components. *)
Lemma interface_components_run (targets : nat → list nat) :
  ∀ cnt lo (e : EquationBase) blocks mats local neigh,
  (∀ cell, cell ∈ local_cells e → is_Some (dof_handler e !! cell)) →
  returns_as
    (for_from lo cnt (λ k blocks,
       g <- get_component_group k ;;
       i_dir <- get_component_direction k ;;
       nc <- gets (λ e, length (local_cells e)) ;;
       for_from 0 nc (λ ic blocks,
         cell <- element local_cells ic ;;
         get_local_dof_indices cell ;;
         for_list (targets cell) (λ fn blocks,
           assemble_interface_face k g i_dir cell fn blocks) blocks) blocks)
       blocks
       (set_neigh_dof_indices (λ _, neigh)
          (set_local_dof_indices (λ _, local) (set_sys_mats (λ _, mats) e))))
    (interface_terms_of_components
       (cell ← local_cells e; (λ fn, (cell, fn)) <$> targets cell)
       (seq lo cnt) e blocks mats)
    (λ r _ s', sys_mats s' = r.2).
Proof.
  induction cnt as [|cnt IH]; intros lo e blocks mats local neigh Hmesh.
  { by eexists _, _. }
  simpl seq. simpl for_from. simpl interface_terms_of_components.
  eapply returns_as_bind.
  - rewrite (bind_Done _ _ _ _ _ (get_component_group_run lo _)).
    rewrite (bind_Done _ _ _ _ _ (get_component_direction_run lo _)).
    rewrite recorded_twice, recorded_at_face. eff_run.
    rewrite (proj1 (index_at_face _ _ _ _ _)), (proj2 (index_at_face _ _ _ _ _)),
      direction_of_recorded.
    apply (interface_cells_run (recorded lo e) (group_of e lo) (direction_of e lo)
             lo targets (local_cells e) 0); [apply drop_0|exact Hmesh].
  - intros r blocks' s' [-> (local' & neigh' & ->)]. cbv beta.
    apply (IH (S lo) (recorded lo e)). exact Hmesh.
Qed.

(** [assemble_interface_bilinear_form] returns exactly when the
    interface terms are defined, and leaves them in [sys_mats]. *)
Lemma assemble_interface_run (e : EquationBase) :
  mesh_well_formed e →
  returns_as (assemble_interface_bilinear_form e) (interface_terms e)
    (λ mats _ e', sys_mats e' = mats).
Proof.
  intros Hmesh. rewrite (assemble_interface_refines e Hmesh).
  unfold assemble_interface_over, interface_terms. eff_run.
  assert (∀ cell, cell ∈ local_cells e → is_Some (dof_handler e !! cell)) as Hcells.
  { intros cell Hcell. destruct (Hmesh cell Hcell) as (c & Hc & _). by exists c. }
  set (zero := full_zero (dofs_per_cell e) (dofs_per_cell e)).
  pose proof (interface_components_run (target_faces (dof_handler e) (dim e))
                (n_total_vars e) 0 e (zero, zero, zero, zero) (sys_mats e)
                (local_dof_indices e) (neigh_dof_indices e) Hcells) as Hrun.
  rewrite <- (as_at_interface_face e) in Hrun.
  fold (interface_faces e) in Hrun.
  destruct (interface_terms_of_components (interface_faces e)
              (seq 0 (n_total_vars e)) e (zero, zero, zero, zero) (sys_mats e))
    as [[blocks mats]|]; simpl in *.
  - destruct Hrun as (blocks' & e' & Hrun & Hmats).
    exists tt, e'. by rewrite (bind_Done _ _ _ _ _ Hrun).
  - by rewrite (bind_Undefined _ _ _ Hrun).
Qed.

(** C2.  The interface terms of a shared face are assembled exactly once.
    On a well-formed mesh [assemble_interface_bilinear_form] is, for
    every component, the loop over the faces in [target_faces], those
    whose neighbour has the lesser cell identifier, and over no other
    face.  It returns exactly when [interface_terms] is defined and then
    leaves it in [sys_mats]: for every component in turn and every face
    of [interface_faces] in turn, the matrix of the component with the
    four blocks [vi_ui], [vi_ue], [ve_ui], [ve_ue] added to it once
    each, at the degrees of freedom of the cell and of the neighbour,
    the blocks being what [integrate_interface_bilinear_form] makes of
    the zeroed blocks on the object as it is at that face; otherwise the
    call is undefined.  When the processes own the cells of a conforming
    mesh between them and the cell identifiers are totally ordered, the
    two sides of a face shared by two cells occur exactly once,
    together, among the faces that all the processes assemble. *)
Theorem interface_terms_assembled_once :
  (∀ e : EquationBase,
     mesh_well_formed e →
     assemble_interface_bilinear_form e
     = assemble_interface_over (target_faces (dof_handler e) (dim e)) e)
  ∧ (∀ e : EquationBase,
       mesh_well_formed e →
       match interface_terms e with
       | Some mats =>
           ∃ e', assemble_interface_bilinear_form e = Done tt e'
             ∧ sys_mats e' = mats
       | None => assemble_interface_bilinear_form e = Undefined
       end)
  ∧ ∀ (procs : list EquationBase) cells d a fn b fn' ca,
      (∀ e, e ∈ procs → dof_handler e = cells ∧ dim e = d) →
      NoDup (procs ≫= local_cells) →
      (∀ cell, cell < length cells → cell ∈ procs ≫= local_cells) →
      conforming cells d → identifiers_ordered cells →
      cells !! a = Some ca → fn < 2 * d →
      faces ca !! fn = Some (InteriorFace b fn') →
      length (filter (λ v, v = (a, fn) ∨ v = (b, fn'))
                (all_interface_faces procs)) = 1.
Proof.
  split_and!; [apply assemble_interface_refines| |apply shared_face_once].
  intros e Hmesh. pose proof (assemble_interface_run e Hmesh) as Hrun.
  destruct (interface_terms e) as [mats|]; simpl in Hrun; [|done].
  destruct Hrun as ([] & e' & Hrun & Hmats). by exists e'.
Qed.

End Interface.

(** ** The outer eigenvalue loop *)

Section Eigen.
Context `{Collaborators} `{!Integrators} `{!Drivers}.

(** The loop, one test at a time. *)
Lemma eigen_loop_unfold fuel l (it : Iteration EigenBase MGBase IGBase) :
  eigen_loop fuel l it
  = if loop_continues (err_k_tol (this it)) (err_phi_tol (this it)) l
    then match fuel with
         | O => Done None it
         | S fuel' => (l' <- eigen_iteration l ;; eigen_loop fuel' l') it
         end
    else Done (Some l) it.
Proof.
  destruct fuel; simpl; eff_run;
    by destruct (loop_continues (err_k_tol (this it)) (err_phi_tol (this it)) l).
Qed.

(** The loop is left only with errors that fail the test of the [while]. *)
Lemma eigen_loop_exit fuel :
  ∀ l (it : Iteration EigenBase MGBase IGBase) l' it',
  eigen_loop fuel l it = Done (Some l') it' →
  loop_continues (err_k_tol (this it')) (err_phi_tol (this it')) l' = false.
Proof.
  induction fuel as [|fuel IH]; intros l it l' it'; rewrite eigen_loop_unfold;
    destruct (loop_continues _ _ l) eqn:Htest; try congruence.
  intros (l1 & it1 & _ & Hrest)%bind_Done_inv. by eapply IH.
Qed.

(** The steps of one pass, each on the state that the one before left. *)
Lemma eigen_iteration_steps l (it : Iteration EigenBase MGBase IGBase) l' it' :
  eigen_iteration l it = Done l' it' →
  ∃ it1 it2 it3 it4 it5 it6 it7,
    update_prev_sflxes_fiss_src_keff it = Done tt it1
    ∧ on_back (scale_fiss_transfer_matrices (keff (this it1))) it1 = Done tt it2
    ∧ on_back (assemble_fixed_linear_form (sflxes_proc it2)) it2 = Done tt it3
    ∧ mg_iterations it3 = Done tt it4
    ∧ calculate_fiss_src_keff it4 = Done tt it5
    ∧ estimate_phi_diff it5 = Done (err_phi l') it6
    ∧ estimate_k_diff it6 = Done (err_k l') it7
    ∧ iter l' = increment_int (iter l).
Proof.
  unfold eigen_iteration.
  intros ([] & it1 & Hstep1 & Hrun)%bind_Done_inv. revert Hrun. eff_run.
  intros ([] & it2 & Hstep2 & Hrun)%bind_Done_inv. revert Hrun. eff_run.
  intros ([] & it3 & Hstep3 & Hrun)%bind_Done_inv.
  apply bind_Done_inv in Hrun as ([] & it4 & Hstep4 & Hrun).
  apply bind_Done_inv in Hrun as ([] & it5 & Hstep5 & Hrun).
  apply bind_Done_inv in Hrun as (new_err_phi & it6 & Hstep6 & Hrun).
  apply bind_Done_inv in Hrun as (new_err_k & it7 & Hstep7 & Hrun).
  revert Hrun. eff_run. intros [= <- <-]. simpl.
  exists it1, it2, it3, it4, it5, it6, it7. done.
Qed.

(** Nothing but the test ends the loop: while the passes return and leave
    errors above the tolerances, the loop is still running after any
    number of passes. *)
Lemma eigen_loop_no_cap (Inv : Locals → Iteration EigenBase MGBase IGBase → Prop) fuel :
  ∀ l it,
  (∀ l it, Inv l it →
     loop_continues (err_k_tol (this it)) (err_phi_tol (this it)) l = true
     ∧ ∃ l' it', eigen_iteration l it = Done l' it' ∧ Inv l' it') →
  Inv l it →
  ∃ it', eigen_loop fuel l it = Done None it'.
Proof.
  induction fuel as [|fuel IH]; intros l it Hstep HInv;
    rewrite eigen_loop_unfold; destruct (Hstep l it HInv) as (-> & l' & it' & Hrun & HInv').
  - eauto.
  - rewrite (bind_Done _ _ _ _ _ Hrun). by apply IH.
Qed.

Lemma loop_continues_numbers tol_k tol_phi l :
  is_nan tol_k = false → is_nan tol_phi = false →
  is_nan (err_k l) = false → is_nan (err_phi l) = false →
  loop_continues tol_k tol_phi l = negb (within_tolerances tol_k tol_phi l).
Proof.
  intros Htk Htp Hk Hp. unfold loop_continues, within_tolerances.
  rewrite <- (not_gt_is_le (err_k l) tol_k), <- (not_gt_is_le (err_phi l) tol_phi)
    by done.
  by destruct (tol_k <? err_k l)%float, (tol_phi <? err_phi l)%float.
Qed.

(** C6, as amended.  One pass of the loop of [eigen_iterations] updates
    the previous iterate, scales the fission transfer matrices by the
    current [keff], assembles the fixed linear form, runs the multigroup
    iterations, recomputes fission source and [keff], and then estimates
    [err_phi] and [err_k], each step on the state left by the one before.
    The loop goes on to another pass exactly when
    [err_k > err_k_tol || err_phi > err_phi_tol], and is left only with
    errors for which this test fails; when neither the errors nor the
    tolerances are NaN, the test fails exactly when [err_k <= err_k_tol]
    and [err_phi <= err_phi_tol].  Nothing else ends the loop: as long as
    the passes return with errors that pass the test, it is still running
    after any number of passes. *)
Theorem eigen_iterations_state_machine :
  (∀ l (it : Iteration EigenBase MGBase IGBase) l' it',
     eigen_iteration l it = Done l' it' →
     ∃ it1 it2 it3 it4 it5 it6 it7,
       update_prev_sflxes_fiss_src_keff it = Done tt it1
       ∧ on_back (scale_fiss_transfer_matrices (keff (this it1))) it1 = Done tt it2
       ∧ on_back (assemble_fixed_linear_form (sflxes_proc it2)) it2 = Done tt it3
       ∧ mg_iterations it3 = Done tt it4
       ∧ calculate_fiss_src_keff it4 = Done tt it5
       ∧ estimate_phi_diff it5 = Done (err_phi l') it6
       ∧ estimate_k_diff it6 = Done (err_k l') it7
       ∧ iter l' = increment_int (iter l))
  ∧ (∀ fuel l (it : Iteration EigenBase MGBase IGBase),
       eigen_loop fuel l it
       = if loop_continues (err_k_tol (this it)) (err_phi_tol (this it)) l
         then match fuel with
              | O => Done None it
              | S fuel' => (l' <- eigen_iteration l ;; eigen_loop fuel' l') it
              end
         else Done (Some l) it)
  ∧ (∀ fuel l (it : Iteration EigenBase MGBase IGBase) l' it',
       eigen_loop fuel l it = Done (Some l') it' →
       loop_continues (err_k_tol (this it')) (err_phi_tol (this it')) l' = false)
  ∧ (∀ tol_k tol_phi l,
       is_nan tol_k = false → is_nan tol_phi = false →
       is_nan (err_k l) = false → is_nan (err_phi l) = false →
       loop_continues tol_k tol_phi l = negb (within_tolerances tol_k tol_phi l))
  ∧ (∀ (Inv : Locals → Iteration EigenBase MGBase IGBase → Prop) fuel l it,
       (∀ l it, Inv l it →
          loop_continues (err_k_tol (this it)) (err_phi_tol (this it)) l = true
          ∧ ∃ l' it', eigen_iteration l it = Done l' it' ∧ Inv l' it') →
       Inv l it →
       ∃ it', eigen_loop fuel l it = Done None it').
Proof.
  split_and!.
  - apply eigen_iteration_steps.
  - apply eigen_loop_unfold.
  - intros fuel. apply eigen_loop_exit.
  - apply loop_continues_numbers.
  - intros Inv fuel. apply eigen_loop_no_cap.
Qed.

End Eigen.

(** ** The statements on the worked instance *)

Section Witnesses.
Import Example.
#[local] Existing Instance collaborators.
#[local] Existing Instance integrators.
#[local] Existing Instance drivers.

Lemma component_index_inverse_witness :
  ∃ k, k < 2 * 2
    ∧ get_component_index 1 1 fresh = Done k fresh
    ∧ get_component_direction k fresh = Done 1 fresh
    ∧ get_component_group k fresh = Done 1 fresh.
Proof.
  apply (component_index_inverse 1 "ep" prm 2 2 weights materials 0 slab 1 1); lia.
Defined.

Lemma example_table_complete : fission_table_complete equation.
Proof.
  intros m gin g Hm _ Hgin Hg.
  destruct m as [|[|m]], gin as [|[|gin]], g as [|[|g]];
    try (simpl in *; lia); vm_compute; eauto.
Defined.

Lemma scaled_transfer_of_fissile_witness :
  ∃ e', scale_fiss_transfer_matrices 2 equation = Done tt e'
    ∧ table_entry (scaled_fiss_transfer_per_ster e') 0 1 0 = Some (3 / 2)%float.
Proof.
  apply (scaled_transfer_of_fissile equation 2 0 1 0 3);
    first [exact example_table_complete | reflexivity | simpl; lia].
Defined.

Lemma scaled_transfer_of_non_fissile_witness :
  ∃ e', scale_fiss_transfer_matrices 0 equation = Done tt e'
    ∧ scaled_fiss_transfer_per_ster e' !! 1 = Some [[0; 0]; [0; 0]]%float.
Proof.
  apply (scaled_transfer_of_non_fissile equation 0 1);
    first [exact example_table_complete | reflexivity | simpl; lia].
Defined.

Lemma generate_moments_requires_do_nda_witness :
  generate_moments_all [] [] equation
  = Thrown "only non-NDA is supposed to call this function" equation
  ∧ generate_moments_ho equation
    = Thrown "only non-NDA is supposed to call this function" equation.
Proof. apply (generate_moments_requires_do_nda equation [] []). reflexivity. Defined.

Lemma assemble_bilinear_form_interface_witness :
  assemble_bilinear_form equation
  = (volume_part ;; interface_part ;; preconditioner_part) equation.
Proof.
  apply (proj1 (proj2 (assemble_bilinear_form_interface equation))); reflexivity.
Defined.

Lemma initialize_system_matrices_vectors_sizes_witness :
  ∃ sflxes_proc' e',
    initialize_system_matrices_vectors [(0, 0)] 6 [[]; []] fresh
    = Done sflxes_proc' e'
    ∧ collection_sizes e' = (4, 4, 4, 4).
Proof.
  apply (proj2 (initialize_system_matrices_vectors_sizes fresh [(0, 0)] 6 [[]; []]));
    first [reflexivity | vm_compute; lia].
Defined.

Lemma generate_moments_weighted_sum_witness :
  ∃ sflx e',
    generate_moments_group (replicate 6 7%float) [] 1 equation
    = Done (sflx, replicate 6 7%float) e'
    ∧ length sflx = 6
    ∧ (∀ j, j < 6 →
         sflx !! j
         = Some (weighted_sum_at weights (replicate 2 (replicate 6 1%float)) j))
    ∧ (Forall (λ aflx, aflx = replicate 6 1%float) (replicate 2 (replicate 6 1%float)) →
       sflx = replicate 6 (sum_of_weights (take 2 weights))).
Proof.
  apply (generate_moments_weighted_sum equation (replicate 6 7%float) [] 1
           (replicate 2 (replicate 6 1%float))).
  - discriminate.
  - reflexivity.
  - simpl. lia.
  - intros i_dir aflx Haflx.
    destruct i_dir as [|[|i_dir]]; [| |done]; injection Haflx as <-;
      (split_and!; [reflexivity|vm_compute; lia|reflexivity]).
Defined.

Lemma assemble_linear_form_frame_witness :
  ∃ e', assemble_linear_form (replicate 2 (replicate 6 1%float)) 0 equation
        = Done tt e'
    ∧ sys_mats e' = sys_mats equation
    ∧ sys_fixed_rhses e' = sys_fixed_rhses equation
    ∧ (∀ k, group_of equation k ≠ 0 → sys_rhses e' !! k = sys_rhses equation !! k)
    ∧ sweep_right_hand_sides (replicate 2 (replicate 6 1%float)) 0 equation
      = Some (sys_rhses e').
Proof.
  eexists. split; [vm_compute; reflexivity|].
  apply (assemble_linear_form_frame (replicate 2 (replicate 6 1%float)) 0 equation).
  vm_compute. reflexivity.
Defined.

End Witnesses.

Section Witnesses.
Import Example.
#[local] Existing Instance collaborators.
#[local] Existing Instance integrators.
#[local] Existing Instance drivers.

Lemma example_mesh_well_formed : mesh_well_formed equation.
Proof.
  intros cell Hcell. simpl in Hcell.
  repeat (apply elem_of_cons in Hcell as [->|Hcell]); [..|by apply elem_of_nil in Hcell];
    (eexists; split; [reflexivity|]; split; [vm_compute; lia|]);
    intros [|[|fn]] neigh neigh_fn Hface; simplify_eq/=; eauto.
Defined.

Lemma example_conforming : conforming slab 1.
Proof.
  intros [|[|[|a]]] [|[|fn]] b fn' ca Ha Hfn Hface; simplify_eq/=; try lia;
    (split_and!; [done|lia|eexists; split; reflexivity]).
Defined.

Lemma example_identifiers_ordered : identifiers_ordered slab.
Proof.
  split.
  - intros [|[|[|a]]] [|[|[|b]]] ca cb Ha Hb Hid; simplify_eq/=; done.
  - intros x y Hne. simpl.
    destruct (Nat.ltb_spec x y), (Nat.ltb_spec y x); simpl; (done || lia).
Defined.

Lemma interface_terms_assembled_once_witness :
  assemble_interface_bilinear_form equation
  = assemble_interface_over (target_faces slab 1) equation
  ∧ (∃ e', assemble_interface_bilinear_form equation = Done tt e'
       ∧ interface_terms equation = Some (sys_mats e'))
  ∧ length (filter (λ v, v = (1, 1) ∨ v = (2, 0)) (all_interface_faces processes))
    = 1.
Proof.
  split_and!.
  - apply (proj1 interface_terms_assembled_once equation), example_mesh_well_formed.
  - pose proof (proj1 (proj2 interface_terms_assembled_once) equation
                  example_mesh_well_formed) as Hrun.
    destruct (interface_terms equation) as [mats|] eqn:Hterms.
    + destruct Hrun as (e' & Hrun & <-). exists e'. split; [exact Hrun|reflexivity].
    + apply (f_equal (λ terms, match terms with Some _ => true | None => false end))
        in Hterms.
      vm_compute in Hterms. discriminate Hterms.
  - eapply (proj2 (proj2 interface_terms_assembled_once) processes slab 1 1 1 2 0).
    + intros e He. unfold processes in He.
      repeat (apply elem_of_cons in He as [->|He]); [done..|by apply elem_of_nil in He].
    + apply (bool_decide_unpack _). vm_compute. exact I.
    + intros [|[|[|cell]]] Hcell; [| | |simpl in Hcell; lia];
        apply (bool_decide_unpack _); vm_compute; exact I.
    + exact example_conforming.
    + exact example_identifiers_ordered.
    + reflexivity.
    + lia.
    + reflexivity.
Defined.

Lemma example_integrators_keep_size : linear_integrators_keep_size.
Proof. split; intros; simpl; unfold add_to_entries; apply length_fmap. Qed.

Lemma example_linear_form_ready : linear_form_ready equation.
Proof.
  split_and!; [simpl; lia..|exact example_mesh_well_formed|].
  intros k Hk. exists (replicate 6 3%float). split.
  - change (n_total_vars equation) with 4 in Hk.
    by destruct k as [|[|[|[|k]]]]; [..|lia].
  - intros cell c Hcell Hc. simpl in Hcell.
    repeat (apply elem_of_cons in Hcell as [->|Hcell]);
      [..|by apply elem_of_nil in Hcell];
      simplify_eq/=; (split; [done|repeat constructor; simpl; lia]).
Qed.

Lemma assemble_linear_form_returns_witness :
  ∃ e', assemble_linear_form (replicate 2 (replicate 6 1%float)) 0 equation
        = Done tt e'.
Proof.
  exact (assemble_linear_form_returns (replicate 2 (replicate 6 1%float)) 0
           equation example_integrators_keep_size example_linear_form_ready).
Defined.

End Witnesses.

Section Witnesses.
Import Example.
#[local] Existing Instance collaborators.
#[local] Existing Instance integrators.
#[local] Existing Instance drivers.

Lemma on_back_at_pass {A} (member : Eff EquationBase A) p k k_prev e written a e' :
  member e = Done a e' →
  on_back member (at_pass p k k_prev e written)
  = Done a (at_pass p k k_prev e' written).
Proof. intros Hrun. unfold on_back. simpl. by rewrite Hrun. Qed.

(** One pass of the worked instance, given what the two member functions
    do to its equation object. *)
Lemma example_pass l p k k_prev e written mid e' :
  scale_fiss_transfer_matrices k e = Done tt mid →
  assemble_fixed_linear_form (replicate 2 (replicate 6 1%float)) mid = Done tt e' →
  eigen_iteration l (at_pass p k k_prev e written)
  = Done {| err_k := (abs (p * k - k) / abs (p * k))%float; err_phi := 0;
            iter := increment_int (iter l) |}
         (at_pass p (p * k) k e'
            (written ++ written_by l (abs (p * k - k) / abs (p * k)))).
Proof.
  intros Hscale Hfixed. unfold eigen_iteration.
  change (update_prev_sflxes_fiss_src_keff (Drivers := drivers))
    with (modify (on_eigen (MG := unit) (IG := unit) (λ eigen,
      {| tol_k := tol_k eigen; tol_phi := tol_phi eigen; k_eff := k_eff eigen;
         k_eff_prev := k_eff eigen; production := production eigen;
         out := out eigen |}))).
  eff_run.
  erewrite bind_Done; [|by apply on_back_at_pass]. eff_run.
  erewrite bind_Done; [|by apply on_back_at_pass]. reflexivity.
Qed.

Lemma example_passes :
  (∃ mid, scale_fiss_transfer_matrices 1 equation = Done tt mid
     ∧ assemble_fixed_linear_form (replicate 2 (replicate 6 1%float)) mid
       = Done tt (equation_after 1))
  ∧ (∃ mid, scale_fiss_transfer_matrices (-1) (equation_after 1) = Done tt mid
       ∧ assemble_fixed_linear_form (replicate 2 (replicate 6 1%float)) mid
         = Done tt (equation_after (-1)))
  ∧ (∃ mid, scale_fiss_transfer_matrices 1 (equation_after (-1)) = Done tt mid
       ∧ assemble_fixed_linear_form (replicate 2 (replicate 6 1%float)) mid
         = Done tt (equation_after 1)).
Proof.
  split_and!; (eexists; split; [vm_compute; reflexivity|vm_compute; reflexivity]).
Qed.

Lemma flipping_pass l it :
  Flipping l it →
  loop_continues (err_k_tol (this it)) (err_phi_tol (this it)) l = true
  ∧ ∃ l' it', eigen_iteration l it = Done l' it' ∧ Flipping l' it'.
Proof.
  destruct example_passes as ((mid1 & Hs1 & Hf1) & (mid2 & Hs2 & Hf2) & (mid3 & Hs3 & Hf3)).
  intros [l0 written Hk|l0 written Hk|l0 written Hk];
    (split; [unfold loop_continues; simpl; by rewrite Hk|]).
  - eexists _, _. split; [exact (example_pass l0 (-1) 1 1 _ written _ _ Hs1 Hf1)|].
    by apply flipping_down.
  - eexists _, _. split; [exact (example_pass l0 (-1) (-1) 1 _ written _ _ Hs2 Hf2)|].
    by apply flipping_up.
  - eexists _, _. split; [exact (example_pass l0 (-1) 1 (-1) _ written _ _ Hs3 Hf3)|].
    by apply flipping_down.
Qed.

End Witnesses.

Section Witnesses.
Import Example.
#[local] Existing Instance collaborators.
#[local] Existing Instance integrators.
#[local] Existing Instance drivers.

Lemma eigen_iterations_state_machine_witness :
  (∃ it', eigen_iterations 5 (iteration 1)
          = Done (Some {| err_k := 0; err_phi := 0; iter := 1 |}) it'
     ∧ loop_continues (err_k_tol (this it')) (err_phi_tol (this it'))
         {| err_k := 0; err_phi := 0; iter := 1 |} = false)
  ∧ ∃ it', eigen_iterations 1000 (iteration (-1)) = Done None it'.
Proof.
  split.
  - eexists. split; [vm_compute; reflexivity|].
    apply (proj1 (proj2 (proj2
             (@eigen_iterations_state_machine collaborators integrators drivers))) 5
             {| err_k := 1; err_phi := 1; iter := 0 |} (iteration 1)).
    vm_compute. reflexivity.
  - apply (proj2 (proj2 (proj2 (proj2
             (@eigen_iterations_state_machine collaborators integrators drivers))))
             Flipping 1000 _ _ flipping_pass).
    by apply flipping_start.
Defined.

(** The loop can be left with an eigenvalue error that is not within its
    tolerance: without fission ([production = 0]) the estimate drops to
    zero, its relative change is not a number, and the second test of the
    [while] fails. *)
Lemma eigen_iterations_left_outside_tolerance :
  ∃ l' it',
    eigen_iterations 5 (iteration 0) = Done (Some l') it'
    ∧ within_tolerances (err_k_tol (this it')) (err_phi_tol (this it')) l' = false.
Proof. eexists _, _. split; vm_compute; reflexivity. Qed.

End Witnesses.

(** ** Edges of the member functions *)

Section Edges.
Context `{Collaborators} `{!Integrators}.

(** X4.  On a process that owns no cell, the assembly of the bilinear
    form is undefined: [assemble_volume_boundary_bilinear_form] reads
    [local_cells[0]] for the pre-assembly before any loop, and
    [assemble_bilinear_form] calls it first.  This holds in particular
    for an object fresh from the constructor, before
    [initialize_cell_iterators_this_proc]. *)
Theorem assembly_without_local_cells (e : EquationBase) :
  local_cells e = [] →
  assemble_volume_boundary_bilinear_form e = Undefined
  ∧ assemble_bilinear_form e = Undefined.
Proof.
  intros Hcells.
  assert (∀ s : EquationBase, local_cells s = [] →
            assemble_volume_boundary_bilinear_form s = Undefined) as Hvolume.
  { intros s Hs. unfold assemble_volume_boundary_bilinear_form. eff_run.
    unfold bind, element. by rewrite Hs. }
  split; [by apply Hvolume|].
  unfold assemble_bilinear_form, print. eff_run.
  apply bind_Undefined, Hvolume. by destruct (pcout_active e).
Qed.

(** X6.  The index maps on a key they do not hold.  For a (direction,
    group) pair that [component_index] does not hold,
    [get_component_index] does not fail: it returns 0 and leaves the
    object with the pair recorded as component 0 and nothing else
    changed; asking again gives 0 and changes nothing more.  For a
    component that [inverse_component_index] does not hold,
    [get_component_direction] returns 0 and leaves the object with the
    component recorded as (0, 0) and nothing else changed, and so does
    [get_component_group]; each of them, asked again, gives 0 and
    changes nothing more. *)
Theorem index_of_unknown_component (e : EquationBase) :
  (∀ incident_angle_index g,
     component_index e !! (incident_angle_index, g) = None →
     let e' :=
       set_component_index (λ m, <[(incident_angle_index, g) := 0]> m) e in
     get_component_index incident_angle_index g e = Done 0 e'
     ∧ get_component_index incident_angle_index g e' = Done 0 e')
  ∧ (∀ comp_ind,
       inverse_component_index e !! comp_ind = None →
       let e' :=
         set_inverse_component_index (λ m, <[comp_ind := (0, 0)]> m) e in
       get_component_direction comp_ind e = Done 0 e'
       ∧ get_component_direction comp_ind e' = Done 0 e')
  ∧ (∀ comp_ind,
       inverse_component_index e !! comp_ind = None →
       let e' :=
         set_inverse_component_index (λ m, <[comp_ind := (0, 0)]> m) e in
       get_component_group comp_ind e = Done 0 e'
       ∧ get_component_group comp_ind e' = Done 0 e').
Proof.
  split_and!.
  - intros d g Hmissing e'. unfold get_component_index, map_subscript.
    rewrite Hmissing. split; [reflexivity|]. subst e'.
    unfold set_component_index. simpl.
    rewrite lookup_insert_eq. simpl. by rewrite insert_insert_eq.
  - intros k Hmissing e'. unfold get_component_direction, map_subscript.
    rewrite Hmissing. split; [reflexivity|]. subst e'.
    unfold set_inverse_component_index. simpl.
    rewrite lookup_insert_eq. simpl. by rewrite insert_insert_eq.
  - intros k Hmissing e'. unfold get_component_group, map_subscript.
    rewrite Hmissing. split; [reflexivity|]. subst e'.
    unfold set_inverse_component_index. simpl.
    rewrite lookup_insert_eq. simpl. by rewrite insert_insert_eq.
Qed.

Lemma generate_moments_ho_keeps_name :
  keeps equation_name generate_moments_ho.
Proof. unfold generate_moments_ho. solve_keeps. Qed.

(** X9.  The assertions of [generate_moments ()] and of
    [assemble_closure_bilinear_form] exclude each other: on an object on
    which [generate_moments ()] has returned,
    [assemble_closure_bilinear_form (ho_equ_ptr, true)] throws "only
    instance for NDA calls this function" and leaves the object as it
    is. *)
Theorem moments_or_closure (e e' ho_equ_ptr : EquationBase) :
  generate_moments_ho e = Done tt e' →
  assemble_closure_bilinear_form ho_equ_ptr true e'
  = Thrown "only instance for NDA calls this function" e'.
Proof.
  intros Hrun.
  pose proof (keeps_Done _ _ _ _ _ generate_moments_ho_keeps_name Hrun) as Hname.
  revert Hrun. unfold generate_moments_ho. eff_run.
  destruct (String.eqb (equation_name e) "nda") eqn:Hnda; simpl; eff_run; [done|].
  intros _. unfold assemble_closure_bilinear_form. eff_run.
  by rewrite Hname, Hnda.
Qed.

End Edges.

(** X10.  [get_reflective_direction_index] on a boundary that is not
    marked reflective, be it marked otherwise or unknown to
    [is_reflective_bc].  The call throws "must be reflective boundary to
    retrieve the reflective boundary"; the exception leaves the boundary
    recorded as not reflective and the direction map untouched, and every
    later call for that boundary throws again and changes nothing.  This
    is the case of every boundary of an object that [process_input] set
    up without reflective boundary conditions. *)
Theorem reflective_direction_of_other_boundary (r : ReflectiveBC)
    boundary_id incident_angle_index :
  default false (is_reflective_bc r !! boundary_id) = false →
  ∃ r',
    get_reflective_direction_index boundary_id incident_angle_index r
    = Thrown "must be reflective boundary to retrieve the reflective boundary" r'
    ∧ is_reflective_bc r' = <[boundary_id := false]> (is_reflective_bc r)
    ∧ reflective_direction_index r' = reflective_direction_index r
    ∧ ∀ incident_angle_index',
        get_reflective_direction_index boundary_id incident_angle_index' r'
        = Thrown "must be reflective boundary to retrieve the reflective boundary"
            r'.
Proof.
  intros Hb. eexists. unfold get_reflective_direction_index, map_subscript. simpl.
  rewrite Hb. split; [reflexivity|]. simpl. split_and!; [done..|].
  intros incident_angle_index'. rewrite lookup_insert_eq. simpl.
  by rewrite insert_insert_eq.
Qed.

Section Rescaling.
Context `{Collaborators} `{!Integrators}.

Lemma square_zero n : square n (replicate n (replicate n 0%float)).
Proof.
  split; [apply length_replicate|].
  apply Forall_replicate, length_replicate.
Qed.

Lemma square_alter_insert n gin g x matrix :
  square n matrix → square n (alter (<[g := x]>) gin matrix).
Proof.
  intros [Hrows Hcols]. split; [by rewrite length_alter|].
  apply Forall_lookup. intros i row Hrow.
  destruct (decide (i = gin)) as [->|Hne].
  - rewrite list_lookup_alter_eq in Hrow.
    destruct (matrix !! gin) as [row'|] eqn:Hrow'; simplify_eq/=.
    rewrite length_insert. by eapply (Forall_lookup_1 _ _ _ _ Hcols).
  - rewrite list_lookup_alter_ne in Hrow by done.
    by eapply (Forall_lookup_1 _ _ _ _ Hcols).
Qed.

Lemma square_eq n (a b : list (list float)) :
  square n a → square n b →
  (∀ gin g, gin < n → g < n → matrix_entry a gin g = matrix_entry b gin g) →
  a = b.
Proof.
  intros [Ha Hra] [Hb Hrb] Hentries. apply list_eq. intros gin.
  destruct (decide (gin < n)) as [Hgin|Hgin].
  - destruct (lookup_lt_is_Some_2 a gin) as [ra Hrow_a]; [lia|].
    destruct (lookup_lt_is_Some_2 b gin) as [rb Hrow_b]; [lia|].
    rewrite Hrow_a, Hrow_b. f_equal. apply list_eq. intros g.
    pose proof (Forall_lookup_1 _ _ _ _ Hra Hrow_a) as Hla.
    pose proof (Forall_lookup_1 _ _ _ _ Hrb Hrow_b) as Hlb.
    simpl in Hla, Hlb.
    destruct (decide (g < n)) as [Hg|Hg].
    + specialize (Hentries gin g Hgin Hg). unfold matrix_entry in Hentries.
      by rewrite Hrow_a, Hrow_b in Hentries.
    + rewrite !lookup_ge_None_2; [done|lia..].
  - rewrite !lookup_ge_None_2; [done|lia..].
Qed.

(** Every matrix that [scale_fiss_transfer_matrices] stores is
    [n_group] by [n_group]. *)
Lemma scale_fiss_transfer_square (e e' : EquationBase) keff :
  scale_fiss_transfer_matrices keff e = Done tt e' →
  ∀ m matrix, m < n_material e →
    scaled_fiss_transfer_per_ster e' !! m = Some matrix →
    square (n_group e) matrix.
Proof.
  unfold scale_fiss_transfer_matrices. eff_run.
  destruct (is_eigen_problem e); eff_run; [|done].
  unfold for_range. intros Hloop.
  eapply (for_from_partial (λ m (_ : unit) s,
      n_group s = n_group e
      ∧ ∀ m' matrix, m' < m → scaled_fiss_transfer_per_ster s !! m' = Some matrix →
          square (n_group e) matrix)) in Hloop.
  - simpl in Hloop. destruct Hloop as [_ Hsquare]. exact Hsquare.
  - split; [done|]. intros; lia.
  - intros m [] s [] s' Hm [Hng Hsquare]. eff_run.
    destruct (is_fissile_run s m) as (s1 & Hrun1 & _ & Hng1 & _ & Hsc1).
    rewrite (bind_Done _ _ _ _ _ Hrun1). rewrite Hng.
    intros (tmp & s2 & Htmp & Hassign)%bind_Done_inv.
    assert (s2 = s1 ∧ square (n_group e) tmp) as [-> Htmp_square].
    { destruct (material_is_fissile s m).
      - eapply (for_from_partial (λ _ tmp s, s = s1 ∧ square (n_group e) tmp))
          in Htmp; [exact Htmp|split; [done|apply square_zero]|].
        intros gin tmp1 s3 tmp2 s4 _ [-> Hsq] Hinner.
        eapply (for_from_partial (λ _ tmp s, s = s1 ∧ square (n_group e) tmp))
          in Hinner; [exact Hinner|done|].
        intros g tmp3 s5 tmp4 s6 _ [-> Hsq3].
        intros (x & s7 & Hx & Hret)%bind_Done_inv.
        unfold ksi_nusigf_per_ster, defined in Hx.
        destruct (table_entry _ _ _ _); simplify_eq/=.
        injection Hret as <- <-. split; [done|]. by apply square_alter_insert.
      - injection Htmp as <- <-. split; [done|apply square_zero]. }
    unfold assign_element in Hassign. case_decide; [|done].
    injection Hassign as <-. simpl. split; [by rewrite Hng1|].
    intros m' matrix Hm' Hmatrix. rewrite Hsc1 in Hmatrix.
    destruct (decide (m' = m)) as [->|Hne].
    + rewrite list_lookup_insert_eq in Hmatrix by (rewrite <- Hsc1; lia).
      by injection Hmatrix as <-.
    + rewrite list_lookup_insert_ne in Hmatrix by done.
      apply (Hsquare m'); [lia|done].
Qed.

Lemma scale_fiss_transfer_keeps_inputs keff :
  keeps (λ e, (is_eigen_problem e, n_material e, n_group e,
               all_ksi_nusigf_per_ster e))
    (scale_fiss_transfer_matrices keff).
Proof. unfold scale_fiss_transfer_matrices. solve_keeps. Qed.

Lemma scale_fiss_transfer_keeps_fissile keff m :
  keeps (λ e, material_is_fissile e m) (scale_fiss_transfer_matrices keff).
Proof. unfold scale_fiss_transfer_matrices. solve_keeps. Qed.

(** The scaled table is a function of the group and material counts, of
    the fissile marks, of the raw table and of [keff]. *)
Lemma scale_fiss_transfer_determined (e1 e2 e1' e2' : EquationBase) keff :
  is_eigen_problem e1 = true → fission_table_complete e1 →
  n_material e2 = n_material e1 → n_group e2 = n_group e1 →
  all_ksi_nusigf_per_ster e2 = all_ksi_nusigf_per_ster e1 →
  (∀ m, material_is_fissile e2 m = material_is_fissile e1 m) →
  scale_fiss_transfer_matrices keff e1 = Done tt e1' →
  scale_fiss_transfer_matrices keff e2 = Done tt e2' →
  scaled_fiss_transfer_per_ster e2' = scaled_fiss_transfer_per_ster e1'.
Proof.
  intros Heigen Htable Hnm Hng Hksi Hfis Hrun1 Hrun2.
  assert (is_eigen_problem e2 = true) as Heigen2.
  { revert Hrun2. unfold scale_fiss_transfer_matrices. eff_run.
    by destruct (is_eigen_problem e2). }
  assert (fission_table_complete e2) as Htable2.
  { intros m gin g ????. rewrite Hksi. rewrite Hnm, Hng, Hfis in *. by apply Htable. }
  destruct (scale_fiss_transfer_spec e1 keff Heigen Htable)
    as (e1'' & Hrun1' & Hlen1 & Hfissile1 & Hzero1).
  destruct (scale_fiss_transfer_spec e2 keff Heigen2 Htable2)
    as (e2'' & Hrun2' & Hlen2 & Hfissile2 & Hzero2).
  rewrite Hrun1 in Hrun1'. rewrite Hrun2 in Hrun2'. simplify_eq.
  pose proof (scale_fiss_transfer_square _ _ _ Hrun1) as Hsq1.
  pose proof (scale_fiss_transfer_square _ _ _ Hrun2) as Hsq2.
  apply list_eq. intros m.
  destruct (decide (m < n_material e1)) as [Hm|Hm];
    [|rewrite !lookup_ge_None_2; [done|lia..]].
  destruct (material_is_fissile e1 m) eqn:Hfissile.
  - destruct (lookup_lt_is_Some_2 (scaled_fiss_transfer_per_ster e1'') m)
      as [m1 Hm1]; [lia|].
    destruct (lookup_lt_is_Some_2 (scaled_fiss_transfer_per_ster e2'') m)
      as [m2 Hm2]; [lia|].
    rewrite Hm1, Hm2. f_equal.
    apply (square_eq (n_group e1));
      [rewrite <- Hng; apply (Hsq2 m); [lia|done]|by apply (Hsq1 m)|].
    intros gin g Hgin Hg.
    destruct (Htable m gin g Hm Hfissile Hgin Hg) as [raw Hraw].
    pose proof (Hfissile1 m gin g raw Hm Hfissile Hgin Hg Hraw) as H1.
    pose proof (Hfissile2 m gin g raw) as H2.
    rewrite Hnm, Hng, Hfis, Hksi in H2. specialize (H2 Hm Hfissile Hgin Hg Hraw).
    unfold table_entry in H1, H2. rewrite Hm1 in H1. rewrite Hm2 in H2.
    by rewrite H1, H2.
  - rewrite (Hzero1 m Hm Hfissile).
    rewrite (Hzero2 m); [by rewrite Hng|lia|by rewrite Hfis].
Qed.

(** X7.  Scaling again does not compound.  For an eigenvalue problem with
    a complete fission table, [scale_fiss_transfer_matrices (keff)]
    followed by [scale_fiss_transfer_matrices (keff')] returns and leaves
    the same [scaled_fiss_transfer_per_ster] as
    [scale_fiss_transfer_matrices (keff')] alone: every call starts from
    the raw table. *)
Theorem rescaling_does_not_compound (e : EquationBase) keff keff' :
  is_eigen_problem e = true → fission_table_complete e →
  ∃ e1 e2 e',
    scale_fiss_transfer_matrices keff e = Done tt e1
    ∧ scale_fiss_transfer_matrices keff' e1 = Done tt e2
    ∧ scale_fiss_transfer_matrices keff' e = Done tt e'
    ∧ scaled_fiss_transfer_per_ster e2 = scaled_fiss_transfer_per_ster e'.
Proof.
  intros Heigen Htable.
  destruct (scale_fiss_transfer_spec e keff Heigen Htable) as (e1 & Hrun1 & _).
  destruct (scale_fiss_transfer_spec e keff' Heigen Htable) as (e' & Hrun' & _).
  pose proof (keeps_Done _ _ _ _ _ (scale_fiss_transfer_keeps_inputs keff) Hrun1)
    as Hinputs.
  injection Hinputs as Heigen1 Hnm1 Hng1 Hksi1.
  assert (∀ m, material_is_fissile e1 m = material_is_fissile e m) as Hfis1.
  { intros m.
    exact (keeps_Done _ _ _ _ _ (scale_fiss_transfer_keeps_fissile keff m) Hrun1). }
  assert (fission_table_complete e1) as Htable1.
  { intros m gin g ????. rewrite Hksi1. rewrite Hnm1, Hng1, Hfis1 in *.
    by apply Htable. }
  destruct (scale_fiss_transfer_spec e1 keff') as (e2 & Hrun2 & _);
    [congruence|done|].
  exists e1, e2, e'. split_and!; [done..|].
  by eapply (scale_fiss_transfer_determined e e1 e' e2 keff').
Qed.

End Rescaling.

Section Outer.
Context `{Collaborators} `{!Integrators} `{!Drivers}.

(** X11.  The loop of [eigen_iterations] makes no pass when neither
    tolerance is below the initial error 1.0, which includes tolerances
    that are NaN: the call returns at once with [err_k = err_phi = 1.0]
    and [iter = 0], and nothing is updated, scaled, assembled or
    written. *)
Theorem eigen_iterations_without_pass fuel
    (it : Iteration EigenBase MGBase IGBase) :
  (err_k_tol (this it) <? 1)%float = false →
  (err_phi_tol (this it) <? 1)%float = false →
  eigen_iterations fuel it
  = Done (Some {| err_k := 1; err_phi := 1; iter := 0 |}) it.
Proof.
  intros Hk Hphi. unfold eigen_iterations. rewrite eigen_loop_unfold.
  unfold loop_continues. simpl. by rewrite Hk, Hphi.
Qed.

Lemma scale_fiss_transfer_needs_eigen_problem (e : EquationBase) keff :
  is_eigen_problem e = false →
  scale_fiss_transfer_matrices keff e
  = Thrown "Only eigen problem calls this member" e.
Proof.
  intros Heigen. unfold scale_fiss_transfer_matrices. eff_run.
  rewrite Heigen. by eff_run.
Qed.

Lemma insert_last {A} (l : list A) x :
  last l = Some x → <[length l - 1 := x]> l = l.
Proof.
  intros Hlast. apply list_insert_id. rewrite last_lookup in Hlast.
  by replace (length l - 1) with (pred (length l)) by lia.
Qed.

(** A member function that throws and leaves the last equation object as
    it was leaves the whole iteration as it was. *)
Lemma on_back_Thrown {A} (member : Eff EquationBase A)
    (it : Iteration EigenBase MGBase IGBase) e msg :
  last (equ_ptrs it) = Some e → member e = Thrown msg e →
  on_back member it = Thrown msg it.
Proof.
  intros Hlast Hthrown. unfold on_back, set_equ_ptrs.
  rewrite Hlast, Hthrown, (insert_last _ _ Hlast). by destruct it.
Qed.

(** X8.  The power iteration on a problem that is not an eigenvalue
    problem.  When the loop is entered, [update_prev_sflxes_fiss_src_keff]
    returns, and the last equation object was constructed without "do
    eigenvalue calculations", [eigen_iterations] throws "Only eigen
    problem calls this member" in its first pass: the state is the one
    that the update left, nothing is assembled, and the multigroup
    iterations do not run. *)
Theorem eigen_iterations_needs_eigen_problem fuel
    (it it1 : Iteration EigenBase MGBase IGBase) (e : EquationBase) :
  loop_continues (err_k_tol (this it)) (err_phi_tol (this it))
    {| err_k := 1; err_phi := 1; iter := 0 |} = true →
  update_prev_sflxes_fiss_src_keff it = Done tt it1 →
  last (equ_ptrs it1) = Some e →
  is_eigen_problem e = false →
  eigen_iterations (S fuel) it
  = Thrown "Only eigen problem calls this member" it1.
Proof.
  intros Htest Hupdate Hlast Heigen.
  unfold eigen_iterations. rewrite eigen_loop_unfold, Htest.
  apply bind_Thrown. unfold eigen_iteration.
  rewrite (bind_Done _ _ _ _ _ Hupdate). eff_run.
  apply bind_Thrown, (on_back_Thrown _ _ e); [done|].
  by apply scale_fiss_transfer_needs_eigen_problem.
Qed.

End Outer.

Section Log.
Context `{Collaborators} `{!Integrators}.

Lemma print_pcout tokens (e : EquationBase) :
  ∃ e', print tokens e = Done tt e'
    ∧ pcout e' = pcout e ++ (if pcout_active e then tokens else [])
    ∧ setup e' = setup e
    ∧ inverse_component_index e' = inverse_component_index e.
Proof.
  unfold print, modify. eexists. split; [reflexivity|].
  destruct (pcout_active e); simpl; [done|]. by rewrite app_nil_r.
Qed.

Lemma subscript_twice (m : gmap nat (nat * nat)) k k' :
  default (0, 0)
    (<[k := default (0, 0) (<[k := default (0, 0) (m !! k)]> m !! k)]>
       (<[k := default (0, 0) (m !! k)]> m) !! k')
  = default (0, 0) (m !! k').
Proof.
  destruct (decide (k = k')) as [->|Hne].
  - by rewrite !lookup_insert_eq.
  - by rewrite !lookup_insert_ne.
Qed.

Lemma setup_log (e e' : EquationBase) :
  setup e' = setup e →
  pcout_active e' = pcout_active e ∧ n_total_vars e' = n_total_vars e
  ∧ discretization e' = discretization e.
Proof. unfold setup. intros Heq. by simplify_eq. Qed.

(** The loop over the cells in [assemble_volume_boundary_bilinear_form]
    writes nothing. *)
Lemma volume_cells_keep_log k g i_dir streaming_at_qp collision_at_qp
    (local_mat : FullMatrix) :
  keeps (λ e, (pcout e, setup e, inverse_component_index e))
    (nc <- gets (λ e, length (local_cells e)) ;;
     _ <- for_from 0 nc (λ ic local_mat,
       cell <- element local_cells ic ;;
       get_local_dof_indices cell ;;
       let local_mat := full_fill 0 local_mat in
       e <- gets id ;;
       let local_mat :=
         integrate_cell_bilinear_form e cell local_mat streaming_at_qp
           collision_at_qp g i_dir in
       local_mat <- over_boundary_faces ic cell
         (λ e fn local_mat,
            integrate_boundary_bilinear_form e cell fn local_mat g i_dir)
         local_mat ;;
       indices <- gets local_dof_indices ;;
       add_to_sys_mat k indices indices local_mat ;;
       ret local_mat) local_mat ;;
     ret tt).
Proof. solve_keeps. Qed.

Lemma assemble_interface_keeps_pcout :
  keeps pcout assemble_interface_bilinear_form.
Proof. solve_keeps. Qed.

(** One line per component, in the order of the components. *)
Lemma assemble_volume_boundary_log (e e' : EquationBase) :
  assemble_volume_boundary_bilinear_form e = Done tt e' →
  pcout e'
  = pcout e ++ (if pcout_active e
                then seq 0 (n_total_vars e) ≫= component_line e else []).
Proof.
  unfold assemble_volume_boundary_bilinear_form. eff_run.
  intros (cell0 & e0 & [-> _]%element_Done & Hrun)%bind_Done_inv.
  revert Hrun. eff_run. unfold for_range. intros Hloop.
  eapply (for_from_partial (λ k (_ : unit) s,
      setup s = setup e
      ∧ (∀ k', group_of s k' = group_of e k'
               ∧ direction_of s k' = direction_of e k')
      ∧ pcout s
        = pcout e ++ (if pcout_active e
                      then seq 0 k ≫= component_line e else []))) in Hloop.
  - simpl in Hloop. by destruct Hloop as (_ & _ & ->).
  - split_and!; [done..|]. simpl. destruct (pcout_active e); by rewrite app_nil_r.
  - intros k [] s [] s' _ (Hsetup & Hmaps & Hlog).
    intros (m & s0 & [-> _]%element_Done & Hrun)%bind_Done_inv.
    apply bind_Done_inv in Hrun as ([] & s1 & [_ ->]%assign_element_Done & Hrun).
    apply bind_Done_inv in Hrun as (g & s2 & Hg & Hrun).
    apply bind_Done_inv in Hrun as (i_dir & s3 & Hdir & Hrun).
    injection Hg as <- <-. injection Hdir as <- <-.
    match type of Hrun with bind (print ?tokens) _ ?s3 = _ =>
      destruct (print_pcout tokens s3) as (s4 & Hprint & Hout & Hsetup4 & Hinv4)
    end.
    rewrite (bind_Done _ _ _ _ _ Hprint) in Hrun.
    pose proof (keeps_Done _ _ _ _ _
      (volume_cells_keep_log _ _ _ _ _ _) Hrun) as Hkept.
    pose proof (f_equal (λ x, x.1.1) Hkept) as Hpcout'.
    pose proof (f_equal (λ x, x.1.2) Hkept) as Hsetup'.
    pose proof (f_equal snd Hkept) as Hinv'.
    simpl in Hpcout', Hsetup', Hinv'. clear Hkept.
    destruct (setup_log _ _ Hsetup) as (Hactive & _ & _).
    assert (∀ k', group_of s' k' = group_of e k'
                  ∧ direction_of s' k' = direction_of e k') as Hmaps'.
    { intros k'. destruct (Hmaps k') as [<- <-].
      unfold group_of, direction_of. rewrite Hinv', Hinv4. simpl.
      by rewrite subscript_twice. }
    split_and!; [by rewrite Hsetup', Hsetup4|done|].
    simpl in Hout. rewrite Hpcout', Hout, Hlog, Hactive.
    destruct (pcout_active e); [|by rewrite !app_nil_r].
    rewrite <- app_assoc. f_equal.
    rewrite seq_S, bind_app. f_equal.
    rewrite bind_cons. change ([] ≫= component_line e) with (@nil Token).
    rewrite app_nil_r, lookup_insert_eq. simpl.
    unfold component_line. by destruct (Hmaps k) as [<- <-].
Qed.

(** X5.  What [assemble_bilinear_form] writes to [pcout].  When the call
    returns, the stream holds what it held, followed, on the process
    where the stream is active, by "Assemble volumetric bilinear forms",
    one line "Assembling Component: k, direction: d, group: g" for every
    component [k] in increasing order, with the direction and the group
    that the inverse index map gives for [k], and, for "dfem", by
    "Assemble cell interface bilinear forms for DFEM".  On the other
    processes nothing is written. *)
Theorem assemble_bilinear_form_log (e e' : EquationBase) :
  assemble_bilinear_form e = Done tt e' →
  pcout e' = pcout e ++ assembly_log e.
Proof.
  rewrite assemble_bilinear_form_unfold.
  intros ([] & e1 & Hvolume & Hrun)%bind_Done_inv.
  unfold volume_part in Hvolume.
  destruct (print_pcout [Str "Assemble volumetric bilinear forms"; Endl] e)
    as (e0 & Hprint & Hout0 & Hsetup0 & Hinv0).
  rewrite (bind_Done _ _ _ _ _ Hprint) in Hvolume.
  pose proof (assemble_volume_boundary_log _ _ Hvolume) as Hlog.
  pose proof (keeps_Done _ _ _ _ _ assemble_volume_boundary_keeps_setup Hvolume)
    as Hsetup1.
  destruct (setup_log _ _ Hsetup0) as (Hactive0 & Hn0 & Hd0).
  destruct (setup_log _ _ Hsetup1) as (Hactive1 & Hn1 & Hd1).
  assert (seq 0 (n_total_vars e0) ≫= component_line e0
          = seq 0 (n_total_vars e) ≫= component_line e) as Hlines.
  { rewrite Hn0. apply list_bind_ext; [|done]. intros k.
    unfold component_line, group_of, direction_of. by rewrite Hinv0. }
  rewrite Hactive0, Hlines, Hout0 in Hlog.
  revert Hrun. eff_run. rewrite Hd1, Hd0. unfold assembly_log.
  destruct (String.eqb (discretization e) "dfem").
  - eff_run. destruct (String.eqb (equation_name e1) "ep"); eff_run; [|done].
    intros ([] & e2 & Hinterface & Hrest)%bind_Done_inv.
    unfold interface_part in Hinterface.
    match type of Hinterface with bind (print ?tokens) _ _ = _ =>
      destruct (print_pcout tokens e1) as (e1' & Hprint1 & Hout1 & _)
    end.
    rewrite (bind_Done _ _ _ _ _ Hprint1) in Hinterface.
    pose proof (keeps_Done _ _ _ _ _ assemble_interface_keeps_pcout Hinterface)
      as Hkept.
    injection Hrest as <-. simpl. rewrite Hkept, Hout1, Hlog, Hactive1, Hactive0.
    destruct (pcout_active e); simpl; by rewrite <- ?app_assoc, ?app_nil_r.
  - eff_run. intros [= <-]. simpl. rewrite Hlog.
    destruct (pcout_active e); simpl; by rewrite <- ?app_assoc, ?app_nil_r.
Qed.

Lemma assemble_bilinear_form_keeps_vectors :
  keeps (λ e, (setup e, sys_aflxes e, sys_rhses e, sys_fixed_rhses e,
               scaled_fiss_transfer_per_ster e, component_index e))
    assemble_bilinear_form.
Proof. unfold assemble_bilinear_form. solve_keeps. Qed.

Lemma assemble_parts_keep_solver :
  keeps alg_ptr volume_part ∧ keeps alg_ptr interface_part.
Proof. split; [unfold volume_part|unfold interface_part]; solve_keeps. Qed.

Lemma bind_Thrown_inv {St A B} (c : Eff St A) (k : A → Eff St B) s msg s'' :
  bind c k s = Thrown msg s'' →
  c s = Thrown msg s'' ∨ ∃ a s', c s = Done a s' ∧ k a s' = Thrown msg s''.
Proof.
  unfold bind. destruct (c s) as [a s'|msg' s'|] eqn:Hc.
  - intros Hk. right. by exists a, s'.
  - intros [= -> ->]. by left.
  - done.
Qed.

Lemma assemble_bilinear_form_solver (e e' : EquationBase) :
  assemble_bilinear_form e = Done tt e' →
  alg_ptr e' = initialize_preconditioners (sys_mats e') (sys_rhses e') (alg_ptr e).
Proof.
  destruct assemble_parts_keep_solver as [Hvolume Hinterface].
  rewrite assemble_bilinear_form_unfold.
  intros ([] & e1 & Hrun1 & Hrun)%bind_Done_inv.
  pose proof (keeps_Done _ _ _ _ _ Hvolume Hrun1) as Halg1.
  revert Hrun. eff_run. unfold preconditioner_part.
  destruct (String.eqb (discretization e1) "dfem").
  - eff_run. destruct (String.eqb (equation_name e1) "ep"); eff_run; [|done].
    intros ([] & e2 & Hrun2 & Hrun)%bind_Done_inv.
    pose proof (keeps_Done _ _ _ _ _ Hinterface Hrun2) as Halg2.
    injection Hrun as <-. simpl. by rewrite Halg2, Halg1.
  - eff_run. intros [= <-]. simpl. by rewrite Halg1.
Qed.

Lemma assemble_bilinear_form_solver_thrown (e e' : EquationBase) msg :
  assemble_bilinear_form e = Thrown msg e' → alg_ptr e' = alg_ptr e.
Proof.
  destruct assemble_parts_keep_solver as [Hvolume Hinterface].
  rewrite assemble_bilinear_form_unfold.
  intros [Hrun1|([] & e1 & Hrun1 & Hrun)]%bind_Thrown_inv.
  { exact (keeps_Thrown _ _ _ _ _ Hvolume Hrun1). }
  pose proof (keeps_Done _ _ _ _ _ Hvolume Hrun1) as Halg1.
  revert Hrun. eff_run. unfold preconditioner_part.
  destruct (String.eqb (discretization e1) "dfem").
  - eff_run. destruct (String.eqb (equation_name e1) "ep"); eff_run.
    + intros [Hrun2|([] & e2 & _ & Hrun)]%bind_Thrown_inv; [|done].
      rewrite <- Halg1. exact (keeps_Thrown _ _ _ _ _ Hinterface Hrun2).
    + by intros [= _ <-].
  - eff_run. done.
Qed.

(** X20.  The frame of [assemble_bilinear_form].  Whether the call
    returns or throws, the angular fluxes, the sweep and the fixed
    right-hand sides, the scaled fission table, the index map and the
    members of [setup] are what they were.  When it returns, the solver
    is the one that [initialize_preconditioners] makes of the matrices
    as assembled; when it throws, the solver is what it was. *)
Theorem assemble_bilinear_form_frame (e : EquationBase) :
  match assemble_bilinear_form e with
  | Done _ e' =>
      (setup e', sys_aflxes e', sys_rhses e', sys_fixed_rhses e',
       scaled_fiss_transfer_per_ster e', component_index e')
      = (setup e, sys_aflxes e, sys_rhses e, sys_fixed_rhses e,
         scaled_fiss_transfer_per_ster e, component_index e)
      ∧ alg_ptr e'
        = initialize_preconditioners (sys_mats e') (sys_rhses e') (alg_ptr e)
  | Thrown _ e' =>
      (setup e', sys_aflxes e', sys_rhses e', sys_fixed_rhses e',
       scaled_fiss_transfer_per_ster e', component_index e')
      = (setup e, sys_aflxes e, sys_rhses e, sys_fixed_rhses e,
         scaled_fiss_transfer_per_ster e, component_index e)
      ∧ alg_ptr e' = alg_ptr e
  | Undefined => True
  end.
Proof.
  pose proof (assemble_bilinear_form_keeps_vectors e) as Hkept.
  destruct (assemble_bilinear_form e) as [[] e'|msg e'|] eqn:Hrun; [| |done].
  - split; [exact Hkept|]. by apply assemble_bilinear_form_solver.
  - split; [exact Hkept|]. by eapply assemble_bilinear_form_solver_thrown.
Qed.

End Log.

(** One pass of the creation loop on one collection. *)
Lemma created_step {A} i (fresh reinit : A) v :
  <[i := reinit]> (created i fresh reinit v ++ [fresh])
  = created (S i) fresh reinit v.
Proof.
  unfold created. rewrite <- app_assoc.
  rewrite insert_app_r_alt by (rewrite length_replicate; lia).
  rewrite length_replicate, Nat.sub_diag.
  rewrite <- drop_app_le by (rewrite length_app, length_replicate; lia).
  rewrite <- app_assoc, <- replicate_S_end.
  destruct (lookup_lt_is_Some_2 (v ++ replicate (S i) fresh) i) as [x Hx].
  { rewrite length_app, length_replicate. lia. }
  rewrite (drop_S _ _ _ Hx). simpl.
  by rewrite cons_middle, app_assoc, <- replicate_cons_app.
Qed.

Lemma length_created {A} n (fresh reinit : A) v :
  length (created n fresh reinit v) = length v + n.
Proof.
  unfold created. rewrite length_app, length_drop, length_app, !length_replicate.
  lia.
Qed.

Lemma created_lookup {A} n (fresh reinit : A) v i :
  i < n → created n fresh reinit v !! i = Some reinit.
Proof.
  intros Hi. unfold created.
  rewrite lookup_app_l by (rewrite length_replicate; lia).
  by apply lookup_replicate_2.
Qed.

Lemma created_nil {A} n (fresh reinit : A) :
  created n fresh reinit [] = replicate n reinit.
Proof.
  unfold created. simpl.
  rewrite drop_ge by (rewrite length_replicate; lia). apply app_nil_r.
Qed.

Lemma created_again {A} n (fresh reinit : A) :
  created n fresh reinit (replicate n reinit)
  = replicate n reinit ++ replicate n fresh.
Proof.
  unfold created. f_equal.
  rewrite drop_app_length'; [done|by rewrite length_replicate].
Qed.

Section Initialize.
Context `{Collaborators} `{!Integrators}.

Lemma create_components_created (e : EquationBase) dsp local_dofs :
  ∃ e', create_components dsp local_dofs e = Done tt e'
    ∧ setup e' = setup e
    ∧ sys_mats e'
      = created (n_total_vars e) ∅ (SparseMatrix_reinit dsp) (sys_mats e)
    ∧ sys_aflxes e'
      = created (n_total_vars e) [] (Vector_reinit local_dofs) (sys_aflxes e)
    ∧ sys_rhses e'
      = created (n_total_vars e) [] (Vector_reinit local_dofs) (sys_rhses e)
    ∧ sys_fixed_rhses e'
      = created (n_total_vars e) [] (Vector_reinit local_dofs) (sys_fixed_rhses e).
Proof.
  unfold create_components. eff_run. unfold for_range.
  match goal with |- ∃ _, for_from 0 ?n ?b _ _ = _ ∧ _ =>
    destruct (for_from_total (λ i (_ : unit) s,
        setup s = setup e
        ∧ sys_mats s = created i ∅ (SparseMatrix_reinit dsp) (sys_mats e)
        ∧ sys_aflxes s = created i [] (Vector_reinit local_dofs) (sys_aflxes e)
        ∧ sys_rhses s = created i [] (Vector_reinit local_dofs) (sys_rhses e)
        ∧ sys_fixed_rhses s
          = created i [] (Vector_reinit local_dofs) (sys_fixed_rhses e))
      n 0 b tt e) as ([] & e' & Hrun & Hinv)
  end.
  - unfold created. simpl. by rewrite !app_nil_r, !drop_0.
  - intros i [] s _ (Hsetup & Hmats & Haflxes & Hrhses & Hfixed).
    eff_run.
    do 3 (erewrite bind_Done;
          [|apply assign_element_run; simpl;
            rewrite ?Hmats, ?Haflxes, ?Hrhses, ?Hfixed, length_app,
              length_created; simpl; lia];
          eff_run).
    rewrite assign_element_run
      by (simpl; rewrite Hfixed, length_app, length_created; simpl; lia).
    eexists tt, _. split; [reflexivity|]. simpl.
    rewrite Hmats, Haflxes, Hrhses, Hfixed, !created_step. by split_and!.
  - exists e'. split; [exact Hrun|]. exact Hinv.
Qed.

(** What the call leaves behind, whatever the collections held before. *)
Lemma initialize_system_matrices_vectors_created (e : EquationBase) dsp
    local_dofs (sflxes_proc : list Vector) :
  length sflxes_proc = n_group e → n_group e ≤ n_total_vars e →
  ∃ e', initialize_system_matrices_vectors dsp local_dofs sflxes_proc e
        = Done (replicate (n_group e) (replicate local_dofs 1%float)) e'
    ∧ setup e' = setup e
    ∧ sys_mats e'
      = created (n_total_vars e) ∅ (SparseMatrix_reinit dsp) (sys_mats e)
    ∧ sys_aflxes e'
      = created (n_total_vars e) [] (Vector_reinit local_dofs) (sys_aflxes e)
    ∧ sys_rhses e'
      = created (n_total_vars e) [] (Vector_reinit local_dofs) (sys_rhses e)
    ∧ sys_fixed_rhses e'
      = created (n_total_vars e) [] (Vector_reinit local_dofs) (sys_fixed_rhses e).
Proof.
  intros Hsize Hle. rewrite initialize_system_matrices_vectors_unfold.
  destruct (create_components_created e dsp local_dofs)
    as (e1 & Hrun & Hsetup & Hmats & Haflxes & Hrhses & Hfixed).
  rewrite (bind_Done _ _ _ _ _ Hrun). eff_run.
  assert (n_group e1 = n_group e) as -> by (unfold setup in Hsetup; by simplify_eq).
  rewrite bool_decide_eq_true_2 by done. eff_run.
  match goal with |- ∃ _, for_from 0 ?n ?b ?a _ = _ ∧ _ =>
    destruct (for_from_total (λ (g : nat) (sflxes : list Vector) s,
        s = e1
        ∧ sflxes = replicate g (replicate local_dofs 1%float) ++ drop g sflxes_proc)
      n 0 b a e1) as (sflxes' & e' & Hloop & -> & ->)
  end.
  - by rewrite drop_0.
  - intros g sflxes s Hg (-> & ->). simpl in Hg.
    eexists _, e1. unfold bind, element.
    rewrite Haflxes, created_lookup by lia. simpl.
    destruct (lookup_lt_is_Some_2 sflxes_proc g) as [sflx Hsflx]; [lia|].
    rewrite lookup_app_r, length_replicate, Nat.sub_diag, lookup_drop, Nat.add_0_r,
      Hsflx by (rewrite length_replicate; lia).
    simpl. split; [reflexivity|]. split; [done|].
    rewrite insert_app_r_alt, length_replicate, Nat.sub_diag
      by (rewrite length_replicate; lia).
    rewrite (drop_S _ _ _ Hsflx). simpl.
    unfold vec_fill, Vector_reinit. rewrite length_replicate.
    by rewrite cons_middle, app_assoc, <- replicate_cons_app.
  - exists e1. split; [|done]. rewrite Hloop. f_equal. simpl.
    rewrite drop_ge by lia. apply app_nil_r.
Qed.

(** X12.  What [initialize_system_matrices_vectors] builds on an object
    whose collections are empty, for a [sflxes_proc] of [n_group]
    vectors and no more groups than components: the call returns with
    every vector of [sflxes_proc] holding [local_dofs] entries equal to
    1.0; there are [n_total_vars] system matrices, each zero on the
    sparsity pattern, and [n_total_vars] angular fluxes, sweep
    right-hand sides and fixed right-hand sides, each the zero vector of
    [local_dofs] entries. *)
Theorem initialize_system_matrices_vectors_result (e : EquationBase) dsp
    local_dofs (sflxes_proc : list Vector) :
  length sflxes_proc = n_group e → n_group e ≤ n_total_vars e →
  collection_sizes e = (0, 0, 0, 0) →
  ∃ e', initialize_system_matrices_vectors dsp local_dofs sflxes_proc e
        = Done (replicate (n_group e) (replicate local_dofs 1%float)) e'
    ∧ sys_mats e' = replicate (n_total_vars e) (SparseMatrix_reinit dsp)
    ∧ sys_aflxes e' = replicate (n_total_vars e) (replicate local_dofs 0%float)
    ∧ sys_rhses e' = replicate (n_total_vars e) (replicate local_dofs 0%float)
    ∧ sys_fixed_rhses e'
      = replicate (n_total_vars e) (replicate local_dofs 0%float).
Proof.
  intros Hsize Hle Hempty. unfold collection_sizes in Hempty.
  injection Hempty as Hmats%nil_length_inv Haflxes%nil_length_inv
    Hrhses%nil_length_inv Hfixed%nil_length_inv.
  destruct (initialize_system_matrices_vectors_created e dsp local_dofs
              sflxes_proc Hsize Hle)
    as (e' & Hrun & _ & Hmats' & Haflxes' & Hrhses' & Hfixed').
  exists e'. rewrite Hmats', Haflxes', Hrhses', Hfixed'.
  rewrite Hmats, Haflxes, Hrhses, Hfixed, !created_nil. by split_and!.
Qed.

(** X13.  [initialize_system_matrices_vectors] called a second time does
    not rebuild the collections but grows them: every pass pushes a new
    element to the back and re-initialises the element at the index of
    the pass, so that after the second call each collection holds
    [2 * n_total_vars] elements, the first [n_total_vars] re-initialised
    and the last [n_total_vars] as they were default-constructed, never
    initialised. *)
Theorem initialize_system_matrices_vectors_twice (e : EquationBase) dsp
    local_dofs (sflxes_proc : list Vector) :
  length sflxes_proc = n_group e → n_group e ≤ n_total_vars e →
  collection_sizes e = (0, 0, 0, 0) →
  ∃ sflxes_proc' e' sflxes_proc'' e'',
    initialize_system_matrices_vectors dsp local_dofs sflxes_proc e
    = Done sflxes_proc' e'
    ∧ initialize_system_matrices_vectors dsp local_dofs sflxes_proc' e'
      = Done sflxes_proc'' e''
    ∧ sys_mats e''
      = replicate (n_total_vars e) (SparseMatrix_reinit dsp)
        ++ replicate (n_total_vars e) ∅
    ∧ sys_aflxes e''
      = replicate (n_total_vars e) (replicate local_dofs 0%float)
        ++ replicate (n_total_vars e) []
    ∧ sys_rhses e''
      = replicate (n_total_vars e) (replicate local_dofs 0%float)
        ++ replicate (n_total_vars e) []
    ∧ sys_fixed_rhses e''
      = replicate (n_total_vars e) (replicate local_dofs 0%float)
        ++ replicate (n_total_vars e) [].
Proof.
  intros Hsize Hle Hempty. unfold collection_sizes in Hempty.
  injection Hempty as Hmats%nil_length_inv Haflxes%nil_length_inv
    Hrhses%nil_length_inv Hfixed%nil_length_inv.
  destruct (initialize_system_matrices_vectors_created e dsp local_dofs
              sflxes_proc Hsize Hle)
    as (e' & Hrun & Hsetup & Hmats' & Haflxes' & Hrhses' & Hfixed').
  assert (n_group e' = n_group e ∧ n_total_vars e' = n_total_vars e)
    as [Hng Hn] by (unfold setup in Hsetup; by simplify_eq).
  destruct (initialize_system_matrices_vectors_created e' dsp local_dofs
              (replicate (n_group e) (replicate local_dofs 1%float)))
    as (e'' & Hrun' & _ & Hmats'' & Haflxes'' & Hrhses'' & Hfixed'').
  { by rewrite length_replicate. }
  { lia. }
  eexists _, e', _, e''. split; [exact Hrun|]. split; [exact Hrun'|].
  rewrite Hmats'', Haflxes'', Hrhses'', Hfixed'', Hn.
  rewrite Hmats', Haflxes', Hrhses', Hfixed'.
  rewrite Hmats, Haflxes, Hrhses, Hfixed, !created_nil.
  unfold Vector_reinit. by rewrite !created_again.
Qed.

End Initialize.

Section Groups.
Context `{Collaborators} `{!Integrators}.

Lemma linear_system_set system (e : EquationBase) :
  linear_system (set_linear_system system e) = system.
Proof. by destruct system as [[[mats aflxes] rhses] alg]. Qed.

Lemma setup_set_linear_system system (e : EquationBase) :
  setup (set_linear_system system e) = setup e
  ∧ inverse_component_index (set_linear_system system e)
    = inverse_component_index e
  ∧ sys_fixed_rhses (set_linear_system system e) = sys_fixed_rhses e.
Proof. by destruct system as [[[mats aflxes] rhses] alg]. Qed.

Lemma on_linear_system_run {A}
    (c : Eff (list SparseMatrix * list Vector * list Vector
              * PreconditionerSolver) A) (e : EquationBase) a system :
  c (linear_system e) = Done a system →
  on_linear_system c e = Done a (set_linear_system system e).
Proof. unfold on_linear_system. by intros ->. Qed.

Lemma on_linear_system_thrown {A}
    (c : Eff (list SparseMatrix * list Vector * list Vector
              * PreconditionerSolver) A) (e : EquationBase) msg system :
  c (linear_system e) = Thrown msg system →
  on_linear_system c e = Thrown msg (set_linear_system system e).
Proof. unfold on_linear_system. by intros ->. Qed.

Lemma on_linear_system_undefined {A}
    (c : Eff (list SparseMatrix * list Vector * list Vector
              * PreconditionerSolver) A) (e : EquationBase) :
  c (linear_system e) = Undefined → on_linear_system c e = Undefined.
Proof. unfold on_linear_system. by intros ->. Qed.

(** The loop of [solve_in_group] from component [lo] on, against the
    calls of the solver for the components of the group among them. *)
Lemma solve_in_group_loop `{!LinearAlgebra} (g : nat) (e : EquationBase) cnt :
  ∀ lo (s : EquationBase),
  (∀ k, group_of s k = group_of e k) →
  match for_list (filter (λ i, group_of e i = g) (seq lo cnt))
          (λ i _, solve i) tt (linear_system s) with
  | Done _ system =>
      ∃ s', for_from lo cnt (λ i (_ : unit),
              gi <- get_component_group i ;;
              if decide (gi = g) then on_linear_system (solve i) else ret tt)
              tt s = Done tt s'
        ∧ linear_system s' = system
        ∧ setup s' = setup s ∧ sys_fixed_rhses s' = sys_fixed_rhses s
  | Thrown msg system =>
      ∃ s', for_from lo cnt (λ i (_ : unit),
              gi <- get_component_group i ;;
              if decide (gi = g) then on_linear_system (solve i) else ret tt)
              tt s = Thrown msg s'
        ∧ linear_system s' = system
        ∧ setup s' = setup s ∧ sys_fixed_rhses s' = sys_fixed_rhses s
  | Undefined =>
      for_from lo cnt (λ i (_ : unit),
        gi <- get_component_group i ;;
        if decide (gi = g) then on_linear_system (solve i) else ret tt)
        tt s = Undefined
  end.
Proof.
  induction cnt as [|cnt IH]; intros lo s Hgroups; simpl.
  { by exists s. }
  rewrite bind_bind, (bind_Done _ _ _ _ _ (get_component_group_run lo s)).
  assert (∀ k, group_of (recorded lo s) k = group_of e k) as Hgroups'.
  { intros k. by rewrite group_of_recorded. }
  rewrite Hgroups. case_decide as Hg.
  - rewrite filter_cons_True by done. simpl for_list.
    destruct (solve lo (linear_system s)) as [[] system|msg system|] eqn:Hsolve.
    + rewrite (bind_Done _ _ _ _ _ Hsolve).
      rewrite (bind_Done _ _ _ _ _
        (on_linear_system_run _ (recorded lo s) _ _ Hsolve)).
      set (s1 := set_linear_system system (recorded lo s)).
      destruct (setup_set_linear_system system (recorded lo s))
        as (Hsetup1 & Hinv1 & Hfixed1).
      assert (∀ k, group_of s1 k = group_of e k) as Hgroups1.
      { intros k. unfold group_of, s1. rewrite Hinv1. apply Hgroups'. }
      specialize (IH (S lo) s1 Hgroups1). unfold s1 at 1 in IH.
      rewrite linear_system_set in IH.
      destruct (for_list _ _ tt system) as [[] system'|msg system'|];
        [| |done];
        destruct IH as (s' & Hrun & Hsystem & Hsetup & Hfixed);
        exists s'; (split_and!; [done..| |]);
        [by rewrite Hsetup|by rewrite Hfixed|by rewrite Hsetup|by rewrite Hfixed].
    + rewrite (bind_Thrown _ _ _ _ _ Hsolve).
      rewrite (bind_Thrown _ _ _ _ _
        (on_linear_system_thrown _ (recorded lo s) _ _ Hsolve)).
      exists (set_linear_system system (recorded lo s)).
      destruct (setup_set_linear_system system (recorded lo s))
        as (Hsetup1 & _ & Hfixed1).
      by rewrite linear_system_set.
    + rewrite (bind_Undefined _ _ _ Hsolve).
      by rewrite (bind_Undefined _ _ _
        (on_linear_system_undefined _ (recorded lo s) Hsolve)).
  - rewrite filter_cons_False by done. rewrite bind_ret.
    specialize (IH (S lo) (recorded lo s) Hgroups').
    change (linear_system (recorded lo s)) with (linear_system s) in IH.
    destruct (for_list _ _ tt (linear_system s)) as [[] system'|msg system'|];
      [| |done];
      destruct IH as (s' & Hrun & Hsystem & Hsetup & Hfixed); by exists s'.
Qed.

(** X14.  [solve_in_group (g)] calls [linear_algebra_solve] for the
    components whose group is [g], in increasing order of the
    components and for no other component, each call on the matrices,
    fluxes, right-hand sides and solver that the call before left.
    When all the calls return, [solve_in_group] returns with what the
    last one left; when one throws, [solve_in_group] throws the same
    with what that call left, and no later component is solved; when
    one is undefined, so is [solve_in_group].  Where it returns or
    throws, the fixed right-hand sides and the members of [setup] are
    what they were. *)
Theorem solve_in_group_solves `{!LinearAlgebra} (g : nat) (e : EquationBase) :
  match for_list (components_of_group e g) (λ i _, solve i) tt
          (linear_system e) with
  | Done _ system =>
      ∃ e', solve_in_group g e = Done tt e'
        ∧ linear_system e' = system
        ∧ setup e' = setup e ∧ sys_fixed_rhses e' = sys_fixed_rhses e
  | Thrown msg system =>
      ∃ e', solve_in_group g e = Thrown msg e'
        ∧ linear_system e' = system
        ∧ setup e' = setup e ∧ sys_fixed_rhses e' = sys_fixed_rhses e
  | Undefined => solve_in_group g e = Undefined
  end.
Proof.
  unfold solve_in_group, components_of_group, for_range. eff_run.
  by apply (solve_in_group_loop g e (n_total_vars e) 0 e).
Qed.

Lemma defined_Done {St A} (o : option A) (s s' : St) a :
  defined o s = Done a s' → o = Some a ∧ s' = s.
Proof. unfold defined. destruct o; naive_solver. Qed.

Lemma generate_moments_loop_keeps_name g nd (sflx : Vector) :
  keeps equation_name
    (for_from 0 nd (λ i_dir sflx,
       i <- get_component_index i_dir g ;;
       add_direction i i_dir sflx) sflx).
Proof. solve_keeps. Qed.

(** X15.  The all-groups [generate_moments (sflxes_proc, sflxes_proc_old)]
    is the one-group overload applied to the groups in increasing order,
    each on the entries of its group, behind the assertion that the
    equation is not "nda" and that NDA is on: the two computations have
    the same outcome on every object, the same results, the same
    exception, or both undefined. *)
Theorem generate_moments_group_by_group (sflxes_proc sflxes_proc_old : list Vector)
    (e : EquationBase) :
  generate_moments_all sflxes_proc sflxes_proc_old e
  = generate_moments_by_group sflxes_proc sflxes_proc_old e.
Proof.
  unfold generate_moments_all, generate_moments_by_group. eff_run.
  destruct (String.eqb (equation_name e) "nda") eqn:Hname; simpl; eff_run;
    [done|].
  destruct (do_nda e); eff_run; [|done].
  apply (for_from_ext (λ s, equation_name s = equation_name e)); [done|..].
  - intros g [sflxes olds] s _ Hs.
    apply bind_ext. intros sflx s1 [_ ->]%defined_Done.
    apply bind_ext. intros old s2 [_ ->]%defined_Done.
    unfold generate_moments_group. eff_run. rewrite Hs, Hname. simpl. by eff_run.
  - intros g [sflxes olds] s a' s' Hs.
    intros (sflx & s1 & [_ ->]%defined_Done & Hrun)%bind_Done_inv.
    apply bind_Done_inv in Hrun as (old & s2 & [_ ->]%defined_Done & Hrun).
    revert Hrun. unfold generate_moments_group. eff_run.
    rewrite Hs, Hname. simpl. eff_run.
    intros (sflx' & s3 & Hloop & Hret)%bind_Done_inv.
    injection Hret as _ <-. rewrite <- Hs.
    exact (keeps_Done _ _ _ _ _ (generate_moments_loop_keeps_name g _ _) Hloop).
Qed.

End Groups.

Section FixedForm.
Context `{Collaborators} `{!Integrators}.

Lemma assemble_fixed_linear_form_keeps_systems sflx_prev :
  keeps (λ e, (sys_mats e, sys_aflxes e, sys_rhses e, setup e))
    (assemble_fixed_linear_form sflx_prev).
Proof. solve_keeps. Qed.

(** The inner loop of [assemble_fixed_linear_form] for component [k],
    which starts from the zeroed vector. *)
Lemma fixed_cells_loop sflx_prev (e s0 : EquationBase) k old :
  fixed_integrator_keeps_size →
  setup s0 = setup e →
  (∀ cell, cell ∈ local_cells e → is_Some (dof_handler e !! cell)) →
  (∀ cell c, cell ∈ local_cells e → dof_handler e !! cell = Some c →
     length (dof_indices c) = dofs_per_cell e
     ∧ Forall (λ i, i < length old) (dof_indices c)) →
  sys_fixed_rhses s0 !! k = Some (vec_fill 0 old) →
  ∃ s' contributions v,
    for_range (length (local_cells e)) (λ ic,
      dofs <- gets dofs_per_cell ;;
      cell <- element local_cells ic ;;
      get_local_dof_indices cell ;;
      e <- gets id ;;
      add_to_vector sys_fixed_rhses set_sys_fixed_rhses k
        (integrate_cell_fixed_linear_form e cell (replicate dofs 0%float)
           sflx_prev (group_of e k) (direction_of e k))) s0 = Done tt s'
    ∧ setup s' = setup e
    ∧ inverse_component_index s' = inverse_component_index s0
    ∧ length (sys_fixed_rhses s') = length (sys_fixed_rhses s0)
    ∧ (∀ k', k' ≠ k → sys_fixed_rhses s' !! k' = sys_fixed_rhses s0 !! k')
    ∧ Forall2 (λ cell contribution,
        ∃ c s, dof_handler e !! cell = Some c ∧ setup s = setup e
          ∧ inverse_component_index s = inverse_component_index s0
          ∧ contribution
            = (dof_indices c,
               integrate_cell_fixed_linear_form s cell
                 (replicate (dofs_per_cell e) 0%float) sflx_prev
                 (group_of s k) (direction_of s k)))
        (local_cells e) contributions
    ∧ add_contributions contributions (vec_fill 0 old) = Some v
    ∧ sys_fixed_rhses s' !! k = Some v.
Proof.
  intros Hkeep Hsetup0 Hmesh Hdofs Hzero. unfold for_range.
  match goal with |- context [for_from 0 ?n ?body tt s0] =>
    destruct (for_from_total (λ ic (_ : unit) s,
        setup s = setup e
        ∧ inverse_component_index s = inverse_component_index s0
        ∧ length (sys_fixed_rhses s) = length (sys_fixed_rhses s0)
        ∧ (∀ k', k' ≠ k → sys_fixed_rhses s !! k' = sys_fixed_rhses s0 !! k')
        ∧ ∃ contributions v,
            Forall2 (λ cell contribution,
              ∃ c s, dof_handler e !! cell = Some c ∧ setup s = setup e
                ∧ inverse_component_index s = inverse_component_index s0
                ∧ contribution
                  = (dof_indices c,
                     integrate_cell_fixed_linear_form s cell
                       (replicate (dofs_per_cell e) 0%float) sflx_prev
                       (group_of s k) (direction_of s k)))
              (take ic (local_cells e)) contributions
            ∧ add_contributions contributions (vec_fill 0 old) = Some v
            ∧ sys_fixed_rhses s !! k = Some v
            ∧ length v = length old)
      n 0 body tt s0)
      as ([] & s' & Hrun & Hsetup & Hinv & Hlen & Hothers
          & contributions & v & Hcells & Hsum & Hv & _)
  end.
  - split_and!; [done..|]. exists [], (vec_fill 0 old).
    split_and!; [constructor|done|done|]. unfold vec_fill. apply length_replicate.
  - intros ic [] s Hic (Hsetup & Hinv & Hlen & Hothers
                        & contributions & v & Hcells & Hsum & Hv & Hvlen).
    destruct (setup_cells _ _ Hsetup) as (Hmesh_s & Hlocal & _ & Hper & _ & _).
    simpl in Hic. eff_run.
    destruct (lookup_lt_is_Some_2 (local_cells e) ic ltac:(lia)) as [cell Hcell].
    assert (cell ∈ local_cells e) as Hin by by eapply list_elem_of_lookup_2.
    destruct (Hmesh cell Hin) as [c Hc].
    destruct (Hdofs cell c Hin Hc) as [Hnd Hrange].
    rewrite (bind_Done _ _ _ _ _
      (element_returns local_cells ic s cell ltac:(by rewrite Hlocal))).
    unfold get_local_dof_indices, dereference.
    rewrite bind_bind, (bind_Done _ _ _ _ _
      (element_returns dof_handler cell s c ltac:(by rewrite Hmesh_s))).
    eff_run. set (s1 := set_local_dof_indices _ s).
    set (cell_rhs := integrate_cell_fixed_linear_form _ _ _ _ _ _).
    destruct (vec_add_at_returns (dof_indices c) cell_rhs v) as (v' & Hadd & Hlen').
    { unfold cell_rhs. by rewrite Hkeep, length_replicate, Hper. }
    { by rewrite Hvlen. }
    unfold add_to_vector. eff_run.
    rewrite (bind_Done _ _ _ _ _ (element_returns sys_fixed_rhses k s1 v Hv)).
    simpl. unfold bind at 1, defined at 1. rewrite Hadd.
    rewrite assign_element_run by (simpl; by eapply lookup_lt_Some).
    eexists tt, _. split; [done|]. simpl.
    split_and!; [done|done|by rewrite length_insert| |].
    + intros k' Hne. rewrite list_lookup_insert_ne by done. by apply Hothers.
    + exists (contributions ++ [(dof_indices c, cell_rhs)]), v'.
      split_and!; [| |apply list_lookup_insert_eq; by eapply lookup_lt_Some
                   |congruence].
      * rewrite (take_S_r _ _ _ Hcell). apply Forall2_app; [done|].
        constructor; [|constructor]. exists c, s1. split_and!; [done..|].
        unfold cell_rhs. by rewrite Hper.
      * by eapply add_contributions_snoc.
  - exists s', contributions, v. rewrite take_ge in Hcells by done.
    by split_and!.
Qed.

(** What [assemble_fixed_linear_form] returns with, on an object that is
    ready for it. *)
Lemma assemble_fixed_linear_form_spec sflx_prev (e : EquationBase) :
  fixed_integrator_keeps_size → fixed_form_ready e →
  ∃ e', assemble_fixed_linear_form sflx_prev e = Done tt e'
    ∧ ∀ k old, k < n_total_vars e → sys_fixed_rhses e !! k = Some old →
        ∃ contributions v,
          fixed_contributions e sflx_prev k contributions
          ∧ add_contributions contributions (vec_fill 0 old) = Some v
          ∧ sys_fixed_rhses e' !! k = Some v.
Proof.
  intros Hkeep [Hmesh Hfixed].
  unfold assemble_fixed_linear_form. eff_run. unfold for_range at 1.
  match goal with |- context [for_from 0 ?n ?body tt e] =>
    destruct (for_from_total (λ k (_ : unit) s,
        setup s = setup e
        ∧ (∀ k', group_of s k' = group_of e k'
                 ∧ direction_of s k' = direction_of e k')
        ∧ (∀ k', k ≤ k' → sys_fixed_rhses s !! k' = sys_fixed_rhses e !! k')
        ∧ ∀ k' old, k' < k → sys_fixed_rhses e !! k' = Some old →
            ∃ contributions v,
              fixed_contributions e sflx_prev k' contributions
              ∧ add_contributions contributions (vec_fill 0 old) = Some v
              ∧ sys_fixed_rhses s !! k' = Some v)
      n 0 body tt e) as ([] & e' & Hrun & _ & _ & _ & Hdone)
  end.
  - split_and!; [done..|]. intros; lia.
  - intros k [] s Hk (Hsetup & Hmaps & Hrest & Hdone). simpl in Hk.
    destruct (Hfixed k ltac:(lia)) as (old & Hold & Hdofs).
    unfold get_component_group at 1. unfold bind at 1.
    set (s0 := set_inverse_component_index _ s).
    unfold get_component_direction at 1. unfold bind at 1.
    set (s1 := set_inverse_component_index _ s0).
    assert (∀ k', group_of s1 k' = group_of e k'
                  ∧ direction_of s1 k' = direction_of e k') as Hmaps1.
    { intros k'. destruct (Hmaps k') as [<- <-]. split.
      - etrans; [apply group_of_subscript|apply group_of_subscript].
      - etrans; [apply direction_of_subscript|apply direction_of_subscript]. }
    change (map_subscript (0, 0) (inverse_component_index s) k).1.2
      with (group_of s k).
    change (map_subscript (0, 0) (inverse_component_index s0) k).1.1
      with (direction_of s0 k).
    assert (group_of s k = group_of s1 k ∧ direction_of s0 k = direction_of s1 k)
      as [-> ->].
    { split.
      - destruct (Hmaps1 k) as [-> _]. by destruct (Hmaps k) as [-> _].
      - symmetry. apply direction_of_subscript. }
    rewrite (bind_Done _ _ _ _ _
      (element_returns sys_fixed_rhses k s1 old
         ltac:(simpl; rewrite Hrest by lia; exact Hold))).
    rewrite (bind_Done _ _ _ _ _
      (assign_element_run sys_fixed_rhses set_sys_fixed_rhses k (vec_fill 0 old) s1
         ltac:(simpl; eapply lookup_lt_Some; rewrite Hrest by lia; exact Hold))).
    set (s2 := set_sys_fixed_rhses _ s1). eff_run.
    assert (local_cells s2 = local_cells e) as ->
      by (destruct (setup_cells _ _ Hsetup) as (_ & Hlocal & _); exact Hlocal).
    destruct (fixed_cells_loop sflx_prev e s2 k old)
      as (s' & contributions & v & Hloop & Hsetup' & Hinv' & _ & Hothers'
          & Hcells & Hsum & Hv); [done..| |].
    { simpl. apply list_lookup_insert_eq. eapply lookup_lt_Some.
      rewrite Hrest by lia. exact Hold. }
    assert (∀ s, inverse_component_index s = inverse_component_index s2 →
              group_of s k = group_of e k ∧ direction_of s k = direction_of e k)
      as Hsame.
    { intros s3 Hs3. destruct (Hmaps1 k) as [<- <-].
      unfold group_of, direction_of. by rewrite Hs3. }
    exists tt, s'. split.
    { rewrite <- Hloop. unfold for_range.
      apply (for_from_ext (λ s, inverse_component_index s
                                = inverse_component_index s2)); [done|..].
      - intros ic [] s3 _ Hs3. destruct (Hsame s3 Hs3) as [Hg Hd].
        destruct (Hsame s1 eq_refl) as [-> ->].
        apply bind_ext. intros dofs s4 [= <- <-].
        apply bind_ext. intros cell s4 [-> _]%element_Done.
        apply bind_ext. intros [] s4 (c & _ & ->)%get_local_dof_indices_Done.
        eff_run. simpl.
        change (group_of (set_local_dof_indices (λ _, dof_indices c) s3) k)
          with (group_of s3 k).
        change (direction_of (set_local_dof_indices (λ _, dof_indices c) s3) k)
          with (direction_of s3 k).
        by rewrite Hg, Hd.
      - intros ic [] s3 [] s4 Hs3 Hbody. rewrite <- Hs3.
        refine (keeps_Done inverse_component_index _ _ _ _ _ Hbody).
        solve_keeps. }
    split_and!; [done| | |].
    + intros k'. unfold group_of, direction_of. rewrite Hinv'. apply Hmaps1.
    + intros k' Hk'. rewrite Hothers' by lia. simpl.
      rewrite list_lookup_insert_ne by lia. apply Hrest. lia.
    + intros k' old' Hk' Hold'. destruct (decide (k' = k)) as [->|Hne].
      * rewrite Hold in Hold'. injection Hold' as <-.
        exists contributions, v. split_and!; [|done..].
        unfold fixed_contributions. eapply Forall2_impl; [exact Hcells|].
        intros cell contribution (c & s3 & Hc & Hsetup3 & Hinv3 & ->).
        destruct (Hsame s3 Hinv3) as [-> ->]. by exists c, s3.
      * rewrite Hothers' by done. simpl. rewrite list_lookup_insert_ne by done.
        apply Hdone; [lia|done].
  - exists e'. split; [exact Hrun|]. intros k old Hk. by apply Hdone.
Qed.

Lemma set_sys_fixed_rhses_at_cell f local rhses (e : EquationBase) :
  set_sys_fixed_rhses f
    (set_local_dof_indices (λ _, local) (set_sys_fixed_rhses (λ _, rhses) e))
  = set_local_dof_indices (λ _, local) (set_sys_fixed_rhses (λ _, f rhses) e).
Proof. reflexivity. Qed.

Lemma recorded_at_fixed_cell k local rhses (e : EquationBase) :
  recorded k
    (set_local_dof_indices (λ _, local) (set_sys_fixed_rhses (λ _, rhses) e))
  = set_local_dof_indices (λ _, local)
      (set_sys_fixed_rhses (λ _, rhses) (recorded k e)).
Proof. reflexivity. Qed.

Lemma index_at_fixed_cell f h (e : EquationBase) k :
  group_of (set_local_dof_indices f (set_sys_fixed_rhses h e)) k = group_of e k
  ∧ direction_of (set_local_dof_indices f (set_sys_fixed_rhses h e)) k
    = direction_of e k.
Proof. done. Qed.

Lemma as_at_cell_of_fixed_form (e : EquationBase) :
  e = set_local_dof_indices (λ _, local_dof_indices e)
        (set_sys_fixed_rhses (λ _, sys_fixed_rhses e) e).
Proof. by destruct e. Qed.

(** The loop over the local cells in [assemble_fixed_linear_form], from
    the [ic]-th cell on. *)
Lemma fixed_form_cells_run (e : EquationBase) sflx_prev g i_dir k :
  ∀ cells ic rhses local,
  drop ic (local_cells e) = cells →
  returns_as
    (for_from ic (length cells) (λ ic (_ : unit),
       dofs <- gets dofs_per_cell ;;
       cell <- element local_cells ic ;;
       get_local_dof_indices cell ;;
       e <- gets id ;;
       add_to_vector sys_fixed_rhses set_sys_fixed_rhses k
         (integrate_cell_fixed_linear_form e cell (replicate dofs 0%float)
            sflx_prev g i_dir)) tt
       (set_local_dof_indices (λ _, local)
          (set_sys_fixed_rhses (λ _, rhses) e)))
    (add_fixed_form_cells e sflx_prev g i_dir k cells rhses)
    (λ rhses' _ s',
       ∃ local',
         s' = set_local_dof_indices (λ _, local')
                (set_sys_fixed_rhses (λ _, rhses') e)).
Proof.
  induction cells as [|cell cells IH]; intros ic rhses local Hdrop; simpl.
  { eexists tt, _. split; [reflexivity|]. by exists local. }
  apply drop_lookup_cons in Hdrop as [Hcell Hdrop].
  eff_run. unfold bind at 1. rewrite element_run. simpl. rewrite Hcell.
  rewrite bind_bind. unfold bind at 1. rewrite get_local_dof_indices_run. simpl.
  destruct (dof_handler e !! cell) as [c|] eqn:Hc; simpl; [|done].
  eff_run. unfold bind at 1. rewrite add_to_vector_run. simpl.
  unfold at_cell_of_fixed_form, id. rewrite !set_local_dof_indices_twice.
  destruct (rhses !! k) as [v|]; simpl; [|done].
  match goal with |- context [vec_add_at ?i ?x v] =>
    destruct (vec_add_at i x v) as [v'|]; simpl; [|done]
  end.
  rewrite set_sys_fixed_rhses_at_cell. apply IH, Hdrop.
Qed.

(** The loop over the components in [assemble_fixed_linear_form]. *)
Lemma fixed_form_loop_run sflx_prev :
  ∀ cnt lo (e : EquationBase) rhses local,
  returns_as
    (for_from lo cnt (λ k (_ : unit),
       g <- get_component_group k ;;
       i_dir <- get_component_direction k ;;
       fixed <- element sys_fixed_rhses k ;;
       assign_element sys_fixed_rhses set_sys_fixed_rhses k (vec_fill 0 fixed) ;;
       nc <- gets (λ e, length (local_cells e)) ;;
       for_range nc (λ ic,
         dofs <- gets dofs_per_cell ;;
         cell <- element local_cells ic ;;
         get_local_dof_indices cell ;;
         e <- gets id ;;
         add_to_vector sys_fixed_rhses set_sys_fixed_rhses k
           (integrate_cell_fixed_linear_form e cell (replicate dofs 0%float)
              sflx_prev g i_dir))) tt
       (set_local_dof_indices (λ _, local)
          (set_sys_fixed_rhses (λ _, rhses) e)))
    (fixed_form_of_components (seq lo cnt) e sflx_prev rhses)
    (λ rhses' _ s', sys_fixed_rhses s' = rhses').
Proof.
  induction cnt as [|cnt IH]; intros lo e rhses local; simpl.
  { by eexists tt, _. }
  rewrite !bind_bind.
  rewrite (bind_Done _ _ _ _ _ (get_component_group_run lo _)).
  rewrite !bind_bind.
  rewrite (bind_Done _ _ _ _ _ (get_component_direction_run lo _)).
  rewrite recorded_twice, recorded_at_fixed_cell.
  rewrite (proj1 (index_at_fixed_cell _ _ _ _)),
    (proj2 (index_at_fixed_cell _ _ _ _)), direction_of_recorded.
  rewrite !bind_bind. unfold bind at 1. rewrite element_run. simpl.
  destruct (rhses !! lo) as [old|] eqn:Hold; simpl; [|done].
  rewrite !bind_bind. unfold bind at 1, assign_element at 1. simpl.
  rewrite decide_True by (by eapply lookup_lt_Some). simpl.
  rewrite set_sys_fixed_rhses_at_cell. eff_run. unfold for_range.
  apply returns_as_bind
    with (post := λ rhses' (_ : unit) s',
            ∃ local',
              s' = set_local_dof_indices (λ _, local')
                     (set_sys_fixed_rhses (λ _, rhses') (recorded lo e))).
  - apply (fixed_form_cells_run (recorded lo e) sflx_prev (group_of e lo)
             (direction_of e lo) lo (local_cells e) 0). apply drop_0.
  - intros rhses' [] s' [local' ->]. apply IH.
Qed.

(** [assemble_fixed_linear_form] returns exactly when the fixed
    right-hand sides are defined, and leaves them in [sys_fixed_rhses]. *)
Lemma assemble_fixed_linear_form_run (e : EquationBase) sflx_prev :
  returns_as (assemble_fixed_linear_form sflx_prev e)
    (fixed_right_hand_sides sflx_prev e)
    (λ rhses' _ e', sys_fixed_rhses e' = rhses').
Proof.
  unfold assemble_fixed_linear_form, fixed_right_hand_sides, for_range. eff_run.
  rewrite (as_at_cell_of_fixed_form e) at 2.
  apply fixed_form_loop_run.
Qed.

(** X2.  [assemble_fixed_linear_form (sflx_prev)] rebuilds the fixed
    right-hand sides.  On an object that is ready for it, and with an
    integrator that keeps the size of the local vector, the call returns;
    the system matrices, the angular fluxes and the sweep right-hand
    sides are what they were; and [sys_fixed_rhses] is
    [fixed_right_hand_sides]: the components in turn are set to the zero
    vector of their size and have, for every local cell in turn, added
    at the degrees of freedom of the cell what
    [integrate_cell_fixed_linear_form] makes of the zero local vector
    for the group and direction of the component, on the object as it
    is at that cell. *)
Theorem assemble_fixed_linear_form_rebuilds sflx_prev (e : EquationBase) :
  fixed_integrator_keeps_size → fixed_form_ready e →
  ∃ e', assemble_fixed_linear_form sflx_prev e = Done tt e'
    ∧ sys_mats e' = sys_mats e
    ∧ sys_aflxes e' = sys_aflxes e
    ∧ sys_rhses e' = sys_rhses e
    ∧ fixed_right_hand_sides sflx_prev e = Some (sys_fixed_rhses e').
Proof.
  intros Hkeep Hready.
  destruct (assemble_fixed_linear_form_spec sflx_prev e Hkeep Hready)
    as (e' & Hrun & _).
  pose proof (keeps_Done _ _ _ _ _
    (assemble_fixed_linear_form_keeps_systems sflx_prev) Hrun) as Hkept.
  exists e'. split; [done|].
  split_and!; [congruence..|].
  destruct (returns_as_Done _ _ _ _ _ (assemble_fixed_linear_form_run e sflx_prev) Hrun)
    as (rhses & -> & Hrhses).
  by rewrite Hrhses.
Qed.

End FixedForm.

Lemma vec_add_at_zeros indices n v v' :
  vec_add_at indices (replicate n 0%float) v = Some v' →
  Forall (λ x, x = 0%float) v → v' = v.
Proof.
  revert n v. induction indices as [|i indices IH]; intros [|n] v; simpl; try done.
  - by intros [= ->].
  - destruct (v !! i) as [y|] eqn:Hy; [|done]. intros Hadd Hzero.
    pose proof (Forall_lookup_1 _ _ _ _ Hzero Hy) as Hy0. simpl in Hy0. subst y.
    change (0 + 0)%float with 0%float in Hadd.
    rewrite list_insert_id in Hadd by done. by eapply IH.
Qed.

Section BaseClass.
Context `{Collaborators}.

(** X3.  With the integrators of [EquationBase<dim>] itself, whose bodies
    are empty, [assemble_fixed_linear_form] leaves every fixed right-hand
    side at zero: on an object that is ready for it the call returns, and
    [sys_fixed_rhses[k]] is the zero vector of its former size for every
    component [k]. *)
Theorem base_class_fixed_source_is_zero sflx_prev (e : EquationBase) :
  fixed_form_ready e →
  ∃ e', @assemble_fixed_linear_form _ EquationBase_integrators sflx_prev e
        = Done tt e'
    ∧ ∀ k old, k < n_total_vars e → sys_fixed_rhses e !! k = Some old →
        sys_fixed_rhses e' !! k = Some (vec_fill 0 old).
Proof.
  intros Hready.
  destruct (@assemble_fixed_linear_form_spec _ EquationBase_integrators
              sflx_prev e) as (e' & Hrun & Hfixed); [done..|].
  exists e'. split; [exact Hrun|]. intros k old Hk Hold.
  destruct (Hfixed k old Hk Hold) as (contributions & v & Hcells & Hsum & ->).
  f_equal. unfold fixed_contributions in Hcells.
  assert (Forall (λ x, x = 0%float) (vec_fill 0 old)) as Hzero
    by (unfold vec_fill; by apply Forall_replicate).
  revert Hsum Hzero. generalize (vec_fill 0 old).
  induction Hcells as [|cell [indices values] cells contributions Hcell _ IH];
    intros v0; simpl.
  - by intros [= ->].
  - destruct Hcell as (c & s & _ & _ & [= -> ->]). simpl.
    destruct (vec_add_at _ _ v0) as [v1|] eqn:Hadd; [|done].
    intros Hsum Hzero. apply vec_add_at_zeros in Hadd as ->; [|done].
    by apply IH.
Qed.

End BaseClass.

(** ** The test helper *)

(** The process after one more call to the library. *)
Lemma library_run call (p : TestProcess) :
  library call p
  = Done (returns p call)
      {| helper := helper p; returns := returns p;
         calls := calls p ++ [call]; local_time := local_time p |}.
Proof. reflexivity. Qed.

Lemma CleanupGold_run filename result actual_good (p : TestProcess) :
  CleanupGold filename result actual_good p
  = (err <- library (cleanup_call (helper p) filename result actual_good) ;;
     if decide (err ≠ 0%Z)
     then throw_runtime_error
            (cleanup_diagnostic (helper p) filename result actual_good)
     else ret tt) p.
Proof.
  unfold CleanupGold, cleanup_call, cleanup_diagnostic. eff_run.
  destruct (actual_good && (result || negb (report_ (helper p)))); [done|].
  by eff_run.
Qed.

(** X16.  [CleanupGold] makes exactly one call to the C library: it
    removes the actual file when the actual stream is good and the test
    passed or reporting is off, and otherwise renames it into the report
    directory; it returns when that call returns 0 and throws the
    diagnostic of the call otherwise.  [GoldTest], which is declared to
    return [bool], ends with the call of [CleanupGold]: it throws when
    [CleanupGold] throws, and when [CleanupGold] returns it flows off its
    end and yields no value. *)
Theorem GoldTest_makes_one_call filename RunGoldTest ActualGood
    (p : TestProcess) :
  let call := cleanup_call (helper p) filename RunGoldTest ActualGood in
  let p' := {| helper := helper p; returns := returns p;
               calls := calls p ++ [call]; local_time := local_time p |} in
  (returns p call = 0%Z →
     CleanupGold filename RunGoldTest ActualGood p = Done tt p'
     ∧ GoldTest filename RunGoldTest ActualGood p = Undefined)
  ∧ (returns p call ≠ 0%Z →
     let msg := cleanup_diagnostic (helper p) filename RunGoldTest ActualGood in
     CleanupGold filename RunGoldTest ActualGood p = Thrown msg p'
     ∧ GoldTest filename RunGoldTest ActualGood p = Thrown msg p').
Proof.
  intros call p'. unfold GoldTest. split.
  - intros Hok. assert (CleanupGold filename RunGoldTest ActualGood p = Done tt p')
      as Hrun.
    { rewrite CleanupGold_run. unfold bind. rewrite library_run. fold call.
      rewrite Hok. by rewrite decide_False by (by intros ?). }
    split; [done|]. by rewrite (bind_Done _ _ _ _ _ Hrun).
  - intros Herr. cbv zeta.
    set (msg := cleanup_diagnostic (helper p) filename RunGoldTest ActualGood).
    assert (CleanupGold filename RunGoldTest ActualGood p = Thrown msg p') as Hrun.
    { rewrite CleanupGold_run. unfold bind. rewrite library_run. fold call.
      rewrite decide_True by done. reflexivity. }
    split; [exact Hrun|]. by rewrite (bind_Thrown _ _ _ _ _ Hrun).
Qed.

(** X17.  Where the actual file of a failed test goes.  A helper
    constructed with [report = false] calls nothing and has an empty
    report directory, so that an actual file whose stream is bad is
    renamed to "/" followed by its name, while the diagnostic of a failed
    rename names the file itself as the target.  A helper constructed
    with [report = true] makes one [mkdir] of
    [gold_files_directory + time + "_fail"] and, when that does not
    return -1, the actual file of a failed test is renamed into that
    directory. *)
Theorem where_the_actual_file_goes gold_files_directory filename
    (p : TestProcess) :
  (∃ p1, BartTestHelper_new false gold_files_directory p = Done tt p1
     ∧ calls p1 = calls p
     ∧ cleanup_call (helper p1) filename false false
       = Rename filename ("/" +:+ filename)
     ∧ (returns p (Rename filename ("/" +:+ filename)) ≠ 0%Z →
        ∃ p2, CleanupGold filename false false p1
              = Thrown ("Failed to move actual test file: " +:+ filename
                        +:+ " to " +:+ filename) p2))
  ∧ (returns p (Mkdir (gold_files_directory +:+ local_time p +:+ "_fail")
                  report_directory_mode) ≠ (-1)%Z →
     ∃ p1, BartTestHelper_new true gold_files_directory p = Done tt p1
       ∧ calls p1
         = calls p ++ [Mkdir (gold_files_directory +:+ local_time p +:+ "_fail")
                         report_directory_mode]
       ∧ ∀ actual_good,
           cleanup_call (helper p1) filename false actual_good
           = Rename filename
               ((gold_files_directory +:+ local_time p +:+ "_fail")
                +:+ "/" +:+ filename)).
Proof.
  split.
  - eexists. split; [reflexivity|]. do 2 (split; [reflexivity|]).
    intros Herr. eexists. rewrite CleanupGold_run. unfold bind.
    rewrite library_run. simpl. by rewrite decide_True.
  - intros Hok. unfold BartTestHelper_new, MakeReportDirectory. eff_run.
    unfold bind. rewrite library_run. simpl. rewrite decide_False by congruence.
    eexists. split; [reflexivity|]. simpl. split; [done|].
    intros actual_good. unfold cleanup_call. simpl.
    by rewrite andb_false_r.
Qed.

(** A loop whose passes return up to one that is undefined is
    undefined. *)
Lemma for_from_undefined_at {St A} (I : nat → A → St → Prop) j cnt :
  ∀ lo (body : nat → A → Eff St A) a s,
  lo ≤ j < lo + cnt →
  I lo a s →
  (∀ i a s, lo ≤ i < j → I i a s →
            ∃ a' s', body i a s = Done a' s' ∧ I (S i) a' s') →
  (∀ a s, I j a s → body j a s = Undefined) →
  for_from lo cnt body a s = Undefined.
Proof.
  induction cnt as [|cnt IH]; intros lo body a s Hj HI Hbefore Hat; [lia|].
  simpl. destruct (decide (lo = j)) as [->|Hne].
  - by apply bind_Undefined, Hat.
  - destruct (Hbefore lo a s ltac:(lia) HI) as (a' & s' & Hrun & HI').
    rewrite (bind_Done _ _ _ _ _ Hrun).
    apply IH; [lia|done| |done]. intros i ?? Hi. apply Hbefore. lia.
Qed.

Section Bounds.
Context `{Collaborators} `{!Integrators}.

(** X18.  Fewer components than groups.  On an object whose collections
    are empty and that has fewer components than groups,
    [initialize_system_matrices_vectors] is undefined for a
    [sflxes_proc] of [n_group] vectors: the size assertion passes, and
    the second loop reads [sys_aflxes[g]] past the end at
    [g = n_total_vars]. *)
Theorem initialize_with_fewer_components_than_groups (e : EquationBase) dsp
    local_dofs (sflxes_proc : list Vector) :
  length sflxes_proc = n_group e → n_total_vars e < n_group e →
  collection_sizes e = (0, 0, 0, 0) →
  initialize_system_matrices_vectors dsp local_dofs sflxes_proc e = Undefined.
Proof.
  intros Hsize Hfewer Hempty. unfold collection_sizes in Hempty.
  injection Hempty as _ Haflxes%nil_length_inv _ _.
  rewrite initialize_system_matrices_vectors_unfold.
  destruct (create_components_created e dsp local_dofs)
    as (e1 & Hrun & Hsetup & _ & Haflxes1 & _).
  rewrite (bind_Done _ _ _ _ _ Hrun). eff_run.
  assert (n_group e1 = n_group e) as -> by (unfold setup in Hsetup; by simplify_eq).
  rewrite bool_decide_eq_true_2 by done. eff_run.
  rewrite Haflxes, created_nil in Haflxes1.
  apply (for_from_undefined_at
           (λ _ (sflxes : list Vector) s, s = e1 ∧ length sflxes = n_group e)
           (n_total_vars e)); [lia|done|..].
  - intros g sflxes s Hg [-> Hlen].
    destruct (lookup_lt_is_Some_2 sflxes g) as [sflx Hsflx]; [lia|].
    eexists _, e1. unfold bind, element.
    rewrite Haflxes1, lookup_replicate_2 by lia. simpl. rewrite Hsflx. simpl.
    split; [reflexivity|]. by rewrite length_insert.
  - intros sflxes s [-> _]. unfold bind, element.
    rewrite Haflxes1, lookup_ge_None_2; [done|]. rewrite length_replicate. lia.
Qed.

Lemma estimate_fiss_src_keeps `{!FissionSource} all_nusigf phis :
  keeps (λ e, (setup e, linear_system e, sys_fixed_rhses e))
    (estimate_fiss_src all_nusigf phis).
Proof. unfold estimate_fiss_src, linear_system. solve_keeps. Qed.

(** X19.  [estimate_fiss_src] on a process whose local cells are all of
    materials that are not fissile: the call returns what
    [Utilities::MPI::sum] makes of 0.0, reads neither the fluxes it is
    handed nor [all_nusigf], and leaves the matrices, the vectors, the
    solver and the members of [setup] as they were. *)
Theorem estimate_fiss_src_without_fissile_cells `{!FissionSource}
    all_nusigf phis_this_process (e : EquationBase) :
  (∀ cell, cell ∈ local_cells e →
     ∃ c, dof_handler e !! cell = Some c
       ∧ material_is_fissile e (material_id c) = false) →
  ∃ e', estimate_fiss_src all_nusigf phis_this_process e
        = Done (MPI_sum 0) e'
    ∧ setup e' = setup e
    ∧ linear_system e' = linear_system e
    ∧ sys_fixed_rhses e' = sys_fixed_rhses e.
Proof.
  intros Hcells.
  assert (∃ e', estimate_fiss_src all_nusigf phis_this_process e
                = Done (MPI_sum 0) e') as [e' Hrun].
  { unfold estimate_fiss_src. eff_run.
    match goal with |- context [bind (for_from 0 ?n ?body ?a) _ e] =>
      destruct (for_from_total (λ _ (fiss_src : float) s,
          fiss_src = 0%float ∧ setup s = setup e
          ∧ ∀ m, material_is_fissile s m = material_is_fissile e m)
        n 0 body a e) as (fiss_src & e' & Hloop & -> & _)
    end.
    - done.
    - intros ic fiss_src s Hic (-> & Hsetup & Hfis). simpl in Hic.
      destruct (setup_cells _ _ Hsetup) as (Hmesh & Hlocal & _).
      destruct (lookup_lt_is_Some_2 (local_cells e) ic ltac:(lia)) as [cell Hcell].
      destruct (Hcells cell) as (c & Hc & Hnot); [by eapply list_elem_of_lookup_2|].
      rewrite (bind_Done _ _ _ _ _
        (element_returns local_cells ic s cell ltac:(by rewrite Hlocal))).
      eff_run. unfold dereference.
      rewrite (bind_Done _ _ _ _ _
        (element_returns dof_handler cell s c ltac:(by rewrite Hmesh))).
      destruct (is_fissile_run s (material_id c)) as (s1 & Hrun1 & Hfis1 & _).
      rewrite (bind_Done _ _ _ _ _ Hrun1), Hfis, Hnot.
      exists 0%float, s1. split; [reflexivity|]. split; [done|]. split.
      + rewrite <- Hsetup.
        refine (keeps_Done setup _ _ _ _ _ Hrun1). solve_keeps.
      + intros m. by rewrite Hfis1.
    - exists e'. by rewrite (bind_Done _ _ _ _ _ Hloop). }
  exists e'. split; [exact Hrun|].
  pose proof (keeps_Done _ _ _ _ _
    (estimate_fiss_src_keeps all_nusigf phis_this_process) Hrun) as Hkept.
  split_and!; [exact (f_equal (λ x, x.1.1) Hkept)
              |exact (f_equal (λ x, x.1.2) Hkept)|exact (f_equal snd Hkept)].
Qed.

End Bounds.

(** ** The scalar fluxes of the high-order equation *)

Section HighOrder.
Context `{Collaborators} `{!Integrators}.

(** The first loop of [generate_moments ()]: the angular fluxes are
    copied to the process. *)
Lemma copy_angular_fluxes (e : EquationBase) :
  n_total_vars e ≤ length (sys_aflxes e) →
  n_total_vars e ≤ length (aflxes_proc e) →
  ∃ e', for_range (n_total_vars e) (λ i,
          aflx <- element sys_aflxes i ;;
          assign_element aflxes_proc set_aflxes_proc i aflx) e = Done tt e'
    ∧ (∀ i, i < n_total_vars e → aflxes_proc e' !! i = sys_aflxes e !! i)
    ∧ setup e' = setup e ∧ wi e' = wi e
    ∧ component_index e' = component_index e
    ∧ ho_sflxes_proc e' = ho_sflxes_proc e.
Proof.
  intros Hsys Hproc. unfold for_range.
  match goal with |- context [for_from 0 ?n ?body tt e] =>
    destruct (for_from_total (λ i (_ : unit) s,
        sys_aflxes s = sys_aflxes e
        ∧ length (aflxes_proc s) = length (aflxes_proc e)
        ∧ (∀ i', i' < i → aflxes_proc s !! i' = sys_aflxes e !! i')
        ∧ setup s = setup e ∧ wi s = wi e
        ∧ component_index s = component_index e
        ∧ ho_sflxes_proc s = ho_sflxes_proc e)
      n 0 body tt e) as ([] & e' & Hrun & _ & _ & Hcopied & Hrest)
  end.
  - split_and!; [done..| |done|done|done|done]. intros; lia.
  - intros i [] s Hi (Hsys_s & Hlen & Hcopied & Hsetup & Hwi & Hci & Hho).
    simpl in Hi.
    destruct (lookup_lt_is_Some_2 (sys_aflxes e) i ltac:(lia)) as [aflx Haflx].
    rewrite (bind_Done _ _ _ _ _
      (element_returns sys_aflxes i s aflx ltac:(by rewrite Hsys_s))).
    rewrite assign_element_run by lia.
    eexists tt, _. split; [reflexivity|]. simpl.
    split_and!; simpl.
    1: done. 1: rewrite length_insert; exact Hlen. 2: exact Hsetup. 2: done. 2: done. 2: done.
    intros i' Hi'. destruct (decide (i' = i)) as [->|Hne].
    + rewrite list_lookup_insert_eq by lia. done.
    + rewrite list_lookup_insert_ne by done. apply Hcopied. lia.
  - destruct Hrest as (? & ? & ? & ?). exists e'. by split_and!.
Qed.

(** One direction added to the scalar flux of the group. *)
Lemma add_ho_direction (s : EquationBase) g i_dir w (aflx ho : Vector) :
  wi s !! i_dir = Some w →
  aflxes_proc s !! component_of s i_dir g = Some aflx →
  ho_sflxes_proc s !! g = Some ho →
  length ho = length aflx →
  ∃ s', (w <- element wi i_dir ;;
         i <- get_component_index i_dir g ;;
         a <- element aflxes_proc i ;;
         ho <- element ho_sflxes_proc g ;;
         ho <- defined (vec_add w a ho) ;;
         assign_element ho_sflxes_proc set_ho_sflxes_proc g ho) s = Done tt s'
    ∧ ho_sflxes_proc s'
      = <[g := zip_with (λ x y, x + w * y)%float ho aflx]> (ho_sflxes_proc s)
    ∧ aflxes_proc s' = aflxes_proc s ∧ wi s' = wi s ∧ setup s' = setup s
    ∧ ∀ d g', component_of s' d g' = component_of s d g'.
Proof.
  intros Hw Haflx Hho Hlen.
  rewrite (bind_Done _ _ _ _ _ (element_returns wi i_dir s w Hw)).
  destruct (get_component_index_run s i_dir g)
    as (s1 & Hrun1 & Hcomp1 & _ & Hwi1 & Hproc1).
  rewrite (bind_Done _ _ _ _ _ Hrun1).
  assert (ho_sflxes_proc s1 = ho_sflxes_proc s ∧ setup s1 = setup s) as [Hho1 Hsetup1].
  { unfold get_component_index in Hrun1. by injection Hrun1 as <-. }
  rewrite (bind_Done _ _ _ _ _
    (element_returns aflxes_proc _ s1 aflx ltac:(by rewrite Hproc1))).
  rewrite (bind_Done _ _ _ _ _
    (element_returns ho_sflxes_proc g s1 ho ltac:(by rewrite Hho1))).
  unfold bind at 1, defined at 1, vec_add. rewrite decide_True by done.
  rewrite assign_element_run by (rewrite Hho1; by eapply lookup_lt_Some).
  eexists. split; [reflexivity|]. simpl. rewrite Hho1. by split_and!.
Qed.

(** The scalar flux of one group: the body of the second loop. *)
Lemma ho_scalar_flux_of_group (s : EquationBase) g size (fluxes : list Vector) ho0 :
  0 < n_dir s → n_dir s ≤ length (wi s) →
  length fluxes = n_dir s →
  (∀ i_dir aflx, fluxes !! i_dir = Some aflx →
     aflxes_proc s !! component_of s i_dir g = Some aflx ∧ length aflx = size) →
  ho_sflxes_proc s !! g = Some ho0 → length ho0 = size →
  ∃ s' ho,
    (w <- element wi 0 ;;
     i <- get_component_index 0 g ;;
     a <- element aflxes_proc i ;;
     ho <- element ho_sflxes_proc g ;;
     ho <- defined (vec_equ w a ho) ;;
     assign_element ho_sflxes_proc set_ho_sflxes_proc g ho ;;
     nd <- gets n_dir ;;
     for_from 1 (nd - 1) (λ i_dir _,
       w <- element wi i_dir ;;
       i <- get_component_index i_dir g ;;
       a <- element aflxes_proc i ;;
       ho <- element ho_sflxes_proc g ;;
       ho <- defined (vec_add w a ho) ;;
       assign_element ho_sflxes_proc set_ho_sflxes_proc g ho) tt) s = Done tt s'
    ∧ ho_sflxes_proc s' = <[g := ho]> (ho_sflxes_proc s)
    ∧ length ho = size
    ∧ (∀ j, j < size → ho !! j = Some (first_then_sum_at (wi s) fluxes j))
    ∧ aflxes_proc s' = aflxes_proc s ∧ wi s' = wi s ∧ setup s' = setup s
    ∧ ∀ d g', component_of s' d g' = component_of s d g'.
Proof.
  intros Hnd Hweights Hfluxes Hcomponents Hho0 Hsize0.
  destruct (lookup_lt_is_Some_2 (wi s) 0 ltac:(lia)) as [w0 Hw0].
  destruct (lookup_lt_is_Some_2 fluxes 0 ltac:(lia)) as [a0 Ha0].
  destruct (Hcomponents 0 a0 Ha0) as [Hproc0 Hlen0].
  rewrite (bind_Done _ _ _ _ _ (element_returns wi 0 s w0 Hw0)).
  destruct (get_component_index_run s 0 g)
    as (s1 & Hrun1 & Hcomp1 & _ & Hwi1 & Hproc1).
  rewrite (bind_Done _ _ _ _ _ Hrun1).
  assert (ho_sflxes_proc s1 = ho_sflxes_proc s ∧ setup s1 = setup s) as [Hho1 Hsetup1].
  { unfold get_component_index in Hrun1. by injection Hrun1 as <-. }
  rewrite (bind_Done _ _ _ _ _
    (element_returns aflxes_proc _ s1 a0 ltac:(by rewrite Hproc1))).
  rewrite (bind_Done _ _ _ _ _
    (element_returns ho_sflxes_proc g s1 ho0 ltac:(by rewrite Hho1))).
  unfold bind at 1, defined at 1, vec_equ. rewrite decide_True by lia.
  rewrite (bind_Done _ _ _ _ _
    (assign_element_run ho_sflxes_proc set_ho_sflxes_proc g _ s1
       ltac:(rewrite Hho1; by eapply lookup_lt_Some))).
  set (s2 := set_ho_sflxes_proc _ s1). eff_run.
  assert (n_dir s2 = n_dir s) as -> by (unfold setup in Hsetup1; by simplify_eq).
  set (pairs := zip (wi s) fluxes).
  assert (length pairs = n_dir s) as Hpairs
    by (unfold pairs; rewrite length_zip; lia).
  assert (∃ others, pairs = (w0, a0) :: others) as [others Hothers].
  { destruct pairs as [|[w a] others] eqn:Hp; [simpl in Hpairs; lia|].
    assert (pairs !! 0 = Some (w0, a0)) as Hhead
      by (unfold pairs; apply lookup_zip_with_Some; eauto).
    rewrite Hp in Hhead. injection Hhead as -> ->. eauto. }
  match goal with |- context [for_from 1 ?cnt ?body tt s2] =>
    destruct (for_from_total (λ i (_ : unit) s',
        aflxes_proc s' = aflxes_proc s ∧ wi s' = wi s ∧ setup s' = setup s
        ∧ (∀ d g', component_of s' d g' = component_of s d g')
        ∧ ∃ ho, ho_sflxes_proc s' = <[g := ho]> (ho_sflxes_proc s)
            ∧ length ho = size
            ∧ ∀ j, j < size →
                ho !! j
                = Some (fold_left
                          (λ acc wa, acc + wa.1 * default 0 (wa.2 !! j))%float
                          (take (i - 1) others)
                          (w0 * default 0 (a0 !! j))%float))
      cnt 1 body tt s2)
      as ([] & s' & Hrun & Hproc' & Hwi' & Hsetup' & Hcomp' & ho & Hho' & Hlen' & Hsum)
  end.
  - split_and!; [by rewrite <- Hproc1|by rewrite <- Hwi1|by rewrite <- Hsetup1| |].
    + intros d g'. by rewrite <- Hcomp1.
    + eexists. split; [simpl; by rewrite Hho1|]. split; [rewrite length_fmap; lia|].
      intros j Hj. simpl. rewrite list_lookup_fmap.
      destruct (lookup_lt_is_Some_2 a0 j ltac:(lia)) as [y Hy]. by rewrite Hy.
  - intros i [] s3 Hi (Hproc3 & Hwi3 & Hsetup3 & Hcomp3 & ho & Hho3 & Hlen3 & Hsum).
    destruct (lookup_lt_is_Some_2 pairs i ltac:(lia)) as [[w aflx] Hpair].
    pose proof Hpair as Hpair'. unfold pairs in Hpair'.
    apply lookup_zip_with_Some in Hpair' as (w' & aflx' & [= <- <-] & Hw & Haflx).
    destruct (Hcomponents i aflx Haflx) as [Hproc_i Hlen_i].
    destruct (add_ho_direction s3 g i w aflx ho)
      as (s4 & Hrun4 & Hho4 & Hproc4 & Hwi4 & Hsetup4 & Hcomp4).
    { by rewrite Hwi3. }
    { by rewrite Hcomp3, Hproc3. }
    { rewrite Hho3. apply list_lookup_insert_eq. by eapply lookup_lt_Some. }
    { lia. }
    exists tt, s4. split; [exact Hrun4|].
    split_and!; [congruence..| |].
    + intros d g'. by rewrite Hcomp4.
    + eexists. split; [by rewrite Hho4, Hho3, list_insert_insert_eq|].
      split; [rewrite length_zip_with; lia|].
      intros j Hj.
      assert (others !! (i - 1) = Some (w, aflx)) as Hother.
      { rewrite Hothers in Hpair. destruct i as [|i]; [lia|].
        simpl in Hpair. by replace (S i - 1) with i by lia. }
      replace (S i - 1) with (S (i - 1)) by lia.
      rewrite (take_S_r _ _ _ Hother), fold_left_app. simpl.
      rewrite lookup_zip_with, (Hsum j Hj). simpl.
      destruct (lookup_lt_is_Some_2 aflx j ltac:(lia)) as [y Hy]. by rewrite Hy.
  - exists s', ho. split; [exact Hrun|]. split_and!; [done|done| |done..].
    intros j Hj. rewrite (Hsum j Hj). unfold first_then_sum_at. fold pairs.
    rewrite Hothers. f_equal. f_equal. apply take_ge.
    rewrite Hothers in Hpairs. simpl in Hpairs. lia.
Qed.

(** X21.  What [generate_moments ()] computes.  On the high-order
    equation of an NDA calculation with at least one direction, a weight
    for each direction, the angular fluxes of all components in place
    and of one size, and the scalar fluxes of the groups already of that
    size, the call returns: every component's angular flux has been
    copied to [aflxes_proc], and entry [j] of the scalar flux of group
    [g] is the weighted flux of direction 0 with the weighted fluxes of
    the other directions added to it in their order.  What the scalar
    flux held before is not part of the result. *)
Theorem generate_moments_ho_weighted_sum (e : EquationBase) (size : nat)
    (fluxes : nat → list Vector) :
  equation_name e ≠ "nda" → do_nda e = true →
  0 < n_dir e → n_dir e ≤ length (wi e) →
  n_total_vars e ≤ length (sys_aflxes e) →
  n_total_vars e ≤ length (aflxes_proc e) →
  (∀ g, g < n_group e →
     (∃ ho, ho_sflxes_proc e !! g = Some ho ∧ length ho = size)
     ∧ length (fluxes g) = n_dir e
     ∧ ∀ i_dir aflx, fluxes g !! i_dir = Some aflx →
         component_of e i_dir g < n_total_vars e
         ∧ sys_aflxes e !! component_of e i_dir g = Some aflx
         ∧ length aflx = size) →
  ∃ e', generate_moments_ho e = Done tt e'
    ∧ (∀ i, i < n_total_vars e → aflxes_proc e' !! i = sys_aflxes e !! i)
    ∧ ∀ g, g < n_group e →
        ∃ ho, ho_sflxes_proc e' !! g = Some ho ∧ length ho = size
          ∧ ∀ j, j < size →
              ho !! j = Some (first_then_sum_at (wi e) (fluxes g) j).
Proof.
  intros Hname Hnda Hnd Hweights Hsys Hproc Hgroups.
  unfold generate_moments_ho. eff_run.
  apply String.eqb_neq in Hname. rewrite Hname, Hnda. simpl. eff_run.
  destruct (copy_angular_fluxes e Hsys Hproc)
    as (e1 & Hrun1 & Hcopied & Hsetup1 & Hwi1 & Hci1 & Hho1).
  rewrite (bind_Done _ _ _ _ _ Hrun1). eff_run.
  assert (n_group e1 = n_group e ∧ n_dir e1 = n_dir e) as [Hng1 Hnd1]
    by (unfold setup in Hsetup1; by simplify_eq).
  rewrite Hng1. unfold for_range.
  match goal with |- context [for_from 0 ?n ?body tt e1] =>
    destruct (for_from_total (λ g (_ : unit) s,
        aflxes_proc s = aflxes_proc e1 ∧ wi s = wi e ∧ setup s = setup e
        ∧ (∀ d g', component_of s d g' = component_of e d g')
        ∧ length (ho_sflxes_proc s) = length (ho_sflxes_proc e)
        ∧ (∀ g', g ≤ g' → ho_sflxes_proc s !! g' = ho_sflxes_proc e !! g')
        ∧ ∀ g', g' < g →
            ∃ ho, ho_sflxes_proc s !! g' = Some ho ∧ length ho = size
              ∧ ∀ j, j < size →
                  ho !! j = Some (first_then_sum_at (wi e) (fluxes g') j))
      n 0 body tt e1) as ([] & e' & Hrun & Hproc' & _ & _ & _ & _ & _ & Hdone)
  end.
  - split_and!; [done|done|done| |by rewrite Hho1|by rewrite Hho1|intros; lia].
    intros d g'. unfold component_of. by rewrite Hci1.
  - intros g [] s Hg (Hproc_s & Hwi_s & Hsetup_s & Hcomp_s & Hlen_s & Hrest & Hdone).
    simpl in Hg.
    destruct (Hgroups g ltac:(lia)) as ((ho0 & Hho0 & Hsize0) & Hfluxes & Hcomponents).
    assert (n_dir s = n_dir e) as Hnd_s by (unfold setup in Hsetup_s; by simplify_eq).
    destruct (ho_scalar_flux_of_group s g size (fluxes g) ho0)
      as (s' & ho & Hrun' & Hho' & Hlen' & Hsum & Hproc' & Hwi' & Hsetup' & Hcomp');
      [lia|by rewrite Hnd_s, Hwi_s|by rewrite Hnd_s| |by rewrite Hrest by lia|done|].
    { intros i_dir aflx Haflx.
      destruct (Hcomponents i_dir aflx Haflx) as (Hrange & Hsys_i & Hlen_i).
      split; [|done]. by rewrite Hcomp_s, Hproc_s, Hcopied. }
    exists tt, s'. split; [exact Hrun'|].
    split_and!; [congruence..| | | |].
    + intros d g'. by rewrite Hcomp'.
    + by rewrite Hho', length_insert.
    + intros g' Hg'. rewrite Hho', list_lookup_insert_ne by lia. apply Hrest. lia.
    + intros g' Hg'. destruct (decide (g' = g)) as [->|Hne].
      * exists ho. rewrite Hho', list_lookup_insert_eq
          by (eapply lookup_lt_Some; by rewrite Hrest by lia).
        split_and!; [done..|]. intros j Hj. by rewrite (Hsum j Hj), Hwi_s.
      * rewrite Hho', list_lookup_insert_ne by done. apply Hdone. lia.
  - exists e'. split; [exact Hrun|]. split; [|exact Hdone].
    intros i Hi. rewrite Hproc'. by apply Hcopied.
Qed.

End HighOrder.

Section MoreWitnesses.
Import Example.
#[local] Existing Instance collaborators.
#[local] Existing Instance integrators.
#[local] Existing Instance drivers.
#[local] Existing Instance fission_source.

Lemma example_fixed_integrator_keeps_size : fixed_integrator_keeps_size.
Proof. intros ??????. simpl. unfold add_to_entries. apply length_fmap. Qed.

Lemma example_fixed_form_ready : fixed_form_ready equation.
Proof.
  split.
  - intros cell Hcell. simpl in Hcell.
    repeat (apply elem_of_cons in Hcell as [->|Hcell]);
      [..|by apply elem_of_nil in Hcell]; by eexists.
  - intros k Hk. exists (replicate 6 3%float). split.
    + change (n_total_vars equation) with 4 in Hk.
      by destruct k as [|[|[|[|k]]]]; [..|lia].
    + intros cell c Hcell Hc. simpl in Hcell.
      repeat (apply elem_of_cons in Hcell as [->|Hcell]);
        [..|by apply elem_of_nil in Hcell];
        simplify_eq/=; (split; [done|repeat constructor; simpl; lia]).
Qed.

Lemma assemble_fixed_linear_form_rebuilds_witness :
  ∃ e', assemble_fixed_linear_form (replicate 2 (replicate 6 1%float)) equation
        = Done tt e'
    ∧ sys_mats e' = sys_mats equation
    ∧ sys_aflxes e' = sys_aflxes equation
    ∧ sys_rhses e' = sys_rhses equation
    ∧ fixed_right_hand_sides (replicate 2 (replicate 6 1%float)) equation
      = Some (sys_fixed_rhses e').
Proof.
  exact (assemble_fixed_linear_form_rebuilds (replicate 2 (replicate 6 1%float))
           equation example_fixed_integrator_keeps_size example_fixed_form_ready).
Defined.

Lemma base_class_fixed_source_is_zero_witness :
  ∃ e', @assemble_fixed_linear_form _ EquationBase_integrators
          (replicate 2 (replicate 6 1%float)) equation = Done tt e'
    ∧ ∀ k old, k < n_total_vars equation →
        sys_fixed_rhses equation !! k = Some old →
        sys_fixed_rhses e' !! k = Some (vec_fill 0 old).
Proof.
  exact (base_class_fixed_source_is_zero (replicate 2 (replicate 6 1%float))
           equation example_fixed_form_ready).
Defined.

Lemma assembly_without_local_cells_witness :
  assemble_volume_boundary_bilinear_form fresh = Undefined
  ∧ assemble_bilinear_form fresh = Undefined.
Proof. apply (assembly_without_local_cells fresh). reflexivity. Defined.

Lemma assemble_bilinear_form_log_witness :
  ∃ e', assemble_bilinear_form reflector = Done tt e'
    ∧ pcout e' = pcout reflector ++ assembly_log reflector.
Proof.
  eexists. split; [vm_compute; reflexivity|].
  apply (assemble_bilinear_form_log reflector). vm_compute. reflexivity.
Defined.

Lemma index_of_unknown_component_witness :
  (get_component_index 7 7 equation
   = Done 0 (set_component_index (λ m, <[(7, 7) := 0]> m) equation)
   ∧ get_component_index 7 7
       (set_component_index (λ m, <[(7, 7) := 0]> m) equation)
     = Done 0 (set_component_index (λ m, <[(7, 7) := 0]> m) equation))
  ∧ (get_component_direction 9 equation
     = Done 0 (set_inverse_component_index (λ m, <[9 := (0, 0)]> m) equation)
     ∧ get_component_direction 9
         (set_inverse_component_index (λ m, <[9 := (0, 0)]> m) equation)
       = Done 0 (set_inverse_component_index (λ m, <[9 := (0, 0)]> m) equation))
  ∧ (get_component_group 9 equation
     = Done 0 (set_inverse_component_index (λ m, <[9 := (0, 0)]> m) equation)
     ∧ get_component_group 9
         (set_inverse_component_index (λ m, <[9 := (0, 0)]> m) equation)
       = Done 0 (set_inverse_component_index (λ m, <[9 := (0, 0)]> m) equation)).
Proof.
  split; [|split].
  - apply (proj1 (index_of_unknown_component equation) 7 7). reflexivity.
  - apply (proj1 (proj2 (index_of_unknown_component equation)) 9). reflexivity.
  - apply (proj2 (proj2 (index_of_unknown_component equation)) 9). reflexivity.
Defined.

Lemma rescaling_does_not_compound_witness :
  ∃ e1 e2 e',
    scale_fiss_transfer_matrices 2 equation = Done tt e1
    ∧ scale_fiss_transfer_matrices 4 e1 = Done tt e2
    ∧ scale_fiss_transfer_matrices 4 equation = Done tt e'
    ∧ scaled_fiss_transfer_per_ster e2 = scaled_fiss_transfer_per_ster e'.
Proof.
  apply (rescaling_does_not_compound equation 2 4);
    [reflexivity|exact example_table_complete].
Defined.

Lemma eigen_iterations_needs_eigen_problem_witness :
  eigen_iterations 1 fixed_source_iteration
  = Thrown "Only eigen problem calls this member" fixed_source_iteration.
Proof.
  apply (@eigen_iterations_needs_eigen_problem collaborators integrators drivers
           0 fixed_source_iteration fixed_source_iteration fixed_source_equation);
    reflexivity.
Defined.

Lemma moments_or_closure_witness :
  ∃ e', generate_moments_ho ho_equation = Done tt e'
    ∧ assemble_closure_bilinear_form equation true e'
      = Thrown "only instance for NDA calls this function" e'.
Proof.
  eexists. split; [vm_compute; reflexivity|].
  apply (moments_or_closure ho_equation). vm_compute. reflexivity.
Defined.

Lemma reflective_direction_of_other_boundary_witness :
  ∃ r',
    get_reflective_direction_index 3 0
      (process_input_reflective false {[3 := true]} {[(3, 0) := 1]})
    = Thrown "must be reflective boundary to retrieve the reflective boundary" r'
    ∧ is_reflective_bc r' = <[3 := false]> ∅
    ∧ reflective_direction_index r' = ∅
    ∧ ∀ incident_angle_index',
        get_reflective_direction_index 3 incident_angle_index' r'
        = Thrown "must be reflective boundary to retrieve the reflective boundary"
            r'.
Proof.
  apply (reflective_direction_of_other_boundary
           (process_input_reflective false {[3 := true]} {[(3, 0) := 1]}) 3 0).
  reflexivity.
Defined.

Lemma eigen_iterations_without_pass_witness :
  eigen_iterations 5 loose_iteration
  = Done (Some {| err_k := 1; err_phi := 1; iter := 0 |}) loose_iteration.
Proof.
  apply (@eigen_iterations_without_pass collaborators integrators drivers
           5 loose_iteration); reflexivity.
Defined.

Lemma initialize_system_matrices_vectors_result_witness :
  ∃ e', initialize_system_matrices_vectors [(0, 0)] 6 [[]; []] fresh
        = Done (replicate 2 (replicate 6 1%float)) e'
    ∧ sys_mats e' = replicate 4 (SparseMatrix_reinit [(0, 0)])
    ∧ sys_aflxes e' = replicate 4 (replicate 6 0%float)
    ∧ sys_rhses e' = replicate 4 (replicate 6 0%float)
    ∧ sys_fixed_rhses e' = replicate 4 (replicate 6 0%float).
Proof.
  apply (initialize_system_matrices_vectors_result fresh [(0, 0)] 6 [[]; []]);
    first [reflexivity | vm_compute; lia].
Defined.

Lemma initialize_system_matrices_vectors_twice_witness :
  ∃ sflxes_proc' e' sflxes_proc'' e'',
    initialize_system_matrices_vectors [(0, 0)] 6 [[]; []] fresh
    = Done sflxes_proc' e'
    ∧ initialize_system_matrices_vectors [(0, 0)] 6 sflxes_proc' e'
      = Done sflxes_proc'' e''
    ∧ sys_mats e''
      = replicate 4 (SparseMatrix_reinit [(0, 0)]) ++ replicate 4 ∅
    ∧ sys_aflxes e'' = replicate 4 (replicate 6 0%float) ++ replicate 4 []
    ∧ sys_rhses e'' = replicate 4 (replicate 6 0%float) ++ replicate 4 []
    ∧ sys_fixed_rhses e''
      = replicate 4 (replicate 6 0%float) ++ replicate 4 [].
Proof.
  apply (initialize_system_matrices_vectors_twice fresh [(0, 0)] 6 [[]; []]);
    first [reflexivity | vm_compute; lia].
Defined.

Lemma GoldTest_makes_one_call_witness :
  CleanupGold "out.txt" true true (test_process 0)
  = Done tt {| helper := helper (test_process 0); returns := λ _, 0%Z;
               calls := [Remove "out.txt"]; local_time := "20180101_1200" |}
  ∧ GoldTest "out.txt" true true (test_process 0) = Undefined.
Proof.
  apply (proj1 (GoldTest_makes_one_call "out.txt" true true (test_process 0))).
  reflexivity.
Defined.

Lemma where_the_actual_file_goes_witness :
  ∃ p1, BartTestHelper_new true "gold/" (test_process 0) = Done tt p1
    ∧ calls p1 = [Mkdir "gold/20180101_1200_fail" report_directory_mode]
    ∧ ∀ actual_good,
        cleanup_call (helper p1) "out.txt" false actual_good
        = Rename "out.txt" "gold/20180101_1200_fail/out.txt".
Proof.
  apply (proj2 (where_the_actual_file_goes "gold/" "out.txt" (test_process 0))).
  discriminate.
Defined.

Lemma initialize_with_fewer_components_than_groups_witness :
  initialize_system_matrices_vectors [(0, 0)] 6 [[]; []] starved = Undefined.
Proof.
  apply (initialize_with_fewer_components_than_groups starved [(0, 0)] 6 [[]; []]);
    first [reflexivity | vm_compute; lia].
Defined.

Lemma estimate_fiss_src_without_fissile_cells_witness :
  ∃ e', estimate_fiss_src [[1; 1]; [1; 1]]%float
          (replicate 2 (replicate 6 1%float)) reflector
        = Done (MPI_sum 0) e'
    ∧ setup e' = setup reflector
    ∧ linear_system e' = linear_system reflector
    ∧ sys_fixed_rhses e' = sys_fixed_rhses reflector.
Proof.
  apply (estimate_fiss_src_without_fissile_cells [[1; 1]; [1; 1]]%float
           (replicate 2 (replicate 6 1%float)) reflector).
  intros cell Hcell. simpl in Hcell.
  apply elem_of_cons in Hcell as [->|Hcell]; [|by apply elem_of_nil in Hcell].
  eexists. split; reflexivity.
Defined.

Lemma generate_moments_ho_weighted_sum_witness :
  ∃ e', generate_moments_ho ho_equation = Done tt e'
    ∧ (∀ i, i < n_total_vars ho_equation →
         aflxes_proc e' !! i = sys_aflxes ho_equation !! i)
    ∧ ∀ g, g < n_group ho_equation →
        ∃ ho, ho_sflxes_proc e' !! g = Some ho ∧ length ho = 6
          ∧ ∀ j, j < 6 →
              ho !! j
              = Some (first_then_sum_at (wi ho_equation)
                        (replicate 2 (replicate 6 1%float)) j).
Proof.
  apply (generate_moments_ho_weighted_sum ho_equation 6
           (λ _, replicate 2 (replicate 6 1%float)));
    [discriminate|reflexivity|vm_compute; lia..|].
  intros g Hg. change (n_group ho_equation) with 2 in Hg.
  split; [exists (replicate 6 0%float); by destruct g as [|[|g]]; [..|lia]|].
  split; [reflexivity|].
  intros i_dir aflx Haflx.
  destruct i_dir as [|[|i_dir]]; [..|discriminate];
    injection Haflx as <-;
    (destruct g as [|[|g]]; [..|lia]);
    (split; [vm_compute; lia|split; reflexivity]).
Defined.

End MoreWitnesses.
